(** * Register analysis of Verible tree dumps (src/tools/analyze.ts)

    A shallow embedding of the [AnalyzeTool] class: the reconstruction of
    the syntax tree from the text printed by [verible-verilog-syntax
    --printtree], the tree queries, the extraction of register candidates,
    their classification from the always blocks, and the aggregation of
    per-file results.

    Conventions.
    - A JavaScript string is a sequence of UTF-16 code units; the model
      takes [string], i.e. the code units below 256.
    - A JavaScript number is a double. The numbers that [parseInt] and
      the arithmetic on its results give are integers, infinities or
      NaN, and are modelled by [number], with the rounding of a double;
      the lengths, counts and line numbers stay far below 2^53 and are
      modelled by [nat].
    - An object with a [children] array is a [Node], an object with a
      [text] is a [Leaf]. *)

From Stdlib Require Import ZArith Ascii Lia.
From Stdlib Require String Floats.SpecFloat.
From stdpp Require Import gmap strings list fin_maps.

Set Warnings "-register-all".

#[local] Open Scope Z_scope.
#[local] Open Scope nat_scope.

(** ** Characters and the pieces of the two regular expressions *)

Module Chars.

Definition code (c : ascii) : nat := nat_of_ascii c.

(** [\s] of a JavaScript regular expression, on the code units below 256:
    TAB, LF, VT, FF, CR, SPACE and NO-BREAK SPACE. [parseInt] skips the
    same set. *)
Definition is_space (c : ascii) : bool :=
  let n := code c in
  ((9 <=? n) && (n <=? 13)) || (n =? 32) || (n =? 160).

(** [\d] *)
Definition is_digit (c : ascii) : bool :=
  let n := code c in (48 <=? n) && (n <=? 57).

(** [\w] *)
Definition is_word (c : ascii) : bool :=
  let n := code c in
  ((48 <=? n) && (n <=? 57)) || ((65 <=? n) && (n <=? 90))
  || (n =? 95) || ((97 <=? n) && (n <=? 122)).

(** Any character but the double quote (code 34). *)
Definition not_quote (c : ascii) : bool := negb (code c =? 34).

(** The double quote and the line feed, as one-character strings. *)
Definition dq : string := String (ascii_of_nat 34) EmptyString.
Definition nl : string := String (ascii_of_nat 10) EmptyString.

(** The longest prefix of [s] whose characters satisfy [p], and the rest:
    a greedy [p*]. *)
Fixpoint span (p : ascii -> bool) (s : string) : string * string :=
  match s with
  | EmptyString => (EmptyString, EmptyString)
  | String c s' =>
      if p c then let '(a, b) := span p s' in (String c a, b)
      else (EmptyString, s)
  end.

(** [expect lit s] is the rest of [s] after the literal [lit], if [s]
    starts with it. *)
Fixpoint expect (lit s : string) : option string :=
  match lit with
  | EmptyString => Some s
  | String c lit' =>
      match s with
      | EmptyString => None
      | String d s' => if Ascii.eqb c d then expect lit' s' else None
      end
  end.

(** [s.startsWith(lit)] *)
Definition startsWith (lit s : string) : bool :=
  match expect lit s with Some _ => true | None => false end.

(** [s.endsWith(lit)]: [s] itself is [lit], or what follows its first
    character ends with [lit]. *)
Fixpoint endsWith (lit s : string) : bool :=
  bool_decide (s = lit)
  || match s with
     | EmptyString => false
     | String _ s' => endsWith lit s'
     end.

(** [s.split('\n')]: the pieces between line feeds; never empty. *)
Fixpoint split_lines (s : string) : list string :=
  match s with
  | EmptyString => [EmptyString]
  | String c s' =>
      if code c =? 10 then EmptyString :: split_lines s'
      else match split_lines s' with
           | [] => [String c EmptyString]
           | l :: ls => String c l :: ls
           end
  end.

End Chars.

(** ** Numbers and [parseInt] *)

Module Number.
Import Chars.
#[local] Open Scope Z_scope.

(** The doubles that this code meets: NaN, the two infinities, and the
    doubles whose value is an integer, [Finite z] being the double of
    value [z]. The two zeros are one [Finite 0]: no number of this code
    is divided by, and a zero is printed as [0] whatever its sign. *)
Inductive number : Type :=
| NaN
| Infinity (negative : bool)
| Finite (z : Z).

#[global] Instance number_eq_dec : EqDecision number.
Proof. solve_decision. Defined.

(** The Number value for the integer [z] (ECMAScript 6.1.6.1), which is
    also the result of an operation whose exact result is [z]: the
    double nearest to [z], the one with the even significand when two
    are as near, and an infinity when that is 2^1024 or more in
    magnitude. An integer of at most 53 bits is a double. Of a longer
    one the [e] bits after the first 53 are rounded off. *)
Definition round (z : Z) : number :=
  let a := Z.abs z in
  let e := Z.log2 a - 52 in
  if e <=? 0 then Finite z
  else
    let q := a / 2 ^ e in
    let r := a mod 2 ^ e in
    let half := 2 ^ (e - 1) in
    let up := (half <? r) || ((half =? r) && Z.odd q) in
    let v := (if up then q + 1 else q) * 2 ^ e in
    if 2 ^ 1024 <=? v then Infinity (z <? 0) else Finite (Z.sgn z * v).


(** [a + b] *)
Definition add (a b : number) : number :=
  match a, b with
  | NaN, _ | _, NaN => NaN
  | Infinity s, Infinity s' => if Bool.eqb s s' then Infinity s else NaN
  | Infinity s, Finite _ | Finite _, Infinity s => Infinity s
  | Finite x, Finite y => round (x + y)
  end.

(** [a - b] *)
Definition sub (a b : number) : number :=
  match a, b with
  | NaN, _ | _, NaN => NaN
  | Infinity s, Infinity s' => if Bool.eqb s s' then NaN else Infinity s
  | Infinity s, Finite _ => Infinity s
  | Finite _, Infinity s => Infinity (negb s)
  | Finite x, Finite y => round (x - y)
  end.

(** [Math.abs(a)] *)
Definition abs (a : number) : number :=
  match a with
  | NaN => NaN
  | Infinity _ => Infinity false
  | Finite z => Finite (Z.abs z)
  end.

(** [isNaN(a)] *)
Definition isNaN (a : number) : bool :=
  match a with NaN => true | _ => false end.

(** [a < 1] *)
Definition below_one (a : number) : bool :=
  match a with
  | NaN => false
  | Infinity s => s
  | Finite z => z <? 1
  end.

(** The value of [c] as a digit of the given radix, if it is one. *)
Definition digit_of (radix : Z) (c : ascii) : option Z :=
  let n := Z.of_nat (code c) in
  let v := if (48 <=? n) && (n <=? 57) then n - 48
           else if (97 <=? n) && (n <=? 122) then n - 87
           else if (65 <=? n) && (n <=? 90) then n - 55
           else radix in
  if v <? radix then Some v else None.

Definition is_radix_digit (radix : Z) (c : ascii) : bool :=
  match digit_of radix c with Some _ => true | None => false end.

Fixpoint digits_value (radix : Z) (acc : Z) (s : string) : Z :=
  match s with
  | EmptyString => acc
  | String c s' => digits_value radix (radix * acc + default 0 (digit_of radix c)) s'
  end.

(** The integer that [parseInt(s)], with no radix argument, reads
    (ECMAScript 19.2.5, [sign] times [mathInt]): leading white space is
    skipped, then an optional sign, then an optional [0x]/[0X] which
    selects radix 16, then the longest run of digits; what follows is
    ignored. [None] when there is no digit. *)
Definition mathInt (s : string) : option Z :=
  let s1 := snd (span is_space s) in
  let '(sign, s2) :=
    match s1 with
    | String "-" r => (-1, r)
    | String "+" r => (1, r)
    | _ => (1, s1)
    end in
  let '(radix, s3) :=
    match s2 with
    | String "0" (String "x" r) => (16, r)
    | String "0" (String "X" r) => (16, r)
    | _ => (10, s2)
    end in
  let ds := fst (span (is_radix_digit radix) s3) in
  match ds with
  | EmptyString => None
  | _ => Some (sign * digits_value radix 0 ds)
  end.

(** [parseInt(s)]: NaN when there is no digit, and otherwise the Number
    value for the integer read. (ECMAScript lets an implementation read
    the decimal digits after the twentieth as zeros; the engines that
    run this code round the integer as it is written.) *)
Definition parseInt (s : string) : number :=
  match mathInt s with
  | Some z => round z
  | None => NaN
  end.

(** A double of the Standard Library's IEEE 754 specification, as a
    [number] when its value is an integer. *)
Definition of_spec_float (f : SpecFloat.spec_float) : number :=
  match f with
  | SpecFloat.S754_nan => NaN
  | SpecFloat.S754_infinity s => Infinity s
  | SpecFloat.S754_zero _ => Finite 0
  | SpecFloat.S754_finite s m e =>
      Finite ((if s then -1 else 1) * Z.shiftl (Z.pos m) e)
  end.

(** The binary64 format: a precision of 53 bits and exponents below
    1024. [binary64 z] is the double nearest to [z], as that
    specification rounds. *)
Definition binary64 (z : Z) : SpecFloat.spec_float :=
  SpecFloat.binary_normalize 53 1024 z 0 false.

(** [v] with the sign [sx]. *)
Definition signed (sx : bool) (v : Z) : Z := (if sx then -1 else 1) * v.

End Number.

(** ** The syntax tree *)

(** [SyntaxLeaf]. [start] and [end_] are the results of [parseInt]. *)
Record SyntaxLeaf : Type := mkLeaf {
  leaf_tag : string;
  start : Number.number;
  end_ : Number.number;
  text : string
}.

(** [SyntaxNode | SyntaxLeaf] *)
Inductive Syntax : Type :=
| Node (tag : string) (children : list Syntax)
| Leaf (l : SyntaxLeaf).

#[global] Instance SyntaxLeaf_eq_dec : EqDecision SyntaxLeaf.
Proof. solve_decision. Defined.

(** ** Matching one line of the dump *)

Module Line.
Import Chars.

(** The groups 1 and 2 of the node pattern, anchored at the start of the
    line: a run of white space (group 1), [Node @], one or more digits,
    [ (tag: ], one or more word characters (group 2) and [)]; the rest of
    the line is free. Each repeated class is followed by a character
    outside the class, so the greedy match is the only one. *)
Definition nodeMatch (line : string) : option (string * string) :=
  let '(ws, r) := span is_space line in
  r ← expect "Node @" r;
  let '(ds, r) := span is_digit r in
  if decide (ds = "") then None else
  r ← expect " (tag: " r;
  let '(tag, r) := span is_word r in
  if decide (tag = "") then None else
  _ ← expect ")" r;
  Some (ws, tag).

(** An optional double quote. When one is there the regular expression
    has to take it, as neither [\w] nor a space matches it. *)
Definition opt_quote (s : string) : string :=
  match expect dq s with Some r => r | None => s end.

(** The groups 1 to 5 of the leaf pattern:
    white space, [Leaf @], digits, [ (#], an optional quote, the tag, an
    optional quote, [ @], the start digits, [-], the end digits, [: ], a
    quote, the text (no quote inside), a quote and [)]. *)
Record leafGroups : Type := mkGroups {
  g_ws : string; g_tag : string; g_start : string; g_end : string; g_text : string
}.

Definition leafMatch (line : string) : option leafGroups :=
  let '(ws, r) := span is_space line in
  r ← expect "Leaf @" r;
  let '(ds, r) := span is_digit r in
  if decide (ds = "") then None else
  r ← expect " (#" r;
  let '(tag, r) := span is_word (opt_quote r) in
  if decide (tag = "") then None else
  r ← expect " @" (opt_quote r);
  let '(s, r) := span is_digit r in
  if decide (s = "") then None else
  r ← expect "-" r;
  let '(e, r) := span is_digit r in
  if decide (e = "") then None else
  r ← expect ": " r;
  r ← expect dq r;
  let '(txt, r) := span not_quote r in
  r ← expect dq r;
  _ ← expect ")" r;
  Some (mkGroups ws tag s e txt).

End Line.

(** ** Exceptions *)

(** A computation that returns a value or throws. In the modelled code
    an exception is a TypeError (a property read on [undefined], a call
    of something that is not a function) or a failure of a collaborator
    (the executor, the file system). *)
Inductive result (A : Type) : Type :=
| Ok (a : A)
| Thrown.
Arguments Ok {A} a.
Arguments Thrown {A}.

#[global] Instance result_ret : MRet result := fun A a => Ok a.
#[global] Instance result_bind : MBind result := fun A B f m =>
  match m with Ok a => f a | Thrown => Thrown end.

(** ** Tree reconstruction: [parseTreeStructure] *)

Module Parse.
Import Chars Number Line.

(** The objects the function allocates live in a store; a node object is
    a cell, named by its index. The parent's [children] array, the
    [stack] and [root] hold references to the same cell, so a later
    [push] into a node is seen through all of them. Leaves are never
    updated and are stored by value. *)
Inductive child : Type :=
| CNode (id : nat)
| CLeaf (l : SyntaxLeaf).

Record cell : Type := mkCell { cell_tag : string; cell_children : list child }.

(** The local variables of the loop. The head of [stack] is the top, the
    last element of the JavaScript array. *)
Record state : Type := mkState {
  heap : list cell;
  root : option nat;
  stack : list nat
}.

Definition init : state := mkState [] None [].

(** [while (stack.length > indent) stack.pop()], with
    [indent = ws.length / 2], a possibly fractional number:
    [stack.length > ws.length / 2] iff [2 * stack.length > ws.length]. *)
Fixpoint pop_to (w : nat) (stack : list nat) : list nat :=
  match stack with
  | [] => []
  | _ :: rest => if w <? 2 * length stack then pop_to w rest else stack
  end.

(** [parent.children.push(c)] *)
Definition push_child (h : list cell) (parent : nat) (c : child) : result (list cell) :=
  match h !! parent with
  | Some cl => Ok (<[parent := mkCell (cell_tag cl) (cell_children cl ++ [c])]> h)
  | None => Thrown
  end.

Definition node_line (st : state) (ws tag : string) : result state :=
  let id := length (heap st) in
  let h := heap st ++ [mkCell tag []] in
  let stk := pop_to (String.length ws) (stack st) in
  match stk with
  | [] => Ok (mkState h (Some id) [id])
  | parent :: _ =>
      h' ← push_child h parent (CNode id);
      Ok (mkState h' (root st) (id :: stk))
  end.

Definition leaf_line (st : state) (g : leafGroups) : result state :=
  let leaf := mkLeaf (g_tag g) (parseInt (g_start g)) (parseInt (g_end g)) (g_text g) in
  let stk := pop_to (String.length (g_ws g)) (stack st) in
  match stk with
  | [] => Ok (mkState (heap st) (root st) [])
  | parent :: _ =>
      h' ← push_child (heap st) parent (CLeaf leaf);
      Ok (mkState h' (root st) stk)
  end.

(** The body of [for (const line of lines)]. *)
Definition step (st : state) (line : string) : result state :=
  match nodeMatch line with
  | Some (ws, tag) => node_line st ws tag
  | None =>
      match leafMatch line with
      | Some g => leaf_line st g
      | None => Ok st
      end
  end.

Fixpoint run (st : state) (lines : list string) : result state :=
  match lines with
  | [] => Ok st
  | line :: rest => st' ← step st line; run st' rest
  end.

(** Reading the store back as a tree. A child is always allocated after
    its parent, so the trees of the cells are built from the last cell
    to the first. [build base h] are the trees of the cells of [h], which
    sit at the indices from [base] on. *)
Definition resolve (base : nat) (ts : list (option Syntax)) (c : child) : option Syntax :=
  match c with
  | CLeaf l => Some (Leaf l)
  | CNode j => if decide (base < j) then mjoin (ts !! (j - S base)) else None
  end.

Fixpoint build (base : nat) (h : list cell) : list (option Syntax) :=
  match h with
  | [] => []
  | c :: h' =>
      let ts := build (S base) h' in
      (Node (cell_tag c) <$> mapM (resolve base ts) (cell_children c)) :: ts
  end.

(** [return root]: [null] or the tree under the root cell. *)
Definition reify (st : state) : result (option Syntax) :=
  match root st with
  | None => Ok None
  | Some r =>
      match mjoin (build 0 (heap st) !! r) with
      | Some t => Ok (Some t)
      | None => Thrown
      end
  end.

Definition parseLines (lines : list string) : result (option Syntax) :=
  st ← run init lines; reify st.

Definition parseTreeStructure (output : string) : result (option Syntax) :=
  parseLines (split_lines output).

End Parse.

(** ** Tree queries *)

Module Query.

(** [findNodesByTag(node, tag)]: the nodes of the subtree with that tag,
    in pre-order. A leaf has a [tag] but no [children] and is never
    returned. *)
Fixpoint findNodesByTag (node : Syntax) (tag : string) {struct node} : list Syntax :=
  match node with
  | Leaf _ => []
  | Node t cs =>
      (if decide (t = tag) then [node] else [])
      ++ flat_map (fun c => findNodesByTag c tag) cs
  end.

(** [findFirstNodeByTag(node, tag)] *)
Fixpoint findFirstNodeByTag (node : Syntax) (tag : string) {struct node} : option Syntax :=
  match node with
  | Leaf _ => None
  | Node t cs =>
      if decide (t = tag) then Some node
      else (fix first (cs : list Syntax) : option Syntax :=
              match cs with
              | [] => None
              | c :: cs' =>
                  match findFirstNodeByTag c tag with
                  | Some found => Some found
                  | None => first cs'
                  end
              end) cs
  end.

(** [getAllLeaves(node)] *)
Fixpoint getAllLeaves (node : Syntax) : list SyntaxLeaf :=
  match node with
  | Leaf l => [l]
  | Node _ cs => flat_map getAllLeaves cs
  end.

End Query.

(** ** Register candidates *)

(** [RegisterInfo['type']] *)
Inductive RegType : Type := flip_flop | latch | potential_register.

#[global] Instance RegType_eq_dec : EqDecision RegType.
Proof. solve_decision. Defined.

(** [RegisterInfo]. The optional [clock] and [reset] are never written by
    this file and are left out. *)
Record RegisterInfo : Type := mkReg {
  name : string;
  width : Number.number;
  type : RegType;
  file : string;
  line : nat;
  module : string
}.

#[global] Instance RegisterInfo_eq_dec : EqDecision RegisterInfo.
Proof. solve_decision. Defined.

(** [ModuleInfo] *)
Record ModuleInfo : Type := mkModule {
  m_name : string;
  m_file : string;
  m_line : nat;
  registerCount : nat
}.

Module Extract.
Import Chars Number Query.

(** The line feeds among the first [n] characters of [content]. *)
Fixpoint newlines (content : string) (n : nat) : nat :=
  match n, content with
  | S n', String c rest => (if code c =? 10 then 1 else 0) + newlines rest n'
  | _, _ => 0
  end.

(** [getLineNumber(content, byteOffset)]: the loop runs while
    [i < byteOffset && i < content.length]. With NaN or the negative
    infinity it does not run, and with the positive infinity it runs to
    the end of the text. *)
Definition getLineNumber (content : string) (byteOffset : number) : nat :=
  match byteOffset with
  | Finite off => 1 + newlines content (Z.to_nat off)
  | Infinity false => 1 + newlines content (String.length content)
  | Infinity true => 1
  | NaN => 1
  end.

(** [getLineNumberFromNode(node, content)] *)
Definition getLineNumberFromNode (node : Syntax) (content : string) : nat :=
  match getAllLeaves node with
  | l :: _ => getLineNumber content (start l)
  | [] => 1
  end.

(** [parsePackedDimensions(dimNode)]. A leaf read from a dump has a tag
    that is not empty, so [leaf.tag &&] is the test of the prefix alone
    there; the empty tag is falsy and fails the test of the prefix as
    well. *)
Definition parsePackedDimensions (dimNode : Syntax) : number :=
  let leaves := getAllLeaves dimNode in
  let numbers := List.filter (fun l => startsWith "TK_" (leaf_tag l)) leaves in
  match numbers with
  | n0 :: n1 :: _ =>
      let msb := parseInt (text n0) in
      let lsb := parseInt (text n1) in
      if negb (isNaN msb) && negb (isNaN lsb)
      then add (abs (sub msb lsb)) (Finite 1)
      else Finite 1
  | _ => Finite 1
  end.

(** [['wire', 'reg', 'logic'].includes(t)] *)
Definition is_type_keyword (t : string) : bool :=
  bool_decide (t ∈ ["wire"; "reg"; "logic"]).

(** The first loop of [parseDataDeclaration]: the text of the first leaf
    that is a type keyword ([break]), [wire] when there is none. *)
Fixpoint data_type (leaves : list SyntaxLeaf) : string :=
  match leaves with
  | [] => "wire"
  | leaf :: rest => if is_type_keyword (text leaf) then text leaf else data_type rest
  end.

(** [findFirstNodeByTag(decl, 'kPackedDimensions')] and
    [parsePackedDimensions], with [width = 1] when there is no such node. *)
Definition decl_width (decl : Syntax) : number :=
  match findFirstNodeByTag decl "kPackedDimensions" with
  | Some packedDimNode => parsePackedDimensions packedDimNode
  | None => Finite 1
  end.

Definition is_identifier (leaf : SyntaxLeaf) : bool :=
  bool_decide (leaf_tag leaf = "SymbolIdentifier").

(** The object pushed for a name leaf. *)
Definition candidate (content : string) (w : number) (nameLeaf : SyntaxLeaf) : RegisterInfo :=
  mkReg (text nameLeaf) w potential_register "" (getLineNumber content (start nameLeaf)) "".

(** [regLeaves.find(leaf => leaf.tag === 'SymbolIdentifier')] *)
Definition nameLeaf (regVar : Syntax) : option SyntaxLeaf :=
  List.find is_identifier (getAllLeaves regVar).

(** The loop over the [kRegisterVariable] nodes. *)
Fixpoint register_variables (content : string) (w : number) (regVarNodes : list Syntax)
  : list RegisterInfo :=
  match regVarNodes with
  | [] => []
  | regVar :: rest =>
      match nameLeaf regVar with
      | Some leaf => candidate content w leaf :: register_variables content w rest
      | None => register_variables content w rest
      end
  end.

(** [parseDataDeclaration(dataDecl, content).registers] *)
Definition parseDataDeclaration (dataDecl : Syntax) (content : string) : list RegisterInfo :=
  let leaves := getAllLeaves dataDecl in
  let ty := data_type leaves in
  if bool_decide (ty ≠ "reg") && bool_decide (ty ≠ "logic") then []
  else
    let w := decl_width dataDecl in
    register_variables content w (findNodesByTag dataDecl "kRegisterVariable").

(** The first loop of [parsePortDeclaration], which has no [break]:
    [isOutput] is set by any leaf [output], [type] is the text of the
    last leaf that is a type keyword. *)
Fixpoint port_scan (leaves : list SyntaxLeaf) (isOutput : bool) (ty : string)
  : bool * string :=
  match leaves with
  | [] => (isOutput, ty)
  | leaf :: rest =>
      if bool_decide (text leaf = "output") then port_scan rest true ty
      else if is_type_keyword (text leaf) then port_scan rest isOutput (text leaf)
      else port_scan rest isOutput ty
  end.

Definition is_port_name (leaf : SyntaxLeaf) : bool :=
  is_identifier leaf
  && negb (bool_decide (text leaf ∈ ["input"; "output"; "inout"; "wire"; "reg"; "logic"])).

(** [parsePortDeclaration(portDecl, content)] *)
Definition parsePortDeclaration (portDecl : Syntax) (content : string) : list RegisterInfo :=
  let leaves := getAllLeaves portDecl in
  let '(isOutput, ty) := port_scan leaves false "wire" in
  if negb isOutput || (bool_decide (ty ≠ "reg") && bool_decide (ty ≠ "logic")) then []
  else
    let w := decl_width portDecl in
    let portNames := List.filter is_port_name leaves in
    map (candidate content w) portNames.

End Extract.

(** ** Classification: [refineRegisters] *)

Module Classify.
Import Query Extract.

(** [eventLeaves.some(leaf => leaf.text === 'posedge' || leaf.text === 'negedge')] *)
Definition has_edge_leaf (eventExpr : Syntax) : bool :=
  existsb (fun leaf => bool_decide (text leaf = "posedge") || bool_decide (text leaf = "negedge"))
          (getAllLeaves eventExpr).

(** [hasClockEdge] after the loop over the [kEventExpression] nodes. *)
Definition hasClockEdge (alwaysNode : Syntax) : bool :=
  existsb has_edge_leaf (findNodesByTag alwaysNode "kEventExpression").

(** The inner loop of [findAssignedSignals]: the text of the first
    identifier leaf ([break]). *)
Fixpoint first_identifier (leaves : list SyntaxLeaf) : option string :=
  match leaves with
  | [] => None
  | leaf :: rest => if is_identifier leaf then Some (text leaf) else first_identifier rest
  end.

Fixpoint assigned_of (assignmentNodes : list Syntax) : list string :=
  match assignmentNodes with
  | [] => []
  | assignment :: rest =>
      match findFirstNodeByTag assignment "kLPValue" with
      | Some lhs =>
          match first_identifier (getAllLeaves lhs) with
          | Some signal => signal :: assigned_of rest
          | None => assigned_of rest
          end
      | None => assigned_of rest
      end
  end.

(** [findAssignedSignals(node)] *)
Definition findAssignedSignals (node : Syntax) : list string :=
  assigned_of (findNodesByTag node "kNetVariableAssignment"
               ++ findNodesByTag node "kBlockingAssignmentStatement"
               ++ findNodesByTag node "kNonblockingAssignmentStatement").

(** The two sets after the loop over the always blocks:
    [(clockedSignals, latchSignals)]. *)
Fixpoint signal_sets (alwaysNodes : list Syntax) (clockedSignals latchSignals : gset string)
  : gset string * gset string :=
  match alwaysNodes with
  | [] => (clockedSignals, latchSignals)
  | alwaysNode :: rest =>
      let assignedSignals := list_to_set (findAssignedSignals alwaysNode) in
      if hasClockEdge alwaysNode
      then signal_sets rest (clockedSignals ∪ assignedSignals) latchSignals
      else signal_sets rest clockedSignals (latchSignals ∪ assignedSignals)
  end.

Definition set_type (register : RegisterInfo) (t : RegType) : RegisterInfo :=
  mkReg (name register) (width register) t (file register) (line register) (module register).

(** The body of the second loop: the assignment to [register.type]. *)
Definition classify (clockedSignals latchSignals : gset string) (register : RegisterInfo)
  : RegisterInfo :=
  if decide (name register ∈ clockedSignals) then set_type register flip_flop
  else if decide (name register ∈ latchSignals) then set_type register latch
  else set_type register flip_flop.

(** [refineRegisters(alwaysNodes, registers)] updates the elements of
    [registers] in place; the result is the array after the call. *)
Definition refineRegisters (alwaysNodes : list Syntax) (registers : list RegisterInfo)
  : list RegisterInfo :=
  let '(clockedSignals, latchSignals) := signal_sets alwaysNodes ∅ ∅ in
  map (classify clockedSignals latchSignals) registers.

Definition clockedSignals (alwaysNodes : list Syntax) : gset string :=
  fst (signal_sets alwaysNodes ∅ ∅).
Definition latchSignals (alwaysNodes : list Syntax) : gset string :=
  snd (signal_sets alwaysNodes ∅ ∅).

End Classify.

(** ** One file: [analyzeFile] *)

Module File.
Import Query Extract Classify.

(** [{ ...reg, file: filepath, module: moduleName }] *)
Definition owned (filepath moduleName : string) (reg : RegisterInfo) : RegisterInfo :=
  mkReg (name reg) (width reg) (type reg) filepath (line reg) moduleName.

(** [extractRegistersFromModule(moduleNode, filepath, moduleName, content)] *)
Definition extractRegistersFromModule
    (moduleNode : Syntax) (filepath moduleName content : string) : list RegisterInfo :=
  let dataDeclarations := findNodesByTag moduleNode "kDataDeclaration" in
  let fromData :=
    flat_map (fun dataDecl => map (owned filepath moduleName)
                                  (parseDataDeclaration dataDecl content))
             dataDeclarations in
  let fromPorts :=
    match findFirstNodeByTag moduleNode "kModuleHeader" with
    | Some moduleHeader =>
        flat_map (fun portDecl => map (owned filepath moduleName)
                                      (parsePortDeclaration portDecl content))
                 (findNodesByTag moduleHeader "kPortDeclaration")
    | None => []
    end in
  let potentialRegisters := fromData ++ fromPorts in
  let alwaysBlocks := findNodesByTag moduleNode "kAlwaysStatement" in
  refineRegisters alwaysBlocks potentialRegisters.

Fixpoint first_module_name (leaves : list SyntaxLeaf) : option string :=
  match leaves with
  | [] => None
  | leaf :: rest =>
      if is_identifier leaf && bool_decide (text leaf ≠ "module") then Some (text leaf)
      else first_module_name rest
  end.

(** [getModuleName(moduleNode)] *)
Definition getModuleName (moduleNode : Syntax) : option string :=
  match findFirstNodeByTag moduleNode "kModuleHeader" with
  | Some moduleHeader => first_module_name (getAllLeaves moduleHeader)
  | None => None
  end.

(** The loop over the module nodes. [if (moduleName)] is false for [null]
    and for the empty string. *)
Fixpoint modules_loop (moduleNodes : list Syntax) (filepath content : string)
  : list RegisterInfo * list ModuleInfo :=
  match moduleNodes with
  | [] => ([], [])
  | moduleNode :: rest =>
      let '(registers, modules) := modules_loop rest filepath content in
      let moduleLine := getLineNumberFromNode moduleNode content in
      match getModuleName moduleNode with
      | Some moduleName =>
          if decide (moduleName = "") then (registers, modules)
          else
            let moduleRegisters :=
              extractRegistersFromModule moduleNode filepath moduleName content in
            (moduleRegisters ++ registers,
             mkModule moduleName filepath moduleLine (length moduleRegisters) :: modules)
      | None => (registers, modules)
      end
  end.

(** What the collaborators answer for one path: the result of running
    the syntax tool with [--printtree], and the text of the file. *)
Record ExecResult : Type := mkExec { exitCode : Z; stdout : string; stderr : string }.
Record FileWorld : Type := mkWorld {
  executed : result ExecResult;
  contents : result string
}.

(** [analyzeFile(filepath)]: every exception is caught and gives the
    empty result. *)
Definition analyzeFile (w : FileWorld) (filepath : string)
  : list RegisterInfo * list ModuleInfo :=
  match executed w with
  | Thrown => ([], [])
  | Ok res =>
      if decide (exitCode res ≠ 0%Z) then ([], [])
      else
        match Parse.parseTreeStructure (stdout res) with
        | Thrown => ([], [])
        | Ok None => ([], [])
        | Ok (Some tree) =>
            match contents w with
            | Thrown => ([], [])
            | Ok content =>
                modules_loop (findNodesByTag tree "kModuleDeclaration") filepath content
            end
        end
  end.

End File.

(** ** The files of a run: [getFilesToAnalyze] *)

Module Listing.
Import Chars File.

(** [params.analysis_type] *)
Inductive AnalysisType : Type :=
| at_registers | at_modules | at_signals | at_all | at_module_detail | at_signal_trace.

(** [AnalyzeParams], the fields that are read. ([pattern] is copied to
    a local variable that is never used; [module_name] and
    [signal_name] are not read at all.) *)
Record AnalyzeParams : Type := mkParams {
  p_filepath : string;
  p_analysis_type : AnalysisType;
  p_recursive : bool
}.

(** What is under a path, as [fs.stat] and the entries of [fs.readdir]
    with [withFileTypes] tell it: a regular file; a directory, with what
    reading it answers, its entries by name or an exception; or
    something else (a link, a socket, a device), which is neither a file
    nor a directory. A link to a directory is an entry of the last kind
    and is not walked into, so what is walked is a finite tree. *)
Inductive Dirent : Type :=
| RegularFile
| Directory (entries : result (list (string * Dirent)))
| Special.

(** The collaborators of a run: [path.join]; [fs.stat], which throws
    when there is nothing under the path; and for every path what the
    syntax tool and [fs.readFile] answer. *)
Record World : Type := mkEnv {
  path_join : string → string → string;
  stat : string → result Dirent;
  answers : string → FileWorld
}.

(** [walk(dir)], for the directory [d] under [dir]: the files it pushes
    to [files], in order. It is called on directories only. An
    exception of [readdir], at any depth, ends the walk. *)
Fixpoint walk (join : string → string → string) (dir : string) (d : Dirent) {struct d}
  : result (list string) :=
  match d with
  | Directory (Ok entries) =>
      (fix loop (entries : list (string * Dirent)) : result (list string) :=
         match entries with
         | [] => Ok []
         | (entry_name, entry) :: rest =>
             let fullPath := join dir entry_name in
             found ←
               match entry with
               | Directory _ => walk join fullPath entry
               | RegularFile =>
                   Ok (if endsWith ".v" entry_name || endsWith ".sv" entry_name
                       then [fullPath] else [])
               | Special => Ok []
               end;
             more ← loop rest;
             Ok (found ++ more)
         end) entries
  | Directory Thrown => Thrown
  | RegularFile | Special => Ok []
  end.

(** [getFilesToAnalyze(params)] *)
Definition getFilesToAnalyze (env : World) (params : AnalyzeParams) : result (list string) :=
  if negb (p_recursive params) then Ok [p_filepath params]
  else
    stats ← stat env (p_filepath params);
    match stats with
    | Directory _ => walk (path_join env) (p_filepath params) stats
    | RegularFile | Special => Ok [p_filepath params]
    end.

End Listing.

(** ** Aggregation: [processResult] *)

Module Aggregate.
Import Number File Listing.

(** The key of [byType]: the string of the type. *)
Definition type_name (t : RegType) : string :=
  match t with
  | flip_flop => "flip_flop"
  | latch => "latch"
  | potential_register => "potential_register"
  end.

(** [byType] and [byModule] start as the object literal [{}], whose
    prototype is [Object.prototype]. A read [o[k]] gives the own property
    [k] when there is one, and otherwise, for the names below, what
    [Object.prototype] has under [k]: a function, or for [__proto__] the
    prototype object itself. All of these are truthy and none has a
    [push] method. *)
Definition object_prototype_keys : list string :=
  ["__defineGetter__"; "__defineSetter__"; "__lookupGetter__"; "__lookupSetter__";
   "__proto__"; "constructor"; "hasOwnProperty"; "isPrototypeOf";
   "propertyIsEnumerable"; "toLocaleString"; "toString"; "valueOf"].

Inductive property (V : Type) : Type :=
| Own (v : V)
| Inherited
| Undefined.
Arguments Own {V} v.
Arguments Inherited {V}.
Arguments Undefined {V}.

(** [o[k]], for the own properties [o]. *)
Definition get {V : Type} (o : gmap string V) (k : string) : property V :=
  match o !! k with
  | Some v => Own v
  | None => if bool_decide (k ∈ object_prototype_keys) then Inherited else Undefined
  end.

(** [AnalysisResult]; [modules] is optional. *)
Record AnalysisResult : Type := mkResult {
  registers : list RegisterInfo;
  totalRegisters : nat;
  byType : gmap string nat;
  byModule : gmap string (list RegisterInfo);
  totalBits : number;
  modules : option (list ModuleInfo)
}.

(** [ToolResult<AnalysisResult>]: [success] with [data], or the result of
    the [catch] clause. *)
Inductive ToolResult : Type :=
| Success (data : AnalysisResult)
| Failure.

(** The accumulators of the grouping loop. *)
Record groups : Type := mkAcc {
  g_byType : gmap string nat;
  g_byModule : gmap string (list RegisterInfo);
  g_totalBits : number
}.

(** The body of [for (const reg of allRegisters)]. The keys of [byType]
    are the three type names, none of which is inherited, and the counts
    are never zero, so [(byType[reg.type] || 0) + 1] is the own count, or
    zero, plus one. For [byModule] the key is the module name.
    [totalBits += reg.width] is an addition of doubles. *)
Definition group_step (g : groups) (reg : RegisterInfo) : result groups :=
  let byType := <[type_name (type reg) := default 0 (g_byType g !! type_name (type reg)) + 1]>
                  (g_byType g) in
  byModule ←
    match get (g_byModule g) (module reg) with
    | Own regs => Ok (<[module reg := regs ++ [reg]]> (g_byModule g))
    | Undefined => Ok (<[module reg := [reg]]> (g_byModule g))
    | Inherited => Thrown
    end;
  Ok (mkAcc byType byModule (add (g_totalBits g) (width reg))).

Fixpoint group (g : groups) (allRegisters : list RegisterInfo) : result groups :=
  match allRegisters with
  | [] => Ok g
  | reg :: rest => g' ← group_step g reg; group g' rest
  end.

(** The loop [for (const file of files)]: [allRegisters] and
    [allModules]. [files] pairs each path with what the collaborators
    answer for it. *)
Fixpoint collect (files : list (string * FileWorld)) : list RegisterInfo * list ModuleInfo :=
  match files with
  | [] => ([], [])
  | (filepath, w) :: rest =>
      let fileResult := analyzeFile w filepath in
      let '(allRegisters, allModules) := collect rest in
      (fileResult.1 ++ allRegisters, fileResult.2 ++ allModules)
  end.

(** The aggregation of the collected registers. *)
Definition aggregate (allRegisters : list RegisterInfo) (allModules : list ModuleInfo)
  : ToolResult :=
  match group (mkAcc ∅ ∅ (Finite 0)) allRegisters with
  | Ok g =>
      Success (mkResult allRegisters (length allRegisters) (g_byType g) (g_byModule g)
                        (g_totalBits g) (Some allModules))
  | Thrown => Failure
  end.

(** The [try] block of [processResult] after [getFilesToAnalyze] has
    returned [files]. *)
Definition processFiles (analysis_type : AnalysisType) (files : list (string * FileWorld))
  : ToolResult :=
  match analysis_type with
  | at_registers | at_all =>
      let '(allRegisters, allModules) := collect files in
      aggregate allRegisters allModules
  | _ => Success (mkResult [] 0 ∅ ∅ (Finite 0) None)
  end.

(** The files with what the collaborators answer for each. *)
Definition answered (env : World) (files : list string) : list (string * FileWorld) :=
  (fun file => (file, answers env file)) <$> files.

(** [processResult(result, params)]: an exception of
    [getFilesToAnalyze] is caught as any other. *)
Definition processResult (env : World) (params : AnalyzeParams) : ToolResult :=
  match getFilesToAnalyze env params with
  | Ok files => processFiles (p_analysis_type params) (answered env files)
  | Thrown => Failure
  end.

End Aggregate.

(** ** Invariants of the reconstruction *)

Module ParseInv.
Import Chars Number Line Parse.

(** The children of the cell [base + i] are leaves or cells allocated
    after it. *)
Definition heap_ok (base : nat) (h : list cell) : Prop :=
  ∀ i c j, h !! i = Some c → CNode j ∈ cell_children c →
           base + i < j ∧ j < base + length h.

(** Every reference held by the loop points into the store, and [root]
    is set whenever a node is open. *)
Record wf (st : state) : Prop := mkWf {
  wf_heap : heap_ok 0 (heap st);
  wf_stack : Forall (fun i => i < length (heap st)) (stack st);
  wf_root : ∀ r, root st = Some r → r < length (heap st);
  wf_open : stack st ≠ [] → is_Some (root st)
}.

(** The same store, with [k] more cells in front of it. *)
Definition shift_child (k : nat) (c : child) : child :=
  match c with
  | CNode j => CNode (k + j)
  | CLeaf l => CLeaf l
  end.

Definition shift_cell (k : nat) (c : cell) : cell :=
  mkCell (cell_tag c) (shift_child k <$> cell_children c).

Definition shift (k : nat) (h : list cell) : list cell := shift_cell k <$> h.

(** [st1] is [st2] running behind the garbage [G]. *)
Record sim (G : list cell) (st1 st2 : state) : Prop := mkSim {
  sim_heap : heap st1 = G ++ shift (length G) (heap st2);
  sim_root : root st1 = (fun r => length G + r) <$> root st2;
  sim_stack : stack st1 = (fun i => length G + i) <$> stack st2
}.

(** The length of the white space in front of a node or leaf line. *)
Definition indentation (line : string) : option nat :=
  match nodeMatch line with
  | Some (ws, _) => Some (String.length ws)
  | None =>
      match leafMatch line with
      | Some g => Some (String.length (g_ws g))
      | None => None
      end
  end.

(** A line that is ignored, or indented by one level at least. *)
Definition nested (line : string) : Prop :=
  match indentation line with
  | Some w => 2 ≤ w
  | None => True
  end.

#[global] Instance nested_dec line : Decision (nested line).
Proof. unfold nested. destruct (indentation line); apply _. Defined.

(** The first cell is the root, is open, and has the tag [tag]. *)
Record rooted (tag : string) (st : state) : Prop := mkRooted {
  rooted_root : root st = Some 0;
  rooted_tag : ∃ c, heap st !! 0 = Some c ∧ cell_tag c = tag;
  rooted_stack : last (stack st) = Some 0
}.

End ParseInv.

(** ** The views and kinds the specification names *)

Module Views.
Import Chars Number Query Extract Aggregate.
#[local] Open Scope Z_scope.

(** A tag that marks a number token: the letters [TK_] and what
    follows them. *)
Definition number_tag (t : string) : Prop := ∃ rest, t = "TK_" +:+ rest.

#[global] Instance number_tag_dec t : Decision (number_tag t).
Proof.
  destruct t as [|a [|b [|c rest]]]; try (right; intros [r H]; discriminate H).
  destruct (decide (a = "T"%char ∧ b = "K"%char ∧ c = "_"%char)) as [(-> & -> & ->)|Hn].
  - left. by exists rest.
  - right. intros [r H]. injection H as -> -> -> _. by apply Hn.
Defined.


(** A text that names a storage kind. *)
Definition kind_word (t : string) : Prop := t = "wire" ∨ t = "reg" ∨ t = "logic".

(** The storage kind as the specification words it: the text of the
    first leaf whose text is one of [wire], [reg] and [logic], and
    [wire] when there is none. *)
Definition storage_kind (decl : Syntax) : string :=
  default "wire" (text <$> head (filter (fun l => kind_word (text l)) (getAllLeaves decl))).

(** The views of a register list, as the specification words them. *)
Definition count_type (t : RegType) (regs : list RegisterInfo) : nat :=
  length (filter (fun r => type r = t) regs).

Definition of_module (m : string) (regs : list RegisterInfo) : list RegisterInfo :=
  filter (fun r => module r = m) regs.

(** The widths added up one after the other, as doubles. *)
Definition sum_widths (acc : number) (regs : list RegisterInfo) : number :=
  foldl (fun a r => add a (width r)) acc regs.

(** A width that is an integer of one at least, with its value; and the
    sum of such widths as integers. *)
Definition width_is (r : RegisterInfo) (z : Z) : Prop := width r = Finite z ∧ 1 ≤ z.

Definition bits (r : RegisterInfo) : Z :=
  match width r with
  | Finite z => z
  | _ => 0
  end.

Definition total_width (regs : list RegisterInfo) : Z :=
  foldr (fun r acc => bits r + acc) 0 regs.

(** A number that is 2^53 or more, an infinity there, or NaN: what a
    sum of widths stays once it has left the integers that a double
    counts one by one. *)
Definition big (a : number) : Prop :=
  match a with
  | NaN => True
  | Infinity s => s = false
  | Finite z => 2 ^ 53 ≤ z
  end.

(** A module name that an empty object literal already answers to. *)
Definition inherited (m : string) : Prop := m ∈ object_prototype_keys.

(** A name of a Verilog file: it ends with [.v] or with [.sv]. *)
Definition verilog_name (n : string) : Prop :=
  (∃ stem, n = stem +:+ ".v") ∨ (∃ stem, n = stem +:+ ".sv").

(** [listed join dir d f]: [f] is the path of a regular file with a
    Verilog name, in the directory [d] under the path [dir] or in a
    directory below it, as [join] makes the paths. *)
Inductive listed (join : string → string → string)
  : string → Listing.Dirent → string → Prop :=
| listed_here dir entries n :
    (n, Listing.RegularFile) ∈ entries → verilog_name n →
    listed join dir (Listing.Directory (Ok entries)) (join dir n)
| listed_below dir entries n sub f :
    (n, Listing.Directory sub) ∈ entries →
    listed join (join dir n) (Listing.Directory sub) f →
    listed join dir (Listing.Directory (Ok entries)) f.

(** A directory that cannot be read, at any depth under [d]. *)
Fixpoint unreadable (d : Listing.Dirent) : Prop :=
  match d with
  | Listing.Directory (Ok entries) =>
      (fix any (entries : list (string * Listing.Dirent)) : Prop :=
         match entries with
         | [] => False
         | (_, entry) :: rest => unreadable entry ∨ any rest
         end) entries
  | Listing.Directory Thrown => True
  | Listing.RegularFile | Listing.Special => False
  end.

End Views.

(** ** Sample trees *)

Module Samples.
Import Chars Number.

(** A packed dimension as the parser leaves it: the brackets and the
    colon have tags that are not words and are not read. *)
Definition range (msb lsb : string) : Syntax :=
  Node "kPackedDimensions"
    [Node "kDeclarationDimensions"
       [Node "kDimensionRange"
          [Node "kExpression" [Leaf (mkLeaf "TK_DecNumber" (Finite 5) (Finite 6) msb)];
           Node "kExpression" [Leaf (mkLeaf "TK_DecNumber" (Finite 7) (Finite 8) lsb)]]]].

(** Leaves and blocks as the parser builds them. *)
Definition ident (txt : string) : Syntax :=
  Leaf (mkLeaf "SymbolIdentifier" (Finite 0) (Finite 1) txt).

Definition keyword (txt : string) : Syntax :=
  Leaf (mkLeaf txt (Finite 0) (Finite 1) txt).




(** [always @(posedge clk) q <= d;] *)
Definition always_ff : Syntax :=
  Node "kAlwaysStatement"
    [keyword "always";
     Node "kProceduralTimingControlStatement"
       [Node "kEventControl"
          [Node "kEventExpressionList"
             [Node "kEventExpression" [keyword "posedge"; ident "clk"]]];
        Node "kNonblockingAssignmentStatement"
          [Node "kLPValue" [ident "q"]; Node "kExpression" [ident "d"]]]].

(** [always @* q = d;] *)
Definition always_star : Syntax :=
  Node "kAlwaysStatement"
    [keyword "always";
     Node "kProceduralTimingControlStatement"
       [Node "kEventControl" [];
        Node "kNetVariableAssignment"
          [Node "kLPValue" [ident "q"]; Node "kExpression" [ident "d"]]]].

(** [always @* l = d;] *)
Definition always_latch : Syntax :=
  Node "kAlwaysStatement"
    [keyword "always";
     Node "kProceduralTimingControlStatement"
       [Node "kEventControl" [];
        Node "kNetVariableAssignment"
          [Node "kLPValue" [ident "l"]; Node "kExpression" [ident "d"]]]].

Definition reg_named (n : string) : RegisterInfo :=
  mkReg n (Finite 1) potential_register "top.v" 2 "top".

(** [reg [7:0] a, b;] *)
Definition data_decl : Syntax :=
  Node "kDataDeclaration"
    [Node "kInstantiationBase"
       [Node "kInstantiationType"
          [Node "kDataType" [Node "kDataTypePrimitive" [keyword "reg"]; range "7" "0"]];
        Node "kGateInstanceRegisterVariableList"
          [Node "kRegisterVariable" [ident "a"];
           Node "kRegisterVariable" [ident "b"]]]].

(** [var logic [3:0] y;] *)
Definition var_decl : Syntax :=
  Node "kDataDeclaration"
    [keyword "var";
     Node "kInstantiationBase"
       [Node "kInstantiationType"
          [Node "kDataType" [Node "kDataTypePrimitive" [keyword "logic"]; range "3" "0"]];
        Node "kGateInstanceRegisterVariableList"
          [Node "kRegisterVariable" [ident "y"]]]].

(** [output reg [7:0] q] *)
Definition port_decl : Syntax :=
  Node "kPortDeclaration"
    [keyword "output";
     Node "kDataType" [Node "kDataTypePrimitive" [keyword "reg"]; range "7" "0"];
     Node "kUnqualifiedId" [ident "q"]].

(** The text of a dump, line by line, as [--printtree] prints it. *)
Fixpoint spaces (n : nat) : string :=
  match n with
  | 0 => ""
  | S n' => " " +:+ spaces n'
  end.

Definition node_text (depth : nat) (tag : string) : string :=
  spaces (2 * depth) +:+ "Node @0 (tag: " +:+ tag +:+ ") {".

Definition leaf_text (depth : nat) (tag from to txt : string) : string :=
  spaces (2 * depth) +:+ "Leaf @0 (#" +:+ tag +:+ " @" +:+ from +:+ "-" +:+ to
  +:+ ": " +:+ dq +:+ txt +:+ dq +:+ ")".

Definition close_text (depth : nat) : string := spaces (2 * depth) +:+ "}".

Fixpoint unlines (ls : list string) : string :=
  match ls with
  | [] => ""
  | [l] => l
  | l :: rest => l +:+ nl +:+ unlines rest
  end.

(** The dump of a file with the one module [name], a name of eleven
    letters, which declares [reg q;] on its second line. *)
Definition module_dump (name : string) : list string :=
  ["Parse Tree:";
   node_text 0 "kDescriptionList";
   node_text 1 "kModuleDeclaration";
   node_text 2 "kModuleHeader";
   leaf_text 3 (dq +:+ "module" +:+ dq) "0" "6" "module";
   leaf_text 3 "SymbolIdentifier" "7" "18" name;
   leaf_text 3 "';'" "18" "19" ";";
   close_text 2;
   node_text 2 "kModuleItemList";
   node_text 3 "kDataDeclaration";
   node_text 4 "kInstantiationBase";
   node_text 5 "kInstantiationType";
   node_text 6 "kDataType";
   node_text 7 "kDataTypePrimitive";
   leaf_text 8 (dq +:+ "reg" +:+ dq) "22" "25" "reg";
   close_text 7; close_text 6; close_text 5;
   node_text 5 "kGateInstanceRegisterVariableList";
   node_text 6 "kRegisterVariable";
   leaf_text 7 "SymbolIdentifier" "26" "27" "q";
   close_text 6; close_text 5; close_text 4;
   leaf_text 4 "';'" "27" "28" ";";
   close_text 3; close_text 2;
   leaf_text 2 (dq +:+ "endmodule" +:+ dq) "29" "38" "endmodule";
   close_text 1; close_text 0].

Definition module_source (name : string) : string :=
  unlines ["module " +:+ name +:+ ";"; "  reg q;"; "endmodule"; ""].

Definition module_world (name : string) : File.FileWorld :=
  File.mkWorld (Ok (File.mkExec 0 (unlines (module_dump name)) ""))
               (Ok (module_source name)).


(** A register of the given width, as [reg [width-1:0] name;] in the
    module [top] gives it. *)
Definition wide (n : string) (w : Z) : RegisterInfo :=
  mkReg n (Finite w) flip_flop "top.v" 2 "top".

(** A run on the one file [top.v], which holds the module [name]. *)
Definition module_env (name : string) : Listing.World :=
  Listing.mkEnv (fun dir entry => dir +:+ "/" +:+ entry)
                (fun _ => Ok Listing.RegularFile)
                (fun _ => module_world name).

Definition top_v : Listing.AnalyzeParams :=
  Listing.mkParams "top.v" Listing.at_all false.

(** A run on the directory [rtl], which holds [top.v] with the module
    [name], a file that is not Verilog, and a directory that cannot be
    read. *)
Definition locked_env (name : string) : Listing.World :=
  Listing.mkEnv (fun dir entry => dir +:+ "/" +:+ entry)
                (fun _ => Ok (Listing.Directory
                                (Ok [("top.v", Listing.RegularFile);
                                     ("notes.txt", Listing.RegularFile);
                                     ("private", Listing.Directory Thrown)])))
                (fun _ => module_world name).

(** The same directory, with [private] readable: it holds [alu.sv], a
    backup of it, and a link. *)
Definition rtl_entries : result (list (string * Listing.Dirent)) :=
  Ok [("top.v", Listing.RegularFile);
      ("notes.txt", Listing.RegularFile);
      ("private", Listing.Directory
                    (Ok [("alu.sv", Listing.RegularFile);
                         ("alu.sv.orig", Listing.RegularFile);
                         ("latest.v", Listing.Special)]))].

Definition open_env (name : string) : Listing.World :=
  Listing.mkEnv (fun dir entry => dir +:+ "/" +:+ entry)
                (fun _ => Ok (Listing.Directory rtl_entries))
                (fun _ => module_world name).

Definition rtl_dir (recursive : bool) : Listing.AnalyzeParams :=
  Listing.mkParams "rtl" Listing.at_modules recursive.

(** Two trees at the top level, one after the other. *)
Definition two_roots : list string :=
  [node_text 0 "A"; node_text 1 "B"; close_text 1; close_text 0;
   node_text 0 "C"; node_text 1 "D"; close_text 1; close_text 0].

End Samples.

(** ** The shape of what the reconstruction reads *)

Module Shape.
Import Chars Number Line Parse Query.
#[local] Open Scope nat_scope.

(** Every character of [s] satisfies [p]. *)
Fixpoint all_chars (p : ascii → bool) (s : string) : bool :=
  match s with
  | EmptyString => true
  | String c s' => p c && all_chars p s'
  end.



(** What a line is read as: a node line with the length of its white
    space and its tag, a leaf line with the length of its white space
    and its leaf, or nothing. *)
Inductive event : Type :=
| ENode (w : nat) (tag : string)
| ELeaf (w : nat) (l : SyntaxLeaf).

Definition read (line : string) : option event :=
  match nodeMatch line with
  | Some (ws, tag) => Some (ENode (String.length ws) tag)
  | None =>
      match leafMatch line with
      | Some g =>
          Some (ELeaf (String.length (g_ws g))
                      (mkLeaf (g_tag g) (parseInt (g_start g)) (parseInt (g_end g))
                              (g_text g)))
      | None => None
      end
  end.

(** [node_line] and [leaf_line] use the white space of a line through
    its length only; these are the same steps, given the length. *)
Definition node_at (st : state) (w : nat) (tag : string) : result state :=
  let id := length (heap st) in
  let h := heap st ++ [mkCell tag []] in
  let stk := pop_to w (stack st) in
  match stk with
  | [] => Ok (mkState h (Some id) [id])
  | parent :: _ =>
      h' ← push_child h parent (CNode id);
      Ok (mkState h' (root st) (id :: stk))
  end.

Definition leaf_at (st : state) (w : nat) (leaf : SyntaxLeaf) : result state :=
  let stk := pop_to w (stack st) in
  match stk with
  | [] => Ok (mkState (heap st) (root st) [])
  | parent :: _ =>
      h' ← push_child (heap st) parent (CLeaf leaf);
      Ok (mkState h' (root st) stk)
  end.

Definition on_event (st : state) (ev : event) : result state :=
  match ev with
  | ENode w tag => node_at st w tag
  | ELeaf w l => leaf_at st w l
  end.

Fixpoint run_events (st : state) (evs : list event) : result state :=
  match evs with
  | [] => Ok st
  | ev :: rest => st' ← on_event st ev; run_events st' rest
  end.

(** The lines of a tree printed in pre-order, two spaces for each level
    of depth, as they are read. *)
Fixpoint preorder (depth : nat) (t : Syntax) : list event :=
  match t with
  | Leaf l => [ELeaf (2 * depth) l]
  | Node tag cs => ENode (2 * depth) tag :: flat_map (preorder (S depth)) cs
  end.

(** Two lists related element by element. *)
Definition all2 {A B : Type} (R : A → B → Prop) : list A → list B → Prop :=
  fix go (xs : list A) (ys : list B) : Prop :=
    match xs, ys with
    | [], [] => True
    | x :: xs', y :: ys' => R x y ∧ go xs' ys'
    | _, _ => False
    end.

(** The reference [c] is the tree [t] in the store [h], in cells from
    [lo] on. *)
Fixpoint repr (h : list cell) (t : Syntax) (lo : nat) (c : child) {struct t} : Prop :=
  match t with
  | Leaf l => c = CLeaf l
  | Node tag ts =>
      ∃ j cl, c = CNode j ∧ lo ≤ j ∧ h !! j = Some cl ∧ cell_tag cl = tag
              ∧ all2 (fun t' c' => repr h t' (S j) c') ts (cell_children cl)
  end.


(** Reading the lines of [t], printed at the depth of the stack below an
    open node [p], appends one reference to the children of [p]: the
    tree [t], in new cells; the cells there were are left as they are. *)
Definition reads_subtree (t : Syntax) : Prop :=
  ∀ st extra p B cl,
    stack st = extra ++ p :: B → heap st !! p = Some cl →
    ∃ st' c extra',
      run_events st (preorder (length (p :: B)) t) = Ok st'
      ∧ stack st' = extra' ++ p :: B
      ∧ root st' = root st
      ∧ length (heap st) ≤ length (heap st')
      ∧ (∀ i, i < length (heap st) → i ≠ p → heap st' !! i = heap st !! i)
      ∧ heap st' !! p = Some (mkCell (cell_tag cl) (cell_children cl ++ [c]))
      ∧ repr (heap st') t (length (heap st)) c.

(** What every register of an analysed file satisfies: it has the path
    of the file, a module name that is not empty, a width that is not a
    number below one, a line of one at least, and a final type. *)
Record reg_ok (filepath : string) (r : RegisterInfo) : Prop := mkRegOk {
  ok_file : file r = filepath;
  ok_module : module r ≠ "";
  ok_width : below_one (width r) = false;
  ok_line : 1 ≤ line r;
  ok_type : type r = flip_flop ∨ type r = latch
}.

(** The sum of the register counts of the modules. *)
Definition count_sum (mods : list ModuleInfo) : nat :=
  foldr (fun m acc => registerCount m + acc) 0 mods.

(** The tag of every cell satisfies [Q]. *)
Definition cells_tags (Q : string → Prop) (h : list cell) : Prop :=
  ∀ i c, h !! i = Some c → Q (cell_tag c).

(** A port declaration, as its loop leaves it: whether a leaf reads
    [output], and the last leaf that is a type keyword, [wire] when
    there is none. *)
Definition has_output (leaves : list SyntaxLeaf) : bool :=
  existsb (fun l => bool_decide (text l = "output")) leaves.

Definition last_type (leaves : list SyntaxLeaf) : string :=
  default "wire" (last (filter Views.kind_word (text <$> leaves))).

(** The line feeds of a whole text. *)
Definition line_feeds (content : string) : nat :=
  Extract.newlines content (String.length content).

End Shape.

(** ** More sample inputs *)

Module Inputs.
Import Chars Samples.

Definition leaf_of (tag from to txt : string) : Syntax :=
  Leaf (mkLeaf tag (Number.parseInt from) (Number.parseInt to) txt).

(** [reg q;] as the tree of its lines in [module_dump]. *)
Definition data_decl_q : Syntax :=
  Node "kDataDeclaration"
    [Node "kInstantiationBase"
       [Node "kInstantiationType"
          [Node "kDataType"
             [Node "kDataTypePrimitive" [leaf_of "reg" "22" "25" "reg"]]];
        Node "kGateInstanceRegisterVariableList"
          [Node "kRegisterVariable" [leaf_of "SymbolIdentifier" "26" "27" "q"]]]].

(** The module declaration of [module_dump name]. *)
Definition module_decl (name : string) : Syntax :=
  Node "kModuleDeclaration"
    [Node "kModuleHeader"
       [leaf_of "module" "0" "6" "module";
        leaf_of "SymbolIdentifier" "7" "18" name];
     Node "kModuleItemList" [data_decl_q];
     leaf_of "endmodule" "29" "38" "endmodule"].

(** The tree of [module_dump name]. *)
Definition module_tree (name : string) : Syntax :=
  Node "kDescriptionList" [module_decl name].

(** The dump without the lines that match neither pattern. *)
Definition module_dump_matched (name : string) : list string :=
  List.filter (fun l => bool_decide (is_Some (Shape.read l))) (module_dump name).

Definition one_file : list (string * File.FileWorld) :=
  [("top.v", module_world "accumulator")].

End Inputs.

(** * Properties *)

(** ** The reconstruction never throws *)

Module ParseFacts.
Import Chars Number Line Parse ParseInv.

Lemma wf_init : wf init.
Proof.
  split; simpl.
  - intros i c j H; by rewrite lookup_nil in H.
  - constructor.
  - intros r H; discriminate.
  - intros H; congruence.
Qed.

Lemma pop_to_suffix w s : ∃ k, pop_to w s = drop k s.
Proof.
  induction s as [|a s IH]; simpl.
  - by exists 0.
  - destruct (w <? S (length s + S (length s + 0))).
    + destruct IH as [k Hk]. exists (S k). by rewrite Hk.
    + by exists 0.
Qed.

Lemma pop_to_Forall (P : nat → Prop) w s : Forall P s → Forall P (pop_to w s).
Proof.
  intros H. destruct (pop_to_suffix w s) as [k ->]. by apply Forall_drop.
Qed.

(** The loop pops while the stack is longer than the indentation: it
    leaves the whole part of the indentation, at most. *)
Lemma pop_to_length w s : length (pop_to w s) = length s `min` (w / 2).
Proof.
  pose proof (Nat.div_mod_eq w 2) as Hdiv.
  pose proof (Nat.mod_upper_bound w 2) as Hmod.
  induction s as [|a s IH]; [done|].
  cbn [pop_to]. destruct (Nat.ltb_spec w (2 * length (a :: s))) as [Hlt|Hge].
  - rewrite IH. cbn [length] in *. lia.
  - cbn [length] in *. lia.
Qed.

(** A line indented at least as deep as the stack pops nothing. *)
Lemma pop_to_deep w s : 2 * length s ≤ w → pop_to w s = s.
Proof.
  destruct s as [|a s]; [done|]. intros H. cbn [pop_to].
  destruct (Nat.ltb_spec w (2 * length (a :: s))); [lia | done].
Qed.

Lemma pop_to_fmap (f : nat → nat) w s : pop_to w (f <$> s) = f <$> pop_to w s.
Proof.
  induction s as [|a s IH]; [done|].
  change (f <$> a :: s) with (f a :: (f <$> s)).
  cbn [pop_to length]. rewrite length_fmap, IH.
  by destruct (w <? 2 * S (length s)).
Qed.

Lemma push_child_ok h p c :
  p < length h → ∃ cl, h !! p = Some cl ∧
    push_child h p c = Ok (<[p := mkCell (cell_tag cl) (cell_children cl ++ [c])]> h).
Proof.
  intros Hp. destruct (lookup_lt_is_Some_2 h p Hp) as [cl Hcl].
  exists cl. split; [done|]. unfold push_child. by rewrite Hcl.
Qed.

Lemma heap_ok_alloc h tag : heap_ok 0 h → heap_ok 0 (h ++ [mkCell tag []]).
Proof.
  intros H i c j Hi Hj. rewrite length_app. simpl.
  destruct (decide (i < length h)) as [Hlt|Hge].
  - rewrite lookup_app_l in Hi by done. destruct (H i c j Hi Hj). lia.
  - rewrite lookup_app_r in Hi by lia.
    destruct (i - length h) eqn:E; simpl in Hi; [|by rewrite lookup_nil in Hi].
    simplify_eq. simpl in Hj. by apply elem_of_nil in Hj.
Qed.

Lemma heap_ok_push h p cl c :
  heap_ok 0 h → h !! p = Some cl →
  (∀ j, c = CNode j → p < j ∧ j < length h) →
  heap_ok 0 (<[p := mkCell (cell_tag cl) (cell_children cl ++ [c])]> h).
Proof.
  intros H Hp Hc i c' j Hi Hj. rewrite length_insert.
  destruct (decide (i = p)) as [->|Hne].
  - rewrite list_lookup_insert_eq in Hi by (by eapply lookup_lt_Some).
    simplify_eq. simpl in Hj. apply elem_of_app in Hj as [Hj|Hj].
    + by apply (H p cl j).
    + apply list_elem_of_singleton in Hj. simpl. by apply Hc.
  - rewrite list_lookup_insert_ne in Hi by done. by apply (H i c' j).
Qed.

Lemma node_line_ok st ws tag :
  wf st → ∃ st', node_line st ws tag = Ok st' ∧ wf st'.
Proof.
  intros [Hh Hs Hr Ho]. unfold node_line.
  pose proof (pop_to_Forall _ (String.length ws) _ Hs) as Hpop.
  destruct (pop_to (String.length ws) (stack st)) as [|p stk] eqn:E.
  - eexists; split; [done|]. split; simpl.
    + by apply heap_ok_alloc.
    + constructor; [|constructor]. rewrite length_app; simpl; lia.
    + intros r [= <-]. rewrite length_app; simpl; lia.
    + intros _. by eexists.
  - assert (Hp : p < length (heap st)) by (by inversion Hpop).
    assert (Hne : stack st ≠ []).
    { intros Hnil. rewrite Hnil in E. discriminate. }
    destruct (push_child_ok (heap st ++ [mkCell tag []]) p (CNode (length (heap st))))
      as (cl & Hcl & ->).
    { rewrite length_app; simpl; lia. }
    simpl. eexists; split; [done|]. split; simpl.
    + apply heap_ok_push; [by apply heap_ok_alloc | done |].
      intros j [= <-]. rewrite length_app; simpl; lia.
    + rewrite length_insert, length_app; simpl. constructor; [lia|].
      eapply Forall_impl; [exact Hpop|]. simpl; intros; lia.
    + intros r Hroot. rewrite length_insert, length_app; simpl.
      specialize (Hr r Hroot). lia.
    + intros _. by apply Ho.
Qed.

Lemma leaf_line_ok st g :
  wf st → ∃ st', leaf_line st g = Ok st' ∧ wf st'.
Proof.
  intros [Hh Hs Hr Ho]. unfold leaf_line.
  pose proof (pop_to_Forall _ (String.length (g_ws g)) _ Hs) as Hpop.
  destruct (pop_to (String.length (g_ws g)) (stack st)) as [|p stk] eqn:E.
  - eexists; split; [done|]. by split.
  - assert (Hp : p < length (heap st)) by (by inversion Hpop).
    assert (Hne : stack st ≠ []).
    { intros Hnil. rewrite Hnil in E. discriminate. }
    destruct (push_child_ok (heap st) p
                (CLeaf (mkLeaf (g_tag g) (parseInt (g_start g)) (parseInt (g_end g)) (g_text g))) Hp)
      as (cl & Hcl & ->).
    simpl. eexists; split; [done|]. split; simpl.
    + apply heap_ok_push; [done | done |]. intros j [=].
    + by rewrite length_insert.
    + intros r Hroot. rewrite length_insert. by apply Hr.
    + intros _. by apply Ho.
Qed.

Lemma step_ok st line : wf st → ∃ st', step st line = Ok st' ∧ wf st'.
Proof.
  intros Hwf. unfold step.
  destruct (nodeMatch line) as [[ws tag]|]; [by apply node_line_ok|].
  destruct (leafMatch line) as [g|]; [by apply leaf_line_ok|].
  by exists st.
Qed.

Lemma run_ok lines : ∀ st, wf st → ∃ st', run st lines = Ok st' ∧ wf st'.
Proof.
  induction lines as [|line rest IH]; intros st Hwf.
  - by exists st.
  - destruct (step_ok st line Hwf) as (st1 & Hstep & Hwf1).
    destruct (IH st1 Hwf1) as (st' & Hrun & Hwf').
    exists st'. split; [|done]. simpl. rewrite Hstep. exact Hrun.
Qed.

(** *** Reading the store back *)

Lemma build_length b h : length (build b h) = length h.
Proof.
  revert b; induction h as [|c h IH]; intros b; [done|].
  simpl. by rewrite IH.
Qed.

Lemma heap_ok_tail b c h : heap_ok b (c :: h) → heap_ok (S b) h.
Proof.
  intros H i c' j Hi Hj. destruct (H (S i) c' j Hi Hj). simpl in *. lia.
Qed.

Lemma build_total h : ∀ b, heap_ok b h →
  ∀ i, i < length h → ∃ t, build b h !! i = Some (Some t).
Proof.
  induction h as [|c h IH]; intros b Hok i Hi; [simpl in Hi; lia|].
  pose proof (heap_ok_tail _ _ _ Hok) as Hok'.
  destruct i as [|i]; [|simpl in *; apply (IH (S b) Hok' i); lia].
  cbn [build lookup list_lookup].
  destruct (mapM_is_Some_2 (resolve b (build (S b) h)) (cell_children c)) as [ts Hts].
  - apply Forall_forall. intros [j|l] Hin; [|by eexists].
    destruct (Hok 0 c j eq_refl Hin) as [H1 H2]. simpl in H1, H2.
    unfold compose, resolve. destruct (decide (b < j)); [|lia].
    destruct (IH (S b) Hok' (j - S b)) as [t Ht]; [lia|].
    rewrite Ht. by eexists.
  - rewrite Hts. by eexists.
Qed.

(** The tree of a cell carries the tag of the cell. *)
Lemma build_tag b h i c t :
  h !! i = Some c → build b h !! i = Some (Some t) →
  ∃ cs, t = Node (cell_tag c) cs.
Proof.
  revert b i. induction h as [|c' h IH]; intros b i Hi Ht.
  - by rewrite lookup_nil in Hi.
  - destruct i as [|i]; simpl in *.
    + simplify_eq. destruct (mapM _ _); simplify_eq/=. by eexists.
    + by eapply IH.
Qed.

Lemma reify_ok st : wf st →
  (root st = None ∧ reify st = Ok None)
  ∨ (∃ r c t, root st = Some r ∧ heap st !! r = Some c
              ∧ build 0 (heap st) !! r = Some (Some t)
              ∧ reify st = Ok (Some t)).
Proof.
  intros [Hh Hs Hr Ho]. unfold reify.
  destruct (root st) as [r|] eqn:E; [right | by left].
  specialize (Hr r eq_refl).
  destruct (build_total _ 0 Hh r Hr) as [t Ht].
  destruct (lookup_lt_is_Some_2 _ _ Hr) as [c Hc].
  exists r, c, t. by rewrite Ht.
Qed.

(** Every dump is read back to [null] or to a tree. *)
Lemma parseLines_total lines : ∃ r, parseLines lines = Ok r.
Proof.
  unfold parseLines.
  destruct (run_ok lines init wf_init) as (st & -> & Hwf). simpl.
  destruct (reify_ok st Hwf) as [[_ ->]|(r & c & t & _ & _ & _ & ->)]; by eexists.
Qed.

(** *** When there is a root *)

Lemma node_line_root st ws tag st' :
  wf st → node_line st ws tag = Ok st' → is_Some (root st').
Proof.
  intros Hwf. unfold node_line.
  destruct (pop_to (String.length ws) (stack st)) as [|p stk] eqn:E.
  - intros [= <-]. by eexists.
  - destruct (push_child _ _ _); simpl; [|done]. intros [= <-]. simpl.
    apply (wf_open _ Hwf). intros Hnil. rewrite Hnil in E. discriminate.
Qed.

Lemma leaf_line_root st g st' : leaf_line st g = Ok st' → root st' = root st.
Proof.
  unfold leaf_line. destruct (pop_to _ _); [by intros [= <-]|].
  destruct (push_child _ _ _); simpl; [|done]. by intros [= <-].
Qed.

Lemma step_root_mono st line st' :
  wf st → step st line = Ok st' → is_Some (root st) → is_Some (root st').
Proof.
  intros Hwf. unfold step.
  destruct (nodeMatch line) as [[ws tag]|].
  - intros H _. by eapply node_line_root.
  - destruct (leafMatch line) as [g|].
    + intros H. by rewrite (leaf_line_root _ _ _ H).
    + by intros [= <-].
Qed.



(** *** A new root forgets the cells allocated before it *)

Lemma push_child_inv h p c h' :
  push_child h p c = Ok h' →
  ∃ cl, h !! p = Some cl ∧ h' = <[p := mkCell (cell_tag cl) (cell_children cl ++ [c])]> h.
Proof.
  unfold push_child. destruct (h !! p) as [cl|]; [|done].
  intros [= <-]. by exists cl.
Qed.

Lemma push_child_shift G h p c h' :
  push_child h p c = Ok h' →
  push_child (G ++ shift (length G) h) (length G + p) (shift_child (length G) c)
  = Ok (G ++ shift (length G) h').
Proof.
  intros (cl & Hcl & ->)%push_child_inv. unfold push_child.
  rewrite lookup_app_r by lia.
  replace (length G + p - length G) with p by lia.
  unfold shift at 1. rewrite list_lookup_fmap, Hcl. simpl.
  f_equal. rewrite insert_app_r. f_equal.
  unfold shift. rewrite list_fmap_insert. f_equal.
  unfold shift_cell. simpl. by rewrite fmap_app.
Qed.

Lemma sim_length G st1 st2 :
  sim G st1 st2 → length (heap st1) = length G + length (heap st2).
Proof.
  intros [-> _ _]. unfold shift. by rewrite length_app, length_fmap.
Qed.

Lemma node_line_sim G st1 st2 ws tag st2' :
  sim G st1 st2 → node_line st2 ws tag = Ok st2' →
  ∃ st1', node_line st1 ws tag = Ok st1' ∧ sim G st1' st2'.
Proof.
  intros Hsim. pose proof (sim_length _ _ _ Hsim) as Hlen.
  destruct Hsim as [Hh Hr Hs]. unfold node_line.
  rewrite Hs, pop_to_fmap, Hlen.
  assert (Halloc : heap st1 ++ [mkCell tag []]
                   = G ++ shift (length G) (heap st2 ++ [mkCell tag []])).
  { rewrite Hh. unfold shift. by rewrite fmap_app, <- app_assoc. }
  destruct (pop_to (String.length ws) (stack st2)) as [|p stk]; simpl.
  - intros [= <-]. eexists; split; [done|]. by split.
  - destruct (push_child (heap st2 ++ _) p _) as [h2|] eqn:E; simpl; [|done].
    intros [= <-]. rewrite Halloc.
    pose proof (push_child_shift G _ p (CNode (length (heap st2))) h2 E) as Hp.
    simpl in Hp. rewrite Hp. simpl.
    eexists; split; [done|]. by split.
Qed.

Lemma leaf_line_sim G st1 st2 g st2' :
  sim G st1 st2 → leaf_line st2 g = Ok st2' →
  ∃ st1', leaf_line st1 g = Ok st1' ∧ sim G st1' st2'.
Proof.
  intros [Hh Hr Hs]. unfold leaf_line. rewrite Hs, pop_to_fmap.
  destruct (pop_to (String.length (g_ws g)) (stack st2)) as [|p stk]; simpl.
  - intros [= <-]. eexists; split; [done|]. by split.
  - destruct (push_child (heap st2) p _) as [h2|] eqn:E; simpl; [|done].
    intros [= <-]. rewrite Hh.
    pose proof (push_child_shift G _ p (CLeaf _) h2 E) as Hp.
    simpl in Hp. rewrite Hp. simpl.
    eexists; split; [done|]. by split.
Qed.

Lemma step_sim G st1 st2 line st2' :
  sim G st1 st2 → step st2 line = Ok st2' →
  ∃ st1', step st1 line = Ok st1' ∧ sim G st1' st2'.
Proof.
  intros Hsim. unfold step.
  destruct (nodeMatch line) as [[ws tag]|]; [by apply node_line_sim|].
  destruct (leafMatch line) as [g|]; [by apply leaf_line_sim|].
  intros [= <-]. by exists st1.
Qed.

Lemma run_sim G lines : ∀ st1 st2 st2',
  sim G st1 st2 → run st2 lines = Ok st2' →
  ∃ st1', run st1 lines = Ok st1' ∧ sim G st1' st2'.
Proof.
  induction lines as [|line rest IH]; intros st1 st2 st2' Hsim Hrun; simpl in *.
  - simplify_eq. by exists st1.
  - destruct (step st2 line) as [st2a|] eqn:E; simpl in Hrun; [|done].
    destruct (step_sim _ _ _ _ _ Hsim E) as (st1a & -> & Hsim'). simpl.
    by eapply IH.
Qed.

Lemma build_app G : ∀ b h,
  ∃ X, length X = length G ∧ build b (G ++ h) = X ++ build (length G + b) h.
Proof.
  induction G as [|c G IH]; intros b h.
  - by exists [].
  - destruct (IH (S b) h) as (X & HX & Heq). simpl. rewrite Heq.
    eexists (_ :: X). split; [simpl; by rewrite HX|].
    simpl. do 3 f_equal. lia.
Qed.

Lemma mapM_fmap_compose {A B C} (f : B → option C) (g : A → B) (l : list A) :
  mapM f (g <$> l) = mapM (f ∘ g) l.
Proof.
  induction l as [|x l IH]; [done|]. csimpl.
  apply option_bind_ext; [|done]. intros y. f_equal. exact IH.
Qed.

Lemma resolve_shift k b ts c :
  resolve (k + b) ts (shift_child k c) = resolve b ts c.
Proof.
  destruct c as [j|l]; [|done]. simpl.
  replace (k + j - S (k + b)) with (j - S b) by lia.
  destruct (decide (k + b < k + j)), (decide (b < j)); try done; lia.
Qed.

Lemma build_shift k h : ∀ b, build (k + b) (shift k h) = build b h.
Proof.
  induction h as [|c h IH]; intros b; [done|].
  change (shift k (c :: h)) with (shift_cell k c :: shift k h).
  cbn [build shift_cell cell_tag cell_children].
  replace (S (k + b)) with (k + S b) by lia. rewrite IH.
  rewrite mapM_fmap_compose.
  rewrite (mapM_ext _ (resolve b (build (S b) h))); [done|].
  intros x. apply resolve_shift.
Qed.

Lemma reify_sim G st1 st2 : sim G st1 st2 → reify st1 = reify st2.
Proof.
  intros [Hh Hr Hs]. unfold reify. rewrite Hr, Hh.
  destruct (root st2) as [r|]; [|done]. simpl.
  destruct (build_app G 0 (shift (length G) (heap st2))) as (X & HX & ->).
  rewrite lookup_app_r by lia.
  replace (length G + r - length X) with r by lia.
  by rewrite build_shift.
Qed.

Lemma run_app l1 l2 st :
  run st (l1 ++ l2) = (st' ← run st l1; run st' l2).
Proof.
  revert st; induction l1 as [|x l1 IH]; intros st; [done|].
  simpl. destruct (step st x); simpl; [apply IH | done].
Qed.

(** A node line that finds the stack empty, after its pops, starts the
    result afresh: what was read before it has no effect on the tree
    that is returned. *)
Lemma parseLines_new_root pre l post st ws tag :
  run init pre = Ok st → nodeMatch l = Some (ws, tag) →
  pop_to (String.length ws) (stack st) = [] →
  parseLines (pre ++ l :: post) = parseLines (l :: post).
Proof.
  intros Hpre Hl Hpop. unfold parseLines.
  rewrite run_app, Hpre. simpl. unfold step. rewrite Hl.
  unfold node_line. rewrite Hpop. simpl.
  set (st1 := mkState (heap st ++ [mkCell tag []]) (Some (length (heap st))) [length (heap st)]).
  set (st2 := mkState [mkCell tag []] (Some 0) [0]).
  assert (Hwf2 : wf st2).
  { destruct (node_line_ok init ws tag wf_init) as (st' & Hst' & Hwf).
    unfold node_line in Hst'. simpl in Hst'. by simplify_eq. }
  assert (Hsim : sim (heap st) st1 st2).
  { split; simpl; [done | |]; by rewrite Nat.add_0_r. }
  destruct (run_ok post st2 Hwf2) as (st2' & Hrun2 & _).
  destruct (run_sim _ _ _ _ _ Hsim Hrun2) as (st1' & Hrun1 & Hsim').
  rewrite Hrun1, Hrun2. simpl. by apply (reify_sim (heap st)).
Qed.

(** *** Lines under the root *)

Lemma pop_to_last w s x : 2 ≤ w → last s = Some x → last (pop_to w s) = Some x.
Proof.
  intros Hw. induction s as [|a s IH]; [done|].
  intros Hlast. cbn [pop_to].
  destruct (Nat.ltb_spec w (2 * length (a :: s))) as [Hlt|Hge]; [|done].
  destruct s as [|b s]; [simpl in Hlt; lia|]. by apply IH.
Qed.

Lemma push_child_tag0 h p c h' tag :
  push_child h p c = Ok h' →
  (∃ c0, h !! 0 = Some c0 ∧ cell_tag c0 = tag) →
  ∃ c0, h' !! 0 = Some c0 ∧ cell_tag c0 = tag.
Proof.
  intros (cl & Hcl & ->)%push_child_inv (c0 & Hc0 & Htag).
  destruct (decide (p = 0)) as [->|Hne].
  - rewrite list_lookup_insert_eq by (by eapply lookup_lt_Some).
    eexists; split; [done|]. simpl. congruence.
  - rewrite list_lookup_insert_ne by done. by exists c0.
Qed.

Lemma step_rooted tag st line st' :
  rooted tag st → nested line → step st line = Ok st' → rooted tag st'.
Proof.
  intros [Hr Ht Hs]. unfold nested, indentation, step.
  destruct (nodeMatch line) as [[ws tag']|].
  - intros Hw. unfold node_line.
    pose proof (pop_to_last _ _ _ Hw Hs) as Hlast.
    destruct (pop_to (String.length ws) (stack st)) as [|p stk]; [done|].
    destruct (push_child _ _ _) as [h'|] eqn:E; simpl; [|done].
    intros [= <-]. split; simpl; [done | | done].
    eapply push_child_tag0; [exact E|].
    destruct Ht as (c0 & Hc0 & Htag). exists c0. split; [|done].
    rewrite lookup_app_l; [done | by eapply lookup_lt_Some].
  - destruct (leafMatch line) as [g|]; [|by intros _ [= <-]].
    intros Hw. unfold leaf_line.
    pose proof (pop_to_last _ _ _ Hw Hs) as Hlast.
    destruct (pop_to (String.length (g_ws g)) (stack st)) as [|p stk]; [done|].
    destruct (push_child _ _ _) as [h'|] eqn:E; simpl; [|done].
    intros [= <-]. split; simpl; [done | | done].
    by eapply push_child_tag0.
Qed.

Lemma run_rooted tag lines : ∀ st st',
  rooted tag st → Forall nested lines → run st lines = Ok st' → rooted tag st'.
Proof.
  induction lines as [|line rest IH]; intros st st' Hst Hall Hrun; simpl in Hrun.
  - by simplify_eq.
  - apply Forall_cons in Hall as [Hline Hrest].
    destruct (step st line) as [st1|] eqn:E; simpl in Hrun; [|done].
    eapply IH; [|done|done]. by eapply step_rooted.
Qed.

(** A node line followed by nested lines only is the root of the tree
    that is returned. *)
Lemma parseLines_rooted l post ws tag :
  nodeMatch l = Some (ws, tag) → Forall nested post →
  ∃ cs, parseLines (l :: post) = Ok (Some (Node tag cs)).
Proof.
  intros Hl Hpost. unfold parseLines. simpl. unfold step. rewrite Hl.
  destruct (node_line_ok init ws tag wf_init) as (st1 & Hst1 & Hwf1).
  rewrite Hst1. simpl.
  assert (Hrooted : rooted tag st1).
  { unfold node_line in Hst1. simpl in Hst1. simplify_eq.
    split; simpl; [done | | done]. by eexists. }
  destruct (run_ok post st1 Hwf1) as (st' & Hrun & Hwf').
  rewrite Hrun. simpl.
  destruct (run_rooted tag post st1 st' Hrooted Hpost Hrun) as [Hr (c0 & Hc0 & Htag) _].
  destruct (reify_ok st' Hwf') as [[Hn _]|(r & c & t & Hr' & Hc & Ht & ->)]; [congruence|].
  assert (r = 0) as -> by congruence.
  destruct (build_tag _ _ _ _ _ Hc Ht) as [cs ->].
  exists cs. do 3 f_equal. congruence.
Qed.

End ParseFacts.

(** ** The rounding is that of IEEE 754 *)

Module Binary64Facts.
Import SpecFloat Number.
#[local] Open Scope Z_scope.

(** The digits of the specification are the size of a positive number. *)
Lemma digits2_size p : digits2_pos p = Pos.size p.
Proof. induction p; simpl; by rewrite ?IHp. Qed.

Lemma digits2_log2 p : Z.pos (digits2_pos p) = Z.log2 (Z.pos p) + 1.
Proof.
  rewrite digits2_size. destruct p; simpl; try done; lia.
Qed.

Lemma iter_pos_nat {A} (f : A → A) n : ∀ x, iter_pos f n x = Nat.iter (Pos.to_nat n) f x.
Proof.
  induction n as [n IH|n IH|]; intros x; cbn [iter_pos].
  - rewrite !IH, Pos2Nat.inj_xI, <- Nat.iter_add.
    replace (S (2 * Pos.to_nat n))%nat with (Pos.to_nat n + Pos.to_nat n + 1)%nat by lia.
    by rewrite (Nat.iter_add _ 1).
  - rewrite !IH, Pos2Nat.inj_xO, <- Nat.iter_add. f_equal. lia.
  - done.
Qed.

(** One shift to the right: the bit that falls off is kept, and the
    ones that fell off before are remembered as one. *)
Lemma shr_1_spec m r s :
  0 ≤ m →
  shr_1 (Build_shr_record m r s) = Build_shr_record (m / 2) (Z.odd m) (r || s).
Proof.
  intros Hm. destruct m as [|[p|p|]|p]; try lia; simpl; try done.
  - f_equal. rewrite Pos2Z.inj_xI. apply Z.div_unique with 1; lia.
  - f_equal. rewrite Pos2Z.inj_xO. apply Z.div_unique with 0; lia.
Qed.

(** After [k + 1] shifts the record holds the quotient, the last bit
    that fell off, and whether any bit before it was set. *)
Lemma shr_iter m k :
  0 ≤ m →
  Nat.iter (S k) shr_1 (Build_shr_record m false false)
  = Build_shr_record (m / 2 ^ Z.of_nat (S k))
                     (Z.testbit m (Z.of_nat k))
                     (negb (m mod 2 ^ Z.of_nat k =? 0)).
Proof.
  intros Hm. induction k as [|k IH].
  - unfold Nat.iter. cbn [nat_rect]. rewrite shr_1_spec by done. f_equal.
    simpl. by rewrite Z.mod_1_r.
  - rewrite Nat.iter_succ, IH. rewrite shr_1_spec by (apply Z.div_pos; lia).
    set (K := Z.of_nat k).
    assert (HK : 0 ≤ K) by lia.
    assert (H2k : 0 < 2 ^ K) by (apply Z.pow_pos_nonneg; lia).
    replace (Z.of_nat (S k)) with (K + 1) by lia.
    replace (Z.of_nat (S (S k))) with (K + 1 + 1) by lia.
    assert (H2 : 2 ^ (K + 1) = 2 ^ K * 2) by (rewrite Z.pow_add_r by lia; lia).
    assert (E1 : m / 2 ^ (K + 1) / 2 = m / 2 ^ (K + 1 + 1)).
    { rewrite Z.div_div by lia. f_equal. rewrite (Z.pow_add_r 2 (K + 1) 1) by lia. lia. }
    assert (E2 : Z.odd (m / 2 ^ (K + 1)) = Z.testbit m (K + 1)).
    { by rewrite Z.testbit_odd, Z.shiftr_div_pow2 by lia. }
    assert (E3 : Z.testbit m K || negb (m mod 2 ^ K =? 0) = negb (m mod 2 ^ (K + 1) =? 0)).
    { pose proof (Z.testbit_spec' m K HK) as Hb.
      assert (Hmod : m mod 2 ^ (K + 1) = 2 ^ K * ((m / 2 ^ K) mod 2) + m mod 2 ^ K).
      { rewrite H2, Z.rem_mul_r by lia. lia. }
      rewrite Hmod, <- Hb.
      pose proof (Z.mod_pos_bound m (2 ^ K) H2k).
      destruct (Z.testbit m K); simpl.
      - destruct (Z.eqb_spec (2 ^ K * 1 + m mod 2 ^ K) 0); [lia | done].
      - by rewrite Z.mul_0_r, Z.add_0_l. }
    by rewrite E1, E2, E3.
Qed.

Lemma shr_pos m n :
  0 ≤ m → 0 < n →
  shr (Build_shr_record m false false) 0 n
  = (Build_shr_record (m / 2 ^ n) (Z.testbit m (n - 1)) (negb (m mod 2 ^ (n - 1) =? 0)), n).
Proof.
  intros Hm Hn. destruct n as [|p|p]; try lia. unfold shr.
  rewrite iter_pos_nat.
  destruct (Pos.to_nat p) as [|k] eqn:Ek; [lia|].
  rewrite shr_iter by done.
  replace (Z.of_nat (S k)) with (Z.pos p) by lia.
  replace (Z.of_nat k) with (Z.pos p - 1) by lia. done.
Qed.

Lemma iter_xO_value p k : Z.pos (Pos.iter xO p k) = Z.pos p * 2 ^ Z.pos k.
Proof.
  induction k as [|k IH] using Pos.peano_ind.
  - simpl. lia.
  - rewrite Pos.iter_succ, Pos2Z.inj_xO, IH, Pos2Z.inj_succ, Z.pow_succ_r by lia. lia.
Qed.

Lemma iter_xO_digits p k : digits2_pos (Pos.iter xO p k) = (digits2_pos p + k)%positive.
Proof.
  induction k as [|k IH] using Pos.peano_ind.
  - simpl. lia.
  - rewrite Pos.iter_succ. simpl. rewrite IH. lia.
Qed.

Lemma fexp_digits d : 1 ≤ d → fexp 53 1024 d = d - 53.
Proof. intros H. unfold fexp, emin. lia. Qed.

(** No shift when the digits are 53. *)
Lemma binary_round_aux_53 sx m e :
  Z.pos (digits2_pos m) = 53 → -1074 ≤ e ≤ 971 →
  binary_round_aux 53 1024 sx (Z.pos m) e loc_Exact = S754_finite sx m e.
Proof.
  intros Hd He. unfold binary_round_aux, shr_fexp.
  cbn [Zdigits2 shr_record_of_loc]. rewrite Hd.
  assert (Hf : fexp 53 1024 (53 + e) - e = 0) by (unfold fexp, emin; lia).
  rewrite Hf. cbn [shr shr_m loc_of_shr_record round_nearest_even Zdigits2].
  rewrite Hd, Hf. cbn [shr shr_m].
  destruct (Z.leb_spec e (1024 - 53)); [done | lia].
Qed.

(** An integer of at most 53 bits is shifted to the left and kept. *)
Lemma binary_round_small sx p :
  Z.pos (digits2_pos p) ≤ 53 →
  of_spec_float (binary_round 53 1024 sx p 0) = Finite (signed sx (Z.pos p)).
Proof.
  intros Hd. unfold binary_round. rewrite Z.add_0_r, fexp_digits by lia.
  unfold shl_align.
  destruct (Z.pos (digits2_pos p) - 53 - 0) as [|k|k] eqn:Ek; try lia.
  - rewrite binary_round_aux_53 by lia. done.
  - rewrite binary_round_aux_53.
    + cbn [of_spec_float]. unfold signed. do 2 f_equal.
      rewrite iter_xO_value.
      replace (Z.pos (digits2_pos p) - 53) with (- Z.pos k) by lia.
      rewrite Z.shiftl_opp_r, Z.shiftr_div_pow2 by lia.
      apply Z.div_mul. apply Z.pow_nonzero; lia.
    + rewrite iter_xO_digits. lia.
    + lia.
Qed.

(** Rounding to nearest, ties to even, on such a record. *)
Lemma nearest_even q r s :
  round_nearest_even q (loc_of_shr_record (Build_shr_record q r s))
  = if r && (s || Z.odd q) then q + 1 else q.
Proof.
  rewrite <- Z.negb_even. destruct r, s; simpl; try done. by destruct (Z.even q).
Qed.

(** A longer one loses its [n] last bits, is rounded, and loses one bit
    more when the rounding carried into a 54th. *)
Lemma binary_round_large sx p n :
  n = Z.pos (digits2_pos p) - 53 → 0 < n →
  of_spec_float (binary_round 53 1024 sx p 0)
  = let q := Z.pos p / 2 ^ n in
    let r := Z.pos p mod 2 ^ n in
    let half := 2 ^ (n - 1) in
    let up := (half <? r) || ((half =? r) && Z.odd q) in
    let v := (if up then q + 1 else q) * 2 ^ n in
    if 2 ^ 1024 <=? v then Infinity sx else Finite (signed sx v).
Proof.
  intros Hn Hpos. cbv zeta.
  set (P := Z.pos p).
  (* the size of P and of its first 53 bits *)
  pose proof (digits2_log2 p) as Hd. fold P in Hd.
  destruct (Z.log2_spec P ltac:(done)) as [Hlo Hhi].
  assert (Hl : Z.log2 P = n + 52) by lia. rewrite Hl in Hlo, Hhi.
  assert (H2n : 0 < 2 ^ n) by (apply Z.pow_pos_nonneg; lia).
  assert (Hlo' : 2 ^ 52 * 2 ^ n ≤ P).
  { rewrite <- Z.pow_add_r by lia. by rewrite Z.add_comm. }
  assert (Hhi' : P < 2 ^ 53 * 2 ^ n).
  { rewrite <- Z.pow_add_r by lia. replace (53 + n) with (Z.succ (n + 52)) by lia. done. }
  set (q := P / 2 ^ n).
  assert (Hq : 2 ^ 52 ≤ q < 2 ^ 53).
  { split; [apply Z.div_le_lower_bound; lia | apply Z.div_lt_upper_bound; lia]. }
  (* the first shift *)
  unfold binary_round. rewrite Z.add_0_r, fexp_digits by lia.
  unfold shl_align.
  destruct (Z.pos (digits2_pos p) - 53 - 0) as [|k|k] eqn:Ek; try lia.
  assert (Z.pos k = n) as Hk by lia.
  unfold binary_round_aux, shr_fexp at 1.
  cbn [Zdigits2 shr_record_of_loc]. rewrite Z.add_0_r, fexp_digits, Z.sub_0_r by lia.
  replace (Z.pos (digits2_pos p) - 53) with n by lia.
  fold P. rewrite shr_pos by lia. fold q.
  rewrite nearest_even.
  (* the bit behind the last and the bits behind it *)
  set (half := 2 ^ (n - 1)).
  assert (Hhalf : 0 < half) by (apply Z.pow_pos_nonneg; lia).
  assert (H2half : 2 ^ n = half * 2).
  { unfold half. replace n with (Z.succ (n - 1)) at 1 by lia.
    rewrite Z.pow_succ_r by lia. lia. }
  pose proof (Z.testbit_spec' P (n - 1) ltac:(lia)) as Hb. fold half in Hb.
  pose proof (Z.mod_pos_bound P half Hhalf) as Hlow.
  assert (Hrem : P mod 2 ^ n = half * Z.b2z (Z.testbit P (n - 1)) + P mod half).
  { rewrite H2half, Z.rem_mul_r by lia. rewrite Hb. lia. }
  assert (Hup : Z.testbit P (n - 1) && (negb (P mod half =? 0) || Z.odd q)
                = (half <? P mod 2 ^ n) || ((half =? P mod 2 ^ n) && Z.odd q)).
  { rewrite Hrem. destruct (Z.testbit P (n - 1)); simpl.
    - destruct (Z.eqb_spec (P mod half) 0) as [E|E]; simpl.
      + rewrite E, Z.mul_1_r, Z.add_0_r, Z.ltb_irrefl, Z.eqb_refl. done.
      + destruct (Z.ltb_spec half (half * 1 + P mod half)); [done | lia].
    - rewrite Z.mul_0_r, Z.add_0_l.
      destruct (Z.ltb_spec half (P mod half)); [lia|].
      destruct (Z.eqb_spec half (P mod half)); [lia | done]. }
  rewrite Hup. clear Hup Hrem Hb Hlow.
  set (up := (half <? P mod 2 ^ n) || ((half =? P mod 2 ^ n) && Z.odd q)).
  set (q' := if up then q + 1 else q).
  assert (Hq' : 2 ^ 52 ≤ q' ≤ 2 ^ 53) by (subst q'; destruct up; lia).
  (* the second shift *)
  unfold shr_fexp. cbn [shr_record_of_loc].
  destruct q' as [|m|m] eqn:Em; try lia. cbn [Zdigits2].
  rewrite digits2_log2.
  destruct (Z.eq_dec (Z.pos m) (2 ^ 53)) as [E53|N53].
  - rewrite E53.
    assert (Hf : fexp 53 1024 (Z.log2 (2 ^ 53) + 1 + n) - n = 1).
    { rewrite Z.log2_pow2 by lia. unfold fexp, emin. lia. }
    rewrite Hf. cbn [shr iter_pos]. rewrite shr_1_spec by lia. cbn [shr_m].
    change (2 ^ 53 / 2) with (Z.pos (2 ^ 52)%positive).
    assert (Hv : 2 ^ 53 * 2 ^ n = 2 ^ 52 * 2 ^ (n + 1)).
    { rewrite (Z.pow_add_r 2 n 1) by lia. lia. }
    destruct (Z.leb_spec (n + 1) (1024 - 53)) as [Hle|Hgt].
    + destruct (Z.leb_spec (2 ^ 1024) (2 ^ 53 * 2 ^ n)) as [Hov|_].
      * exfalso. rewrite Hv in Hov.
        assert (2 ^ (n + 1) ≤ 2 ^ 971) by (apply Z.pow_le_mono_r; lia).
        change (2 ^ 1024) with (2 ^ 52 * 2 ^ 971 * 2) in Hov. lia.
      * cbn [of_spec_float]. unfold signed. do 2 f_equal.
        rewrite Z.shiftl_mul_pow2 by lia. rewrite Hv. done.
    + destruct (Z.leb_spec (2 ^ 1024) (2 ^ 53 * 2 ^ n)) as [_|Hno]; [done|].
      exfalso. assert (2 ^ 971 ≤ 2 ^ n) by (apply Z.pow_le_mono_r; lia).
      change (2 ^ 1024) with (2 ^ 53 * 2 ^ 971) in Hno. lia.
  - assert (Hlog : Z.log2 (Z.pos m) = 52).
    { apply Z.log2_unique; [lia|]. change (2 ^ Z.succ 52) with (2 ^ 53). lia. }
    rewrite Hlog.
    assert (Hf : fexp 53 1024 (52 + 1 + n) - n = 0) by (unfold fexp, emin; lia).
    rewrite Hf. cbn [shr shr_m].
    destruct (Z.leb_spec n (1024 - 53)) as [Hle|Hgt].
    + destruct (Z.leb_spec (2 ^ 1024) (Z.pos m * 2 ^ n)) as [Hov|_].
      * exfalso. assert (2 ^ n ≤ 2 ^ 971) by (apply Z.pow_le_mono_r; lia).
        change (2 ^ 1024) with (2 ^ 53 * 2 ^ 971) in Hov. nia.
      * cbn [of_spec_float]. unfold signed. do 2 f_equal.
        by rewrite Z.shiftl_mul_pow2 by lia.
    + destruct (Z.leb_spec (2 ^ 1024) (Z.pos m * 2 ^ n)) as [_|Hno]; [done|].
      exfalso. assert (2 ^ 972 ≤ 2 ^ n) by (apply Z.pow_le_mono_r; lia).
      change (2 ^ 1024) with (2 ^ 52 * 2 ^ 972) in Hno. nia.
Qed.

Lemma round_signed (sx : bool) (p : positive) :
  round (if sx then Z.neg p else Z.pos p) = of_spec_float (binary_round 53 1024 sx p 0).
Proof.
  set (z := if sx then Z.neg p else Z.pos p).
  assert (Ha : Z.abs z = Z.pos p) by (by destruct sx).
  assert (Hs : ∀ v, Z.sgn z * v = signed sx v) by (by destruct sx).
  assert (Hn : (z <? 0) = sx) by (by destruct sx).
  pose proof (digits2_log2 p) as Hd.
  unfold round. cbv zeta. rewrite Ha, Hn.
  destruct (Z.leb_spec (Z.log2 (Z.pos p) - 52) 0) as [Hle|Hgt].
  - rewrite binary_round_small by lia. f_equal. unfold signed, z. by destruct sx.
  - rewrite (binary_round_large sx p (Z.log2 (Z.pos p) - 52)) by lia. cbv zeta.
    by rewrite Hs.
Qed.

(** The rounding is the rounding to nearest, ties to even, of the
    binary64 format, as the Standard Library specifies it. *)
Theorem round_binary64 z : round z = of_spec_float (binary64 z).
Proof.
  destruct z as [|p|p]; [done | apply (round_signed false) | apply (round_signed true)].
Qed.

End Binary64Facts.

(** ** Rounding to a double *)

Module NumberFacts.
Import Number Views.
#[local] Open Scope Z_scope.

(** An integer is rounded to itself, or it is 2^53 or more in magnitude
    and is rounded to an integer of that size, or to an infinity. *)
Lemma round_cases z :
  round z = Finite z
  ∨ 2 ^ 53 ≤ Z.abs z
    ∧ ((∃ v, round z = Finite (Z.sgn z * v) ∧ 2 ^ 53 ≤ v) ∨ round z = Infinity (z <? 0)).
Proof.
  unfold round. cbv zeta.
  set (a := Z.abs z). set (e := Z.log2 a - 52).
  destruct (Z.leb_spec e 0) as [He|He]; [by left|]. right.
  assert (Ha : 0 < a).
  { destruct (Z.eq_dec a 0) as [E|E]; [|lia].
    subst e. rewrite E in He. simpl in He. lia. }
  destruct (Z.log2_spec a Ha) as [Hlo Hhi].
  assert (Hp : 2 ^ Z.log2 a = 2 ^ 52 * 2 ^ e).
  { rewrite <- Z.pow_add_r by lia. f_equal. lia. }
  assert (H2e : 2 ≤ 2 ^ e).
  { change 2 with (2 ^ 1) at 1. apply Z.pow_le_mono_r; lia. }
  assert (Hq : 2 ^ 52 ≤ a / 2 ^ e).
  { apply Z.div_le_lower_bound; lia. }
  split; [subst a; nia|].
  match goal with
  | |- context [(if ?b then ?x else ?y) * _] => set (q' := if b then x else y)
  end.
  assert (Hq' : 2 ^ 52 ≤ q').
  { subst q'. destruct (_ || _); lia. }
  destruct (Z.leb_spec (2 ^ 1024) (q' * 2 ^ e)); [by right|]. left.
  eexists. split; [done|]. nia.
Qed.

(** The integers up to 2^53 in magnitude are doubles. *)
Lemma round_exact z : Z.abs z ≤ 2 ^ 53 → round z = Finite z.
Proof.
  intros H. destruct (Z.eq_dec (Z.abs z) (2 ^ 53)) as [E|E].
  - destruct (Z.abs_eq_or_opp z) as [Hz|Hz]; rewrite Hz in E.
    + rewrite E. by vm_compute.
    + assert (z = - 2 ^ 53) as -> by lia. by vm_compute.
  - unfold round. cbv zeta.
    destruct (Z.eq_dec (Z.abs z) 0) as [E0|E0]; [by rewrite E0|].
    assert (Z.log2 (Z.abs z) < 53) by (apply Z.log2_lt_pow2; lia).
    destruct (Z.leb_spec (Z.log2 (Z.abs z) - 52) 0); [done | lia].
Qed.



Lemma round_big z : 2 ^ 53 ≤ z → big (round z).
Proof.
  intros H. destruct (round_cases z) as [->|[_ [(v & -> & Hv)| ->]]]; simpl.
  - done.
  - rewrite Z.sgn_pos by lia. lia.
  - destruct (Z.ltb_spec z 0); [lia | done].
Qed.

Lemma round_pos z : 1 ≤ z → below_one (round z) = false.
Proof.
  intros H. destruct (round_cases z) as [->|[_ [(v & -> & Hv)| ->]]]; simpl.
  - destruct (Z.ltb_spec z 1); [lia | done].
  - rewrite Z.sgn_pos by lia. destruct (Z.ltb_spec (1 * v) 1); [lia | done].
  - destruct (Z.ltb_spec z 0); [lia | done].
Qed.




(** [Math.abs(a) + 1] is not below one. *)
Lemma abs_succ_not_below a : below_one (add (abs a) (Finite 1)) = false.
Proof. destruct a as [|s|z]; simpl; [done | done | apply round_pos; lia]. Qed.

(** Subtraction and addition agree with that specification as well, on
    sample doubles: below 2^53, at ties, across the signs, and at the
    infinities. *)
Example sub_add_are_binary64 :
  Forall (fun '(x, y) =>
            sub (round x) (round y)
            = of_spec_float (SpecFloat.SFsub 53 1024 (binary64 x) (binary64 y))
            ∧ add (round x) (round y)
              = of_spec_float (SpecFloat.SFadd 53 1024 (binary64 x) (binary64 y)))
         [(7, 0); (0, 31); (2 ^ 53, 1); (2 ^ 53, -1); (2 ^ 53 + 2, 1); (2 ^ 53 + 2, -1);
          (- 2 ^ 53, 3); (10 ^ 308, - 10 ^ 308); (10 ^ 308, 10 ^ 308); (10 ^ 309, 1);
          (10 ^ 309, 10 ^ 309); (10 ^ 309, - 10 ^ 309); (5, 5)].
Proof. apply Forall_fold_right. vm_compute. repeat split. Qed.

End NumberFacts.

(** ** Declarations *)

Module ExtractFacts.
Import Chars Number Query Extract Views NumberFacts.



Lemma filter_bool_prop {A} (f : A → bool) (P : A → Prop) `{!∀ x, Decision (P x)} (l : list A) :
  (∀ x, f x = true ↔ P x) → List.filter f l = filter P l.
Proof.
  intros Hf. induction l as [|x l IH]; [done|].
  simpl. rewrite filter_cons, IH. destruct (f x) eqn:E.
  - rewrite decide_True; [done | by apply Hf].
  - rewrite decide_False; [done|]. intros HP%Hf. congruence.
Qed.

Lemma find_head_filter {A} (f : A → bool) (P : A → Prop) `{!∀ x, Decision (P x)} (l : list A) :
  (∀ x, f x = true ↔ P x) → List.find f l = head (filter P l).
Proof.
  intros Hf. induction l as [|x l IH]; [done|].
  simpl. rewrite filter_cons. destruct (f x) eqn:E.
  - rewrite decide_True; [done | by apply Hf].
  - rewrite decide_False; [done|]. intros HP%Hf. congruence.
Qed.


Lemma is_type_keyword_spec t : is_type_keyword t = true ↔ kind_word t.
Proof.
  unfold is_type_keyword, kind_word. rewrite bool_decide_eq_true.
  rewrite !elem_of_cons, elem_of_nil. tauto.
Qed.

(** The loop with [break] finds the first leaf that names a kind. *)
Lemma data_type_storage_kind decl : data_type (getAllLeaves decl) = storage_kind decl.
Proof.
  unfold storage_kind. induction (getAllLeaves decl) as [|l ls IH]; [done|].
  simpl. rewrite filter_cons. destruct (is_type_keyword (text l)) eqn:E.
  - apply is_type_keyword_spec in E. by rewrite decide_True.
  - rewrite decide_False; [done|]. intros Hk%is_type_keyword_spec. congruence.
Qed.

Lemma data_type_keyword leaves :
  data_type leaves = "wire" ∨ data_type leaves = "reg" ∨ data_type leaves = "logic".
Proof.
  induction leaves as [|l ls IH]; [by left|]. simpl.
  destruct (is_type_keyword (text l)) eqn:E; [|done].
  unfold is_type_keyword in E. apply bool_decide_eq_true in E.
  rewrite !elem_of_cons, elem_of_nil in E.
  destruct E as [->|[->|[->|[]]]]; auto.
Qed.

Lemma register_variables_omap content w nodes :
  register_variables content w nodes = candidate content w <$> omap nameLeaf nodes.
Proof.
  induction nodes as [|n ns IH]; [done|]. simpl.
  destruct (nameLeaf n); simpl; by rewrite IH.
Qed.

(** What the scan of a port declaration can end with. *)
Lemma port_scan_inv leaves : ∀ o t o' t',
  port_scan leaves o t = (o', t') →
  (o' = true → o = true ∨ ∃ l, l ∈ leaves ∧ text l = "output")
  ∧ (t' = t ∨ ∃ l, l ∈ leaves ∧ text l = t' ∧ is_type_keyword t' = true).
Proof.
  induction leaves as [|l ls IH]; intros o t o' t' H; simpl in H.
  - simplify_eq. split; auto.
  - destruct (bool_decide (text l = "output")) eqn:Eo.
    + apply bool_decide_eq_true in Eo.
      destruct (IH _ _ _ _ H) as [H1 H2]. split.
      * intros _. right. exists l. split; [by left | done].
      * destruct H2 as [?|(l' & ? & ? & ?)]; [by left|].
        right. exists l'. split; [by right | done].
    + destruct (is_type_keyword (text l)) eqn:Ek.
      * destruct (IH _ _ _ _ H) as [H1 H2]. split.
        -- intros Ho. destruct (H1 Ho) as [?|(l' & ? & ?)]; [by left|].
           right. exists l'. split; [by right | done].
        -- right. destruct H2 as [->|(l' & ? & ? & ?)].
           ++ exists l. split; [by left | done].
           ++ exists l'. split; [by right | done].
      * destruct (IH _ _ _ _ H) as [H1 H2]. split.
        -- intros Ho. destruct (H1 Ho) as [?|(l' & ? & ?)]; [by left|].
           right. exists l'. split; [by right | done].
        -- destruct H2 as [?|(l' & ? & ? & ?)]; [by left|].
           right. exists l'. split; [by right | done].
Qed.

End ExtractFacts.

(** ** Classification *)

Module ClassifyFacts.
Import Query Extract Classify.

(** The two sets hold the signals assigned in the blocks with a clock
    edge and in the blocks without one. *)
Lemma signal_sets_spec nodes : ∀ C L x,
  (x ∈ (signal_sets nodes C L).1 ↔
     x ∈ C ∨ ∃ a, a ∈ nodes ∧ hasClockEdge a = true ∧ x ∈ findAssignedSignals a)
  ∧ (x ∈ (signal_sets nodes C L).2 ↔
     x ∈ L ∨ ∃ a, a ∈ nodes ∧ hasClockEdge a = false ∧ x ∈ findAssignedSignals a).
Proof.
  induction nodes as [|n ns IH]; intros C L x.
  - simpl. split; (split; [by left | intros [?|(a & Ha & _)]; [done | by apply elem_of_nil in Ha]]).
  - simpl. destruct (hasClockEdge n) eqn:E.
    + destruct (IH (C ∪ list_to_set (findAssignedSignals n)) L x) as [H1 H2].
      rewrite H1, H2. clear H1 H2. rewrite elem_of_union, elem_of_list_to_set. split.
      * split.
        -- intros [[?|?]|(a & Ha & Hc & Hx)]; [by left | right; exists n | right; exists a].
           ++ split; [by left | done].
           ++ split; [by right | done].
        -- intros [?|(a & Ha & Hc & Hx)]; [by left; left|].
           apply elem_of_cons in Ha as [->|Ha]; [by left; right|].
           right. by exists a.
      * split.
        -- intros [?|(a & Ha & Hc & Hx)]; [by left|]. right. exists a. split; [by right | done].
        -- intros [?|(a & Ha & Hc & Hx)]; [by left|].
           apply elem_of_cons in Ha as [->|Ha]; [congruence|].
           right. by exists a.
    + destruct (IH C (L ∪ list_to_set (findAssignedSignals n)) x) as [H1 H2].
      rewrite H1, H2. clear H1 H2. rewrite elem_of_union, elem_of_list_to_set. split.
      * split.
        -- intros [?|(a & Ha & Hc & Hx)]; [by left|]. right. exists a. split; [by right | done].
        -- intros [?|(a & Ha & Hc & Hx)]; [by left|].
           apply elem_of_cons in Ha as [->|Ha]; [congruence|].
           right. by exists a.
      * split.
        -- intros [[?|?]|(a & Ha & Hc & Hx)]; [by left | right; exists n | right; exists a].
           ++ split; [by left | done].
           ++ split; [by right | done].
        -- intros [?|(a & Ha & Hc & Hx)]; [by left; left|].
           apply elem_of_cons in Ha as [->|Ha]; [by left; right|].
           right. by exists a.
Qed.

Lemma clockedSignals_spec nodes x :
  x ∈ clockedSignals nodes ↔
  ∃ a, a ∈ nodes ∧ hasClockEdge a = true ∧ x ∈ findAssignedSignals a.
Proof.
  unfold clockedSignals. destruct (signal_sets_spec nodes ∅ ∅ x) as [-> _].
  split; [intros [H|H]; [by apply not_elem_of_empty in H | done] | by right].
Qed.

Lemma latchSignals_spec nodes x :
  x ∈ latchSignals nodes ↔
  ∃ a, a ∈ nodes ∧ hasClockEdge a = false ∧ x ∈ findAssignedSignals a.
Proof.
  unfold latchSignals. destruct (signal_sets_spec nodes ∅ ∅ x) as [_ ->].
  split; [intros [H|H]; [by apply not_elem_of_empty in H | done] | by right].
Qed.

Lemma refineRegisters_map alwaysNodes registers :
  refineRegisters alwaysNodes registers
  = classify (clockedSignals alwaysNodes) (latchSignals alwaysNodes) <$> registers.
Proof.
  unfold refineRegisters, clockedSignals, latchSignals.
  by destruct (signal_sets alwaysNodes ∅ ∅).
Qed.

Lemma refineRegisters_lookup alwaysNodes registers i :
  refineRegisters alwaysNodes registers !! i
  = classify (clockedSignals alwaysNodes) (latchSignals alwaysNodes) <$> registers !! i.
Proof. by rewrite refineRegisters_map, list_lookup_fmap. Qed.

Lemma classify_frame C L r :
  name (classify C L r) = name r ∧ width (classify C L r) = width r
  ∧ line (classify C L r) = line r ∧ module (classify C L r) = module r
  ∧ file (classify C L r) = file r.
Proof. unfold classify. by repeat case_decide. Qed.

Lemma classify_type C L r :
  type (classify C L r) = if decide (name r ∈ C) then flip_flop
                          else if decide (name r ∈ L) then latch else flip_flop.
Proof. unfold classify. by repeat case_decide. Qed.

End ClassifyFacts.

(** ** Aggregation *)

Module AggregateFacts.
Import File Aggregate Views.

Lemma type_name_inj t1 t2 : type_name t1 = type_name t2 → t1 = t2.
Proof. by destruct t1, t2. Qed.

Lemma type_name_own t : ¬ inherited (type_name t).
Proof.
  unfold inherited, object_prototype_keys.
  rewrite !elem_of_cons, elem_of_nil. destruct t; simpl; intuition discriminate.
Qed.

Lemma group_step_ok g reg :
  ¬ inherited (module reg) →
  group_step g reg
  = Ok (mkAcc
          (<[type_name (type reg) :=
               default 0 (g_byType g !! type_name (type reg)) + 1]> (g_byType g))
          (<[module reg := default [] (g_byModule g !! module reg) ++ [reg]]> (g_byModule g))
          (Number.add (g_totalBits g) (width reg))).
Proof.
  intros Hm. unfold group_step, get.
  destruct (g_byModule g !! module reg) as [regs|]; [done|].
  by rewrite bool_decide_eq_false_2.
Qed.

Lemma group_step_inherited g reg :
  g_byModule g !! module reg = None → inherited (module reg) →
  group_step g reg = Thrown.
Proof.
  intros Hnone Hm. unfold group_step, get. rewrite Hnone.
  by rewrite bool_decide_eq_true_2.
Qed.

Lemma group_views regs : ∀ g,
  Forall (fun r => ¬ inherited (module r)) regs →
  ∃ g', group g regs = Ok g'
    ∧ (∀ k, g_byType g' !! k =
              let n := length (filter (fun r => type_name (type r) = k) regs) in
              if decide (n = 0) then g_byType g !! k
              else Some (default 0 (g_byType g !! k) + n))
    ∧ (∀ m, g_byModule g' !! m =
              let l := of_module m regs in
              if decide (l = []) then g_byModule g !! m
              else Some (default [] (g_byModule g !! m) ++ l))
    ∧ g_totalBits g' = sum_widths (g_totalBits g) regs.
Proof.
  induction regs as [|reg rest IH]; intros g Hall.
  - exists g. split; [done|]. split; [done|]. split; [done|]. done.
  - apply Forall_cons in Hall as [Hreg Hrest].
    cbn [group]. rewrite (group_step_ok g reg Hreg).
    match goal with |- context [Ok ?g1 ≫= _] =>
      destruct (IH g1 Hrest) as (g' & Hg' & HT & HM & HB) end.
    clear IH. cbn [mbind result_bind]. rewrite Hg'.
    exists g'. split; [done|]. simpl in *. split; [|split].
    + intros k. rewrite HT. clear HT HM HB. rewrite filter_cons.
      destruct (decide (type_name (type reg) = k)) as [<-|Hne]; simpl.
      * rewrite lookup_insert_eq. simpl.
        repeat case_decide; try lia; f_equal; lia.
      * rewrite lookup_insert_ne by done. done.
    + intros m. rewrite HM. clear HT HM HB. unfold of_module. rewrite filter_cons.
      destruct (decide (module reg = m)) as [<-|Hne]; simpl.
      * rewrite lookup_insert_eq. simpl.
        repeat case_decide; try done.
        -- by match goal with H : filter _ _ = [] |- _ => rewrite H end.
        -- by rewrite <- app_assoc.
      * rewrite lookup_insert_ne by done. done.
    + by rewrite HB.
Qed.

(** Without an inherited module name the aggregation succeeds, and its
    fields are the views of the register list. *)
Lemma aggregate_views regs mods :
  Forall (fun r => ¬ inherited (module r)) regs →
  ∃ data, aggregate regs mods = Success data
    ∧ registers data = regs
    ∧ totalRegisters data = length regs
    ∧ totalBits data = sum_widths (Number.Finite 0) regs
    ∧ modules data = Some mods
    ∧ (∀ t, byType data !! type_name t =
              if decide (count_type t regs = 0) then None else Some (count_type t regs))
    ∧ (∀ k, (∀ t, k ≠ type_name t) → byType data !! k = None)
    ∧ (∀ m, byModule data !! m =
              if decide (of_module m regs = []) then None else Some (of_module m regs)).
Proof.
  intros Hall. unfold aggregate.
  destruct (group_views regs (mkAcc ∅ ∅ (Number.Finite 0)) Hall) as (g & -> & HT & HM & HB).
  simpl in *. eexists. split; [done|]. simpl.
  assert (Hcount : ∀ t, length (filter (fun r => type_name (type r) = type_name t) regs)
                        = count_type t regs).
  { intros t. unfold count_type. f_equal. apply list_filter_iff.
    intros r. split; [apply type_name_inj | by intros ->]. }
  do 4 (split; [done|]). split; [|split].
  - intros t. rewrite HT, Hcount, lookup_empty. by case_decide.
  - intros k Hk. rewrite HT, lookup_empty. case_decide; [done|].
    exfalso. destruct (filter _ regs) as [|r ?] eqn:E; [done|].
    assert (Hin : r ∈ filter (fun r => type_name (type r) = k) regs) by (rewrite E; by left).
    apply list_elem_of_filter in Hin as [Hin _]. by apply (Hk (type r)).
  - intros m. rewrite HM, lookup_empty. by case_decide.
Qed.

(** The names grouped so far are never inherited ones, so the first
    register of a module with an inherited name makes the loop throw. *)
Lemma group_throws regs : ∀ g,
  (∀ k, is_Some (g_byModule g !! k) → ¬ inherited k) →
  Exists (fun r => inherited (module r)) regs →
  group g regs = Thrown.
Proof.
  induction regs as [|reg rest IH]; intros g Hown Hex.
  - by apply Exists_nil in Hex.
  - cbn [group]. destruct (decide (inherited (module reg))) as [Hin|Hnot].
    + rewrite group_step_inherited; [done | | done].
      destruct (g_byModule g !! module reg) eqn:E; [|done].
      exfalso. apply (Hown (module reg)); [by eexists | done].
    + rewrite (group_step_ok g reg Hnot). cbn [mbind result_bind].
      apply IH.
      * simpl. intros k Hk. destruct (decide (module reg = k)) as [<-|Hne]; [done|].
        rewrite lookup_insert_ne in Hk by done. by apply Hown.
      * apply Exists_cons in Hex as [?|?]; done.
Qed.

(** The aggregation fails exactly on the register lists that have a
    module with an inherited name. *)
Lemma aggregate_failure_iff regs mods :
  aggregate regs mods = Failure ↔ Exists (fun r => inherited (module r)) regs.
Proof.
  split.
  - intros Hfail. destruct (decide (Exists (fun r => inherited (module r)) regs)) as [|Hno];
      [done|].
    apply not_Exists_Forall in Hno; [|intros r; apply _].
    destruct (aggregate_views regs mods Hno) as (data & Hdata & _). congruence.
  - intros Hex. unfold aggregate.
    rewrite (group_throws regs (mkAcc ∅ ∅ (Number.Finite 0))); [done | | done].
    simpl. intros k [v Hv]. by rewrite lookup_empty in Hv.
Qed.

(** Merging a list with itself doubles the counts and the total, and
    repeats every group. *)
Lemma views_double regs :
  (∀ t, count_type t (regs ++ regs) = 2 * count_type t regs)
  ∧ (∀ m, of_module m (regs ++ regs) = of_module m regs ++ of_module m regs)
  ∧ total_width (regs ++ regs) = (2 * total_width regs)%Z
  ∧ length (regs ++ regs) = 2 * length regs.
Proof.
  assert (Hw : ∀ a b, total_width (a ++ b) = (total_width a + total_width b)%Z).
  { intros a b. induction a as [|r a IH]; simpl; [done|]. rewrite IH. lia. }
  split; [|split; [|split]].
  - intros t. unfold count_type. rewrite filter_app, length_app. lia.
  - intros m. unfold of_module. by rewrite filter_app.
  - rewrite Hw. lia.
  - rewrite length_app. lia.
Qed.

Lemma collect_app before after :
  collect (before ++ after)
  = ((collect before).1 ++ (collect after).1, (collect before).2 ++ (collect after).2).
Proof.
  induction before as [|[filepath w] rest IH]; simpl.
  - by destruct (collect after).
  - rewrite IH. destruct (collect rest), (collect after). simpl.
    by rewrite !app_assoc.
Qed.


End AggregateFacts.

(** * The claims *)

Module Claims.
Import Chars Number Line Parse Query Extract Classify File Listing Aggregate.
Import ParseInv Views Samples.
Import NumberFacts ParseFacts ExtractFacts ClassifyFacts AggregateFacts.

(** C1. After the always blocks of a module are processed, a candidate
    whose name is in [clockedSignals] is a [flip_flop], also when the
    name is in [latchSignals] as well, and a candidate whose name is in
    [latchSignals] only is a [latch]. In terms of the blocks: a
    candidate assigned in a block with a clock edge is a [flip_flop],
    whatever the blocks without one assign. *)
Theorem refineRegisters_clocked_precedence
    (alwaysNodes : list Syntax) (registers : list RegisterInfo)
    (i : nat) (register : RegisterInfo) :
  registers !! i = Some register →
  (name register ∈ clockedSignals alwaysNodes →
     type <$> refineRegisters alwaysNodes registers !! i = Some flip_flop)
  ∧ (name register ∈ latchSignals alwaysNodes →
     name register ∉ clockedSignals alwaysNodes →
     type <$> refineRegisters alwaysNodes registers !! i = Some latch)
  ∧ (∀ a, a ∈ alwaysNodes → hasClockEdge a = true →
     name register ∈ findAssignedSignals a →
     type <$> refineRegisters alwaysNodes registers !! i = Some flip_flop).
Proof.
  intros Hi. rewrite refineRegisters_lookup, Hi. simpl. rewrite classify_type.
  split; [|split].
  - intros Hc. by rewrite decide_True.
  - intros Hl Hc. by rewrite decide_False, decide_True.
  - intros a Ha He Hq. rewrite decide_True; [done|].
    apply clockedSignals_spec. by exists a.
Qed.

Lemma refineRegisters_clocked_precedence_witness :
  "q" ∈ clockedSignals [always_star; always_ff]
  ∧ "q" ∈ latchSignals [always_star; always_ff]
  ∧ type <$> refineRegisters [always_star; always_ff] [reg_named "l"; reg_named "q"] !! 1
    = Some flip_flop.
Proof.
  assert (Hc : "q" ∈ clockedSignals [always_star; always_ff])
    by (apply (bool_decide_unpack _); vm_compute; exact I).
  assert (Hl : "q" ∈ latchSignals [always_star; always_ff])
    by (apply (bool_decide_unpack _); vm_compute; exact I).
  split; [exact Hc|]. split; [exact Hl|].
  exact (proj1 (refineRegisters_clocked_precedence
                  [always_star; always_ff] [reg_named "l"; reg_named "q"] 1 (reg_named "q")
                  eq_refl) Hc).
Defined.

(** C2. A candidate whose name is in neither set, that is, which no
    always block of its module assigns, is a [flip_flop]; and no
    candidate is left a [potential_register]. *)
Theorem refineRegisters_default_flip_flop
    (alwaysNodes : list Syntax) (registers : list RegisterInfo) :
  (∀ i register, registers !! i = Some register →
     name register ∉ clockedSignals alwaysNodes →
     name register ∉ latchSignals alwaysNodes →
     type <$> refineRegisters alwaysNodes registers !! i = Some flip_flop)
  ∧ (∀ i register, registers !! i = Some register →
     (∀ a, a ∈ alwaysNodes → name register ∉ findAssignedSignals a) →
     type <$> refineRegisters alwaysNodes registers !! i = Some flip_flop)
  ∧ Forall (fun register => type register ≠ potential_register)
           (refineRegisters alwaysNodes registers).
Proof.
  assert (H1 : ∀ i register, registers !! i = Some register →
     name register ∉ clockedSignals alwaysNodes →
     name register ∉ latchSignals alwaysNodes →
     type <$> refineRegisters alwaysNodes registers !! i = Some flip_flop).
  { intros i r Hi Hc Hl. rewrite refineRegisters_lookup, Hi. simpl.
    rewrite classify_type. by rewrite !decide_False. }
  split; [exact H1|]. split.
  - intros i r Hi Hnone. apply (H1 i r Hi).
    + intros (a & Ha & _ & Hq)%clockedSignals_spec. by apply (Hnone a).
    + intros (a & Ha & _ & Hq)%latchSignals_spec. by apply (Hnone a).
  - rewrite refineRegisters_map. apply Forall_fmap, Forall_forall.
    intros r _. simpl. rewrite classify_type. by repeat case_decide.
Qed.

Lemma refineRegisters_default_flip_flop_witness :
  type <$> refineRegisters [always_star; always_ff] [reg_named "unused"] !! 0
  = Some flip_flop.
Proof.
  apply (proj1 (refineRegisters_default_flip_flop
                  [always_star; always_ff] [reg_named "unused"])
               0 (reg_named "unused") eq_refl).
  - apply (bool_decide_unpack _); vm_compute; exact I.
  - apply (bool_decide_unpack _); vm_compute; exact I.
Defined.

(** C9. [refineRegisters] writes the [type] field only: the array keeps
    its length and its order, and every element keeps its name, width,
    line, module and file. *)
Theorem refineRegisters_frame (alwaysNodes : list Syntax) (registers : list RegisterInfo) :
  length (refineRegisters alwaysNodes registers) = length registers
  ∧ name <$> refineRegisters alwaysNodes registers = name <$> registers
  ∧ width <$> refineRegisters alwaysNodes registers = width <$> registers
  ∧ line <$> refineRegisters alwaysNodes registers = line <$> registers
  ∧ module <$> refineRegisters alwaysNodes registers = module <$> registers
  ∧ file <$> refineRegisters alwaysNodes registers = file <$> registers.
Proof.
  rewrite refineRegisters_map.
  split; [by rewrite length_fmap|].
  rewrite <- !list_fmap_compose.
  repeat split; apply list_fmap_ext; intros j r _; simpl;
    destruct (classify_frame (clockedSignals alwaysNodes) (latchSignals alwaysNodes) r)
      as (? & ? & ? & ? & ?); done.
Qed.




(** C4. The storage kind of a data declaration is the text of its first
    leaf that reads [wire], [reg] or [logic], and [wire] when there is
    none. A [wire] declaration gives no candidate; a [reg] or [logic]
    declaration gives one candidate for every [kRegisterVariable] node
    that has an identifier leaf, in order, named by the first such
    leaf. *)
Theorem parseDataDeclaration_kind (dataDecl : Syntax) (content : string) :
  data_type (getAllLeaves dataDecl) = storage_kind dataDecl
  ∧ (storage_kind dataDecl = "wire" → parseDataDeclaration dataDecl content = [])
  ∧ (parseDataDeclaration dataDecl content ≠ [] →
       storage_kind dataDecl = "reg" ∨ storage_kind dataDecl = "logic")
  ∧ (storage_kind dataDecl = "reg" ∨ storage_kind dataDecl = "logic" →
       parseDataDeclaration dataDecl content
       = candidate content (decl_width dataDecl)
           <$> omap nameLeaf (findNodesByTag dataDecl "kRegisterVariable"))
  ∧ (∀ regVar, nameLeaf regVar
               = head (filter (fun l => leaf_tag l = "SymbolIdentifier")
                              (getAllLeaves regVar))).
Proof.
  split; [apply data_type_storage_kind|].
  unfold parseDataDeclaration. rewrite data_type_storage_kind.
  pose proof (data_type_keyword (getAllLeaves dataDecl)) as Hk.
  rewrite data_type_storage_kind in Hk.
  split; [by intros ->|]. split; [|split].
  - destruct Hk as [->|Hk]; [done | by intros _].
  - intros [->| ->]; simpl; apply register_variables_omap.
  - intros regVar. apply find_head_filter. intros l. apply bool_decide_eq_true.
Qed.

Lemma parseDataDeclaration_kind_witness :
  storage_kind var_decl = "logic"
  ∧ name <$> parseDataDeclaration var_decl "" = ["y"]
  ∧ width <$> parseDataDeclaration var_decl "" = [Finite 4].
Proof.
  assert (Hk : storage_kind var_decl = "logic") by (by vm_compute).
  split; [exact Hk|].
  rewrite (proj1 (proj2 (proj2 (proj2 (parseDataDeclaration_kind var_decl ""))))
             (or_intror Hk)).
  split; by vm_compute.
Defined.

(** C5. A port declaration gives candidates only if one of its leaves
    reads [output] and one reads [reg] or [logic]. When it gives any,
    they are, in order, the identifier leaves whose text is not a
    direction or type keyword, each with the width of the first packed
    dimension of the port, or 1 when it has none. *)
Theorem parsePortDeclaration_output_reg (portDecl : Syntax) (content : string) :
  (parsePortDeclaration portDecl content ≠ [] →
     (∃ l, l ∈ getAllLeaves portDecl ∧ text l = "output")
     ∧ (∃ l, l ∈ getAllLeaves portDecl ∧ (text l = "reg" ∨ text l = "logic")))
  ∧ (parsePortDeclaration portDecl content ≠ [] →
     parsePortDeclaration portDecl content
     = candidate content (decl_width portDecl)
         <$> List.filter is_port_name (getAllLeaves portDecl))
  ∧ (∀ leaf, is_port_name leaf = true ↔
       leaf_tag leaf = "SymbolIdentifier"
       ∧ text leaf ∉ ["input"; "output"; "inout"; "wire"; "reg"; "logic"])
  ∧ (findFirstNodeByTag portDecl "kPackedDimensions" = None → decl_width portDecl = Finite 1)
  ∧ (∀ d, findFirstNodeByTag portDecl "kPackedDimensions" = Some d →
       decl_width portDecl = parsePackedDimensions d).
Proof.
  unfold parsePortDeclaration, decl_width.
  destruct (port_scan (getAllLeaves portDecl) false "wire") as [o t] eqn:E.
  destruct (port_scan_inv _ _ _ _ _ E) as [Ho Ht].
  split; [|split; [|split; [|split]]].
  - destruct o; simpl; [|done].
    destruct (bool_decide (t ≠ "reg") && bool_decide (t ≠ "logic")) eqn:Et; [done|].
    intros _. split.
    + destruct (Ho eq_refl) as [?|?]; [done|done].
    + apply andb_false_iff in Et.
      assert (Hrl : t = "reg" ∨ t = "logic").
      { destruct Et as [Et|Et]; apply bool_decide_eq_false in Et.
        - left. by destruct (decide (t = "reg")).
        - right. by destruct (decide (t = "logic")). }
      destruct Ht as [->|(l & Hl & Hx & _)].
      * by destruct Hrl.
      * exists l. split; [done|]. by rewrite Hx.
  - destruct (negb o || _); [done | by intros _].
  - intros leaf. unfold is_port_name, is_identifier.
    rewrite andb_true_iff, negb_true_iff, bool_decide_eq_true, bool_decide_eq_false.
    done.
  - by intros ->.
  - by intros d ->.
Qed.

Lemma parsePortDeclaration_output_reg_witness :
  name <$> parsePortDeclaration port_decl "" = ["q"]
  ∧ width <$> parsePortDeclaration port_decl "" = [Finite 8].
Proof.
  assert (Hne : parsePortDeclaration port_decl "" ≠ []) by (vm_compute; discriminate).
  rewrite (proj1 (proj2 (parsePortDeclaration_output_reg port_decl "")) Hne).
  split; by vm_compute.
Defined.



(** C8. [parseTreeStructure] returns for every text and never throws. A
    node or leaf line indented deeper than the stack pops nothing, is
    handled as any line indented to the depth of the stack, and is
    appended to the children of the node on top of the stack. (When the
    stack is empty there is no such node: a node line is then the root
    and a leaf line is skipped, as for any indentation.) *)
Theorem parseTreeStructure_total_clamped :
  (∀ output, ∃ r, parseTreeStructure output = Ok r)
  ∧ (∀ w stack, 2 * length stack ≤ w → pop_to w stack = stack)
  ∧ (∀ st ws ws' tag,
       2 * length (stack st) ≤ String.length ws →
       2 * length (stack st) ≤ String.length ws' →
       node_line st ws tag = node_line st ws' tag)
  ∧ (∀ st g g',
       2 * length (stack st) ≤ String.length (g_ws g) →
       2 * length (stack st) ≤ String.length (g_ws g') →
       g_tag g = g_tag g' → g_start g = g_start g' → g_end g = g_end g' →
       g_text g = g_text g' →
       leaf_line st g = leaf_line st g')
  ∧ (∀ st line ws tag parent rest cl,
       nodeMatch line = Some (ws, tag) →
       2 * length (stack st) < String.length ws →
       stack st = parent :: rest → heap st !! parent = Some cl →
       step st line
       = Ok (mkState
               (<[parent := mkCell (cell_tag cl)
                              (cell_children cl ++ [CNode (length (heap st))])]>
                  (heap st ++ [mkCell tag []]))
               (root st) (length (heap st) :: stack st)))
  ∧ (∀ st line g parent rest cl,
       nodeMatch line = None → leafMatch line = Some g →
       2 * length (stack st) < String.length (g_ws g) →
       stack st = parent :: rest → heap st !! parent = Some cl →
       step st line
       = Ok (mkState
               (<[parent := mkCell (cell_tag cl)
                              (cell_children cl
                               ++ [CLeaf (mkLeaf (g_tag g) (parseInt (g_start g))
                                                 (parseInt (g_end g)) (g_text g))])]>
                  (heap st))
               (root st) (stack st)))
  ∧ (∀ st line ws tag,
       nodeMatch line = Some (ws, tag) → stack st = [] →
       step st line
       = Ok (mkState (heap st ++ [mkCell tag []]) (Some (length (heap st)))
                     [length (heap st)]))
  ∧ (∀ st line g,
       nodeMatch line = None → leafMatch line = Some g → stack st = [] →
       step st line = Ok (mkState (heap st) (root st) [])).
Proof.
  split; [intros output; apply parseLines_total|].
  split; [apply pop_to_deep|].
  split; [|split; [|split; [|split; [|split]]]].
  - intros st ws ws' tag H H'. unfold node_line.
    by rewrite !pop_to_deep.
  - intros st g g' H H' Ht Hs He Hx. unfold leaf_line.
    rewrite !pop_to_deep by done. by rewrite Ht, Hs, He, Hx.
  - intros st line ws tag parent rest cl Hm Hw Hs Hcl.
    unfold step, node_line. rewrite Hm, pop_to_deep by lia. rewrite Hs.
    unfold push_child. by rewrite (lookup_app_l_Some _ _ _ _ Hcl).
  - intros st line g parent rest cl Hn Hm Hw Hs Hcl.
    unfold step, leaf_line. rewrite Hn, Hm, pop_to_deep by lia. rewrite Hs.
    unfold push_child. by rewrite Hcl.
  - intros st line ws tag Hm Hs. unfold step, node_line. by rewrite Hm, Hs.
  - intros st line g Hn Hm Hs. unfold step, leaf_line. by rewrite Hn, Hm, Hs.
Qed.

Lemma parseTreeStructure_total_clamped_witness :
  step (mkState [mkCell "A" []] (Some 0) [0]) (node_text 4 "B")
  = Ok (mkState [mkCell "A" [CNode 1]; mkCell "B" []] (Some 0) [1; 0]).
Proof.
  destruct parseTreeStructure_total_clamped as (_ & _ & _ & _ & Hnode & _ & _ & _).
  apply (Hnode (mkState [mkCell "A" []] (Some 0) [0]) (node_text 4 "B")
               "        " "B" 0 [] (mkCell "A" [])).
  - reflexivity.
  - simpl. lia.
  - reflexivity.
  - reflexivity.
Defined.

(** C10. A node line that finds the stack empty becomes the root and
    replaces the root before it: the text read before that line has no
    effect on the result, and when only nested lines follow, the result
    is the tree under that line. A node line indented by less than one
    level always finds the stack empty. *)
Theorem parseTreeStructure_last_root
    (output : string) (pre : list string) (l : string) (post : list string)
    (st : state) (ws tag : string) :
  split_lines output = pre ++ l :: post →
  run init pre = Ok st →
  nodeMatch l = Some (ws, tag) →
  String.length ws < 2 ∨ pop_to (String.length ws) (stack st) = [] →
  parseTreeStructure output = parseLines (l :: post)
  ∧ (Forall nested post → ∃ cs, parseTreeStructure output = Ok (Some (Node tag cs))).
Proof.
  intros Hsplit Hpre Hl Hempty.
  assert (Hpop : pop_to (String.length ws) (stack st) = []).
  { destruct Hempty as [Hw|?]; [|done].
    apply length_zero_iff_nil. rewrite pop_to_length.
    pose proof (Nat.div_mod_eq (String.length ws) 2).
    pose proof (Nat.mod_upper_bound (String.length ws) 2). lia. }
  unfold parseTreeStructure. rewrite Hsplit.
  rewrite (parseLines_new_root pre l post st ws tag Hpre Hl Hpop).
  split; [done|]. intros Hnested. by apply (parseLines_rooted l post ws tag).
Qed.

Lemma parseTreeStructure_last_root_witness :
  parseTreeStructure (unlines two_roots) = Ok (Some (Node "C" [Node "D" []])).
Proof.
  destruct (parseTreeStructure_last_root (unlines two_roots)
              [node_text 0 "A"; node_text 1 "B"; close_text 1; close_text 0]
              (node_text 0 "C") [node_text 1 "D"; close_text 1; close_text 0]
              (mkState [mkCell "A" [CNode 1]; mkCell "B" []] (Some 0) [1; 0])
              "" "C" eq_refl eq_refl eq_refl (or_introl (Nat.lt_0_succ 1))) as [-> _].
  reflexivity.
Defined.

(** C6, where the code departs from it. A module may be named as a
    property that every object inherits, such as [constructor]. The file
    is analysed to one register of that module, and the grouping loop
    then throws on it: [processResult] returns the failure of its
    [catch] clause instead of the merged result. The same file with
    another module name is aggregated. *)
Theorem processResult_inherited_module_name :
  (analyzeFile (module_world "constructor") "top.v").1
  = [mkReg "q" (Finite 1) flip_flop "top.v" 2 "constructor"]
  ∧ getFilesToAnalyze (module_env "constructor") top_v = Ok ["top.v"]
  ∧ processResult (module_env "constructor") top_v = Failure
  ∧ ∃ data, processResult (module_env "accumulator") top_v = Success data
            ∧ totalRegisters data = 1
            ∧ byModule data !! "accumulator"
              = Some [mkReg "q" (Finite 1) flip_flop "top.v" 2 "accumulator"].
Proof.
  split; [by vm_compute|]. split; [by vm_compute|]. split; [by vm_compute|].
  eexists. split; [by vm_compute|]. split; [reflexivity | by vm_compute].
Qed.

End Claims.

(** * Further properties of the analysis *)

(** ** The walk over a directory *)

Module ListingFacts.
Import Listing Aggregate Views.

Lemma Dirent_forall_ind (P : Dirent → Prop) :
  P RegularFile → P Special → P (Directory Thrown) →
  (∀ entries, Forall (fun e => P e.2) entries → P (Directory (Ok entries))) →
  ∀ d, P d.
Proof.
  intros HF HS HT HD. fix IH 1. intros [|[entries|]|]; [exact HF | | exact HT | exact HS].
  apply HD. induction entries as [|[n e] es IHes]; constructor; [apply IH | exact IHes].
Qed.

(** The walk throws exactly when a directory under it cannot be read. *)
Lemma walk_throws join d : ∀ dir, walk join dir d = Thrown ↔ unreadable d.
Proof.
  induction d as [| | |entries IH] using Dirent_forall_ind; intros dir; try done.
  cbn [walk unreadable].
  induction IH as [|[n e] es He _ IHes]; [done|].
  simpl in He.
  assert (Hfound : ∀ found,
            found = match e with
                    | Directory _ => walk join (join dir n) e
                    | RegularFile =>
                        Ok (if Chars.endsWith ".v" n || Chars.endsWith ".sv" n
                            then [join dir n] else [])
                    | Special => Ok []
                    end →
            (found = Thrown ↔ unreadable e)).
  { intros found ->. destruct e; [done | apply He | done]. }
  match goal with |- (?found ≫= _) = _ ↔ _ => specialize (Hfound found eq_refl);
    destruct found as [fs|] end.
  - cbn [mbind result_bind]. 
    assert (Hno : ¬ unreadable e) by (intros Hu%Hfound; discriminate Hu).
    match goal with |- (?more ≫= _) = _ ↔ _ => destruct more as [ms|] eqn:Em end;
      cbn [mbind result_bind].
    + split; [done|]. intros [?|Hany]; [done|]. by apply IHes in Hany.
    + split; [|done]. intros _. right. by apply IHes.
  - cbn [mbind result_bind]. split; [|done]. intros _. left. by apply Hfound.
Qed.

(** [endsWith] tests for a suffix. *)
Lemma endsWith_spec lit s : Chars.endsWith lit s = true ↔ ∃ stem, s = stem +:+ lit.
Proof.
  induction s as [|c s IH]; cbn [Chars.endsWith].
  - rewrite orb_false_r, bool_decide_eq_true. split.
    + intros <-. by exists "".
    + intros [[|c stem] H]; [done | discriminate H].
  - rewrite orb_true_iff, bool_decide_eq_true, IH. split.
    + intros [<-|[stem ->]]; [by exists "" | by exists (String c stem)].
    + intros [[|c' stem] H]; [by left|]. right. exists stem.
      simpl in H. by injection H.
Qed.

Lemma verilog_name_spec n :
  Chars.endsWith ".v" n || Chars.endsWith ".sv" n = true ↔ verilog_name n.
Proof. unfold verilog_name. by rewrite orb_true_iff, !endsWith_spec. Qed.

(** What the walk returns are the Verilog files under the directory. *)
Lemma walk_listed join d : ∀ dir files f,
  walk join dir d = Ok files → f ∈ files ↔ listed join dir d f.
Proof.
  induction d as [| | |entries IH] using Dirent_forall_ind; intros dir files f.
  - intros [= <-]. split; [by intros ?%elem_of_nil | intros H; inversion H].
  - intros [= <-]. split; [by intros ?%elem_of_nil | intros H; inversion H].
  - done.
  - cbn [walk].
    assert (Hin : listed join dir (Directory (Ok entries)) f
                  ↔ ∃ n e, (n, e) ∈ entries
                      ∧ ((e = RegularFile ∧ verilog_name n ∧ f = join dir n)
                         ∨ (∃ sub, e = Directory sub ∧ listed join (join dir n) e f))).
    { split.
      - intros H. inversion H as [? ? n Hn Hv|? ? n sub ? Hn Hsub]; subst.
        + exists n, RegularFile. split; [done|]. by left.
        + exists n, (Directory sub). split; [done|]. right. by exists sub.
      - intros (n & e & Hn & [(-> & Hv & ->)|(sub & -> & Hsub)]).
        + by apply listed_here.
        + by eapply listed_below. }
    rewrite Hin. clear Hin. revert files.
    induction IH as [|[n e] es He _ IHes]; intros files.
    { intros [= <-]. split; [by intros ?%elem_of_nil|].
      by intros (? & ? & ?%elem_of_nil & _). }
    simpl in He.
    assert (Hfound : ∀ found fs,
              found = match e with
                      | Directory _ => walk join (join dir n) e
                      | RegularFile =>
                          Ok (if Chars.endsWith ".v" n || Chars.endsWith ".sv" n
                              then [join dir n] else [])
                      | Special => Ok []
                      end →
              found = Ok fs →
              f ∈ fs ↔ (e = RegularFile ∧ verilog_name n ∧ f = join dir n)
                       ∨ (∃ sub, e = Directory sub ∧ listed join (join dir n) e f)).
    { intros found fs -> Hfs. destruct e as [|sub|].
      - injection Hfs as <-. destruct (_ || _) eqn:Ev.
        + apply verilog_name_spec in Ev. rewrite list_elem_of_singleton. split.
          * intros ->. by left.
          * intros [(_ & _ & ->)|(? & ? & _)]; done.
        + split; [by intros ?%elem_of_nil|].
          intros [(_ & Hv%verilog_name_spec & _)|(? & ? & _)]; [congruence | done].
      - rewrite (He _ _ f Hfs). split; [intros ?; right; by exists sub|].
        intros [(? & _)|(? & _ & ?)]; done.
      - injection Hfs as <-. split; [by intros ?%elem_of_nil|].
        intros [(? & _)|(? & ? & _)]; done. }
    match goal with |- (?found ≫= _) = _ → _ =>
      pose proof (fun fs => Hfound found fs eq_refl) as Hf; clear Hfound;
      destruct found as [fs|] end; cbn [mbind result_bind]; [|done].
    specialize (Hf fs eq_refl).
    match goal with |- (?more ≫= _) = _ → _ => destruct more as [ms|] eqn:Em end;
      cbn [mbind result_bind]; [|done].
    intros [= <-]. rewrite elem_of_app, Hf, (IHes ms eq_refl). split.
    + intros [Hhere|(n' & e' & Hn' & Hrest)].
      * exists n, e. split; [by left | done].
      * exists n', e'. split; [by right | done].
    + intros (n' & e' & [[= -> ->]|Hn']%elem_of_cons & Hrest); [by left|].
      right. by exists n', e'.
Qed.

(** When [getFilesToAnalyze] throws. *)
Lemma getFilesToAnalyze_Thrown env params :
  getFilesToAnalyze env params = Thrown
  ↔ p_recursive params = true
    ∧ (stat env (p_filepath params) = Thrown
       ∨ ∃ d, stat env (p_filepath params) = Ok d ∧ unreadable d).
Proof.
  unfold getFilesToAnalyze. destruct (p_recursive params); simpl.
  - destruct (stat env (p_filepath params)) as [d|]; cbn [mbind result_bind].
    + assert (Hd : match d with
                   | Directory _ => walk (path_join env) (p_filepath params) d
                   | _ => Ok [p_filepath params]
                   end = Thrown ↔ unreadable d).
      { destruct d; [done | apply walk_throws | done]. }
      rewrite Hd. split.
      * intros Hu. split; [done|]. right. by exists d.
      * intros [_ [?|(d' & [= <-] & Hu)]]; done.
    + split; [|done]. intros _. split; [done | by left].
  - split; [done | by intros [? _]].
Qed.

Lemma processResult_listed env params files :
  getFilesToAnalyze env params = Ok files →
  processResult env params = processFiles (p_analysis_type params) (answered env files).
Proof. intros H. unfold processResult. by rewrite H. Qed.

Lemma processFiles_aggregate t files :
  t = at_registers ∨ t = at_all →
  processFiles t files = aggregate (collect files).1 (collect files).2.
Proof. intros Ht. unfold processFiles. destruct (collect files). by destruct Ht as [-> | ->]. Qed.

Lemma elem_of_answered env files filepath w :
  (filepath, w) ∈ answered env files → filepath ∈ files ∧ w = answers env filepath.
Proof.
  unfold answered. intros (p & [= -> ->] & Hin)%list_elem_of_fmap. done.
Qed.

End ListingFacts.

(** ** The tree queries *)

Module QueryFacts.
Import Query.

(** Induction over a tree and the children of its nodes. *)
Lemma Syntax_forall_ind (P : Syntax → Prop) :
  (∀ l, P (Leaf l)) →
  (∀ tag cs, Forall P cs → P (Node tag cs)) →
  ∀ t, P t.
Proof.
  intros HL HN. fix IH 1. intros [tag cs|l]; [|apply HL].
  apply HN. induction cs as [|c cs IHcs]; constructor; [apply IH | exact IHcs].
Qed.

Lemma head_flat_map {A B} (f : A → list B) (x : A) (xs : list A) :
  head (flat_map f (x :: xs))
  = match head (f x) with Some y => Some y | None => head (flat_map f xs) end.
Proof. simpl. by destruct (f x). Qed.

Lemma findFirst_head node : ∀ tag,
  findFirstNodeByTag node tag = head (findNodesByTag node tag).
Proof.
  induction node as [l|t cs IH] using Syntax_forall_ind; intros tag; [done|].
  cbn [findFirstNodeByTag findNodesByTag].
  destruct (decide (t = tag)); [done|]. rewrite app_nil_l.
  induction IH as [|c cs Hc _ IHcs]; [done|].
  rewrite head_flat_map, <- Hc, <- IHcs.
  by destruct (findFirstNodeByTag c tag).
Qed.

Lemma elem_of_flat_map {A B} (f : A → list B) (xs : list A) (y : B) :
  y ∈ flat_map f xs ↔ ∃ x, x ∈ xs ∧ y ∈ f x.
Proof.
  induction xs as [|x xs IH]; simpl.
  - split; [by intros ?%elem_of_nil | by intros (x & ?%elem_of_nil & _)].
  - rewrite elem_of_app, IH. split.
    + intros [?|(x' & ? & ?)]; [exists x | exists x']; split; try done;
        [by left | by right].
    + intros (x' & [->|?]%elem_of_cons & ?); [by left | right; by exists x'].
Qed.

Lemma findNodes_tagged node : ∀ tag n,
  n ∈ findNodesByTag node tag → ∃ cs, n = Node tag cs.
Proof.
  induction node as [l|t cs IH] using Syntax_forall_ind; intros tag n.
  - by intros ?%elem_of_nil.
  - cbn [findNodesByTag]. rewrite elem_of_app, elem_of_flat_map.
    intros [Hn|(c & Hc & Hn)].
    + destruct (decide (t = tag)) as [<-|]; [|by apply elem_of_nil in Hn].
      apply list_elem_of_singleton in Hn as ->. by eexists.
    + rewrite Forall_forall in IH. by apply (IH c Hc tag n).
Qed.

Lemma sublist_flat_map {A B} (f : A → list B) (xs : list A) (x : A) :
  x ∈ xs → f x `sublist_of` flat_map f xs.
Proof.
  induction xs as [|x' xs IH]; [by intros ?%elem_of_nil|].
  intros [->|Hx]%elem_of_cons; simpl.
  - by apply sublist_inserts_r.
  - apply sublist_inserts_l. by apply IH.
Qed.

(** The leaves of a node that a search returns are leaves of the tree
    that was searched, in the same order. *)
Lemma findNodes_leaves node : ∀ tag n,
  n ∈ findNodesByTag node tag → getAllLeaves n `sublist_of` getAllLeaves node.
Proof.
  induction node as [l|t cs IH] using Syntax_forall_ind; intros tag n.
  - by intros ?%elem_of_nil.
  - cbn [findNodesByTag]. rewrite elem_of_app, elem_of_flat_map.
    intros [Hn|(c & Hc & Hn)].
    + destruct (decide (t = tag)); [|by apply elem_of_nil in Hn].
      by apply list_elem_of_singleton in Hn as ->.
    + rewrite Forall_forall in IH. etrans; [by apply (IH c Hc tag n)|].
      cbn [getAllLeaves]. by apply sublist_flat_map.
Qed.

(** A search inside a node that a search returned finds nodes of the
    tree. *)
Lemma findNodes_trans node : ∀ tag tag' n m,
  n ∈ findNodesByTag node tag → m ∈ findNodesByTag n tag' →
  m ∈ findNodesByTag node tag'.
Proof.
  induction node as [l|t cs IH] using Syntax_forall_ind; intros tag tag' n m.
  - by intros ?%elem_of_nil.
  - cbn [findNodesByTag]. rewrite elem_of_app, elem_of_flat_map.
    intros [Hn|(c & Hc & Hn)] Hm.
    + destruct (decide (t = tag)); [|by apply elem_of_nil in Hn].
      by apply list_elem_of_singleton in Hn as ->.
    + rewrite Forall_forall in IH. rewrite elem_of_app, elem_of_flat_map.
      right. exists c. split; [done|]. by apply (IH c Hc tag tag' n m).
Qed.

End QueryFacts.

(** ** Line numbers *)

Module LineNumberFacts.
Import Chars Extract Shape.

Lemma newlines_le content : ∀ n, newlines content n ≤ n.
Proof.
  induction content as [|c rest IH]; intros [|n]; simpl; try lia.
  specialize (IH n). destruct (code c =? 10); lia.
Qed.

Lemma newlines_mono content : ∀ n m, n ≤ m → newlines content n ≤ newlines content m.
Proof.
  induction content as [|c rest IH]; intros [|n] [|m] H; simpl; try lia.
  specialize (IH n m). destruct (code c =? 10); lia.
Qed.

Lemma newlines_past_end content : ∀ n,
  String.length content ≤ n → newlines content n = line_feeds content.
Proof.
  unfold line_feeds.
  induction content as [|c rest IH]; intros [|n] H; simpl in *; try lia; try done.
  rewrite (IH n) by lia. done.
Qed.

Lemma newlines_app a b : ∀ k,
  newlines (a +:+ b) (String.length a + k) = line_feeds a + newlines b k.
Proof.
  unfold line_feeds. induction a as [|c a IH]; intros k; simpl; [done|].
  rewrite IH. lia.
Qed.

End LineNumberFacts.

(** ** The groups of a matched line *)

Module MatchFacts.
Import Chars Number Line Parse Shape.

Lemma span_spec p s a b :
  span p s = (a, b) → all_chars p a = true ∧ s = a +:+ b.
Proof.
  revert a b. induction s as [|c s IH]; intros a b; simpl.
  - by intros [= <- <-].
  - destruct (p c) eqn:E; [|by intros [= <- <-]].
    destruct (span p s) as [a' b'] eqn:Es. intros [= <- <-].
    destruct (IH a' b' eq_refl) as [Ha ->]. simpl. by rewrite E, Ha.
Qed.








Ltac open_span H :=
  match goal with
  | |- context [span ?p ?s] =>
      let a := fresh "a" in let b := fresh "b" in
      destruct (span p s) as [a b] eqn:H
  end.

Ltac open_expect :=
  match goal with
  | |- context [expect ?l ?s] =>
      let r := fresh "r" in let E := fresh "E" in
      destruct (expect l s) as [r|] eqn:E; cbn [mbind option_bind]; [|done]
  end.


Lemma nodeMatch_groups line ws tag :
  nodeMatch line = Some (ws, tag) →
  all_chars is_space ws = true ∧ tag ≠ "" ∧ all_chars is_word tag = true.
Proof.
  unfold nodeMatch.
  open_span Hws. open_expect. open_span Hds. case_decide; [done|].
  open_expect. open_span Htag. case_decide; [done|]. open_expect.
  intros [= <- <-].
  apply span_spec in Hws as [? _]. apply span_spec in Htag as [? _]. done.
Qed.

(** No line matches both patterns. *)
Lemma nodeMatch_not_leaf line ws tag :
  nodeMatch line = Some (ws, tag) → leafMatch line = None.
Proof.
  unfold nodeMatch, leafMatch.
  destruct (span is_space line) as [a b].
  destruct (expect "Node @" b) as [r|] eqn:E; cbn [mbind option_bind];
    [|intros H; discriminate H].
  intros _. destruct b as [|c b]; [simpl in E; discriminate E|].
  destruct (decide (c = "N"%char)) as [->|Hc]; [reflexivity|].
  exfalso. destruct c as [[] [] [] [] [] [] [] []]; simpl in E;
    solve [discriminate E | done].
Qed.


Lemma read_node_tag line w tag :
  read line = Some (ENode w tag) → tag ≠ "" ∧ all_chars is_word tag = true.
Proof.
  unfold read. destruct (nodeMatch line) as [[ws tag']|] eqn:E.
  - intros [= <- <-]. by destruct (nodeMatch_groups _ _ _ E) as (_ & ? & ?).
  - by destruct (leafMatch line).
Qed.

End MatchFacts.

(** ** Reading a dump line by line *)

Module EventFacts.
Import Chars Number Line Parse ParseInv Shape Query.
Import ParseFacts QueryFacts MatchFacts.

Lemma step_read st line :
  step st line = match read line with Some ev => on_event st ev | None => Ok st end.
Proof.
  unfold step, read. destruct (nodeMatch line) as [[ws tag]|]; [done|].
  by destruct (leafMatch line).
Qed.

Lemma run_read lines : ∀ st, run st lines = run_events st (omap read lines).
Proof.
  induction lines as [|line rest IH]; intros st; [done|].
  cbn [run]. rewrite step_read.
  change (omap read (line :: rest))
    with (match read line with Some y => y :: omap read rest | None => omap read rest end).
  destruct (read line) as [ev|]; [|apply IH].
  cbn [run_events]. destruct (on_event st ev); [apply IH | done].
Qed.

Lemma run_events_app evs1 evs2 st :
  run_events st (evs1 ++ evs2) = (st' ← run_events st evs1; run_events st' evs2).
Proof.
  revert st; induction evs1 as [|ev evs1 IH]; intros st; [done|].
  simpl. destruct (on_event st ev); simpl; [apply IH | done].
Qed.

(** Popping to the level of an open node leaves that node on top. *)
Lemma pop_to_base extra base :
  pop_to (2 * length base) (extra ++ base) = base.
Proof.
  induction extra as [|a extra IH]; [by apply pop_to_deep|].
  cbn [app pop_to].
  destruct (Nat.ltb_spec (2 * length base) (2 * length (a :: extra ++ base))) as [_|H];
    [done|].
  rewrite length_cons, length_app in H. lia.
Qed.

(** *** The leaves of the result *)







End EventFacts.

(** ** A dump printed in pre-order is read back *)

Module RoundTrip.
Import Chars Number Line Parse ParseInv Shape Query.
Import ParseFacts QueryFacts MatchFacts EventFacts.

Lemma all2_impl {A B} (R R' : A → B → Prop) xs : ∀ ys,
  Forall (fun x => ∀ y, R x y → R' x y) xs → all2 R xs ys → all2 R' xs ys.
Proof.
  induction xs as [|x xs IH]; intros [|y ys] Hall; simpl; try done.
  apply Forall_cons in Hall as [Hx Hxs]. intros [? ?]. split; [by apply Hx | by apply IH].
Qed.

Lemma repr_lo h t lo lo' c : lo' ≤ lo → repr h t lo c → repr h t lo' c.
Proof.
  intros Hlo. destruct t as [tag ts|l]; simpl; [|done].
  intros (j & cl & -> & Hj & Hcl & Htag & Hcs).
  exists j, cl. repeat split; try done. lia.
Qed.

(** A tree in the store stays what it is when the cells from [lo] on
    are left as they are. *)
Lemma repr_stable t : ∀ h h' lo c,
  (∀ i, lo ≤ i → i < length h → h' !! i = h !! i) →
  repr h t lo c → repr h' t lo c.
Proof.
  induction t as [l|tag ts IH] using Syntax_forall_ind; intros h h' lo c Hsame; [done|].
  cbn [repr]. intros (j & cl & -> & Hj & Hcl & Htag & Hcs).
  exists j, cl. split; [done|]. split; [done|]. split.
  { rewrite Hsame; [done | done | by eapply lookup_lt_Some]. }
  split; [done|].
  eapply all2_impl; [|exact Hcs].
  eapply Forall_impl; [exact IH|]. simpl. intros t' Ht' c'.
  apply Ht'. intros i Hi Hlen. apply Hsame; [lia | done].
Qed.

Lemma build_drop h : ∀ b i, drop i (build b h) = build (b + i) (drop i h).
Proof.
  induction h as [|c h IH]; intros b [|i]; simpl; try done.
  - by rewrite Nat.add_0_r.
  - rewrite IH. f_equal. lia.
Qed.

Lemma build_lookup b h i cl :
  h !! i = Some cl →
  build b h !! i
  = Some (Node (cell_tag cl)
            <$> mapM (resolve (b + i) (drop (S i) (build b h))) (cell_children cl)).
Proof.
  intros Hi.
  assert (Hd : drop i (build b h) = build (b + i) (cl :: drop (S i) h)).
  { rewrite build_drop. f_equal. by apply drop_S. }
  cbn [build] in Hd.
  rewrite <- (Nat.add_0_r i) at 1. rewrite <- lookup_drop, Hd. cbn [lookup list_lookup].
  do 4 f_equal. rewrite build_drop. f_equal. lia.
Qed.

Lemma repr_build t : ∀ h lo j,
  repr h t lo (CNode j) → build 0 h !! j = Some (Some t).
Proof.
  induction t as [l|tag ts IH] using Syntax_forall_ind; intros h lo j; [done|].
  cbn [repr]. intros (j' & cl & [= <-] & _ & Hcl & <- & Hcs).
  rewrite (build_lookup 0 h j cl Hcl). do 2 f_equal.
  cut (mapM (resolve (0 + j) (drop (S j) (build 0 h))) (cell_children cl) = Some ts).
  { by intros ->. }
  apply mapM_Some_2. revert Hcs. generalize (cell_children cl) as cs.
  induction IH as [|t' ts' Ht' _ IHts]; intros [|c' cs'] Hcs; simpl in Hcs; try done.
  destruct Hcs as [Hc' Hcs']. constructor; [|by apply IHts].
  destruct t' as [tag' ts''|l'].
  - pose proof Hc' as Hc''. cbn [repr] in Hc''.
    destruct Hc'' as (k & cl' & -> & Hk & _). simpl.
    rewrite decide_True by lia. rewrite lookup_drop.
    replace (S j + (k - S j)) with k by lia.
    by rewrite (Ht' h (S j) k Hc').
  - simpl in Hc'. by subst.
Qed.

Lemma node_at_under st extra p B cl tag :
  stack st = extra ++ p :: B → heap st !! p = Some cl →
  node_at st (2 * length (p :: B)) tag
  = Ok (mkState
          (<[p := mkCell (cell_tag cl) (cell_children cl ++ [CNode (length (heap st))])]>
             (heap st ++ [mkCell tag []]))
          (root st) (length (heap st) :: p :: B)).
Proof.
  intros Hs Hp. unfold node_at. rewrite Hs, pop_to_base.
  unfold push_child. by rewrite (lookup_app_l_Some _ _ _ _ Hp).
Qed.

Lemma leaf_at_under st extra p B cl l :
  stack st = extra ++ p :: B → heap st !! p = Some cl →
  leaf_at st (2 * length (p :: B)) l
  = Ok (mkState (<[p := mkCell (cell_tag cl) (cell_children cl ++ [CLeaf l])]> (heap st))
                (root st) (p :: B)).
Proof.
  intros Hs Hp. unfold leaf_at. rewrite Hs, pop_to_base.
  unfold push_child. by rewrite Hp.
Qed.

Lemma reads_forest ts :
  Forall reads_subtree ts →
  ∀ st extra q B cl,
    stack st = extra ++ q :: B → heap st !! q = Some cl →
    ∃ st' cs extra',
      run_events st (flat_map (preorder (length (q :: B))) ts) = Ok st'
      ∧ stack st' = extra' ++ q :: B
      ∧ root st' = root st
      ∧ length (heap st) ≤ length (heap st')
      ∧ (∀ i, i < length (heap st) → i ≠ q → heap st' !! i = heap st !! i)
      ∧ heap st' !! q = Some (mkCell (cell_tag cl) (cell_children cl ++ cs))
      ∧ all2 (fun t c => repr (heap st') t (length (heap st)) c) ts cs.
Proof.
  induction 1 as [|t ts Ht _ IH]; intros st extra q B cl Hs Hq.
  - exists st, [], extra. simpl. rewrite app_nil_r. by destruct cl.
  - destruct (Ht st extra q B cl Hs Hq)
      as (st1 & c & extra1 & Hrun1 & Hs1 & Hr1 & Hlen1 & Hframe1 & Hq1 & Hrepr1).
    destruct (IH st1 extra1 q B _ Hs1 Hq1)
      as (st' & cs & extra' & Hrun & Hs' & Hr' & Hlen & Hframe & Hq' & Hrepr).
    pose proof (lookup_lt_Some _ _ _ Hq) as Hqlt.
    exists st', (c :: cs), extra'. cbn [flat_map].
    rewrite run_events_app, Hrun1. cbn [mbind result_bind].
    split; [exact Hrun|]. split; [exact Hs'|]. split; [congruence|].
    split; [lia|]. split; [|split].
    + intros i Hi Hne. rewrite Hframe by (done || lia). by apply Hframe1.
    + rewrite Hq'. simpl. by rewrite <- app_assoc.
    + cbn [all2]. split.
      * eapply repr_stable; [|exact Hrepr1].
        intros i Hi Hlt. apply Hframe; [done | lia].
      * eapply all2_impl; [|exact Hrepr].
        apply Forall_forall. intros t' _ c'. by apply repr_lo.
Qed.

Lemma reads_subtree_all t : reads_subtree t.
Proof.
  induction t as [l|tag ts IH] using Syntax_forall_ind;
    intros st extra p B cl Hs Hp; pose proof (lookup_lt_Some _ _ _ Hp) as Hplt.
  - eexists _, (CLeaf l), []. cbn [preorder run_events on_event].
    rewrite (leaf_at_under st extra p B cl l Hs Hp). cbn [mbind result_bind].
    split; [done|]. simpl. split; [done|]. split; [done|].
    rewrite length_insert. split; [done|]. split; [|split; [|done]].
    + intros i _ Hne. by rewrite list_lookup_insert_ne.
    + by rewrite list_lookup_insert_eq.
  - cbn [preorder run_events on_event].
    rewrite (node_at_under st extra p B cl tag Hs Hp). cbn [mbind result_bind].
    set (id := length (heap st)) in *.
    set (h2 := <[p := mkCell (cell_tag cl) (cell_children cl ++ [CNode id])]>
                 (heap st ++ [mkCell tag []])).
    assert (Hlen2 : length h2 = S id).
    { unfold h2. rewrite length_insert, length_app. simpl. lia. }
    assert (Hid : h2 !! id = Some (mkCell tag [])).
    { unfold h2. rewrite list_lookup_insert_ne by lia.
      rewrite lookup_app_r by done. by rewrite Nat.sub_diag. }
    destruct (reads_forest ts IH (mkState h2 (root st) (id :: p :: B)) [] id (p :: B)
                (mkCell tag []) eq_refl Hid)
      as (st' & cs & extra' & Hrun & Hs' & Hr' & Hlen & Hframe & Hq' & Hrepr).
    simpl in Hrun, Hs', Hr', Hlen, Hframe, Hq', Hrepr.
    exists st', (CNode id), (extra' ++ [id]).
    split; [exact Hrun|]. split; [by rewrite <- app_assoc|]. split; [done|].
    split; [lia|]. split; [|split].
    + intros i Hi Hne. rewrite Hframe by lia. unfold h2.
      rewrite list_lookup_insert_ne by done. by rewrite lookup_app_l.
    + rewrite Hframe by lia. unfold h2.
      rewrite list_lookup_insert_eq by (rewrite length_app; simpl; lia). done.
    + cbn [repr]. eexists id, _. split; [done|]. split; [done|].
      split; [exact Hq'|]. split; [done|]. simpl. by rewrite Hlen2 in Hrepr.
Qed.

(** The lines of a tree in pre-order, indented by two spaces for each
    level, with any lines that match neither pattern among them, are
    read back as that tree. *)
Lemma parseLines_preorder lines tag ts :
  omap read lines = preorder 0 (Node tag ts) →
  parseLines lines = Ok (Some (Node tag ts)).
Proof.
  intros Hev. unfold parseLines. rewrite run_read, Hev.
  cbn [preorder run_events on_event]. unfold node_at at 1. simpl pop_to.
  cbn [mbind result_bind].
  assert (Hall : Forall reads_subtree ts).
  { apply Forall_forall. intros t _. apply reads_subtree_all. }
  destruct (reads_forest ts Hall (mkState [mkCell tag []] (Some 0) [0]) [] 0 []
              (mkCell tag []) eq_refl eq_refl)
    as (st' & cs & extra' & Hrun & Hs' & Hr' & Hlen & Hframe & Hq' & Hrepr).
  simpl in Hrun, Hr', Hq', Hrepr. simpl. rewrite Hrun. simpl.
  unfold reify. rewrite Hr'.
  rewrite (repr_build (Node tag ts) (heap st') 0 0); [done|].
  cbn [repr]. eexists 0, _. split; [done|]. split; [done|]. split; [exact Hq'|].
  split; done.
Qed.

End RoundTrip.

(** ** What an analysed file gives *)

Module PipelineFacts.
Import Chars Number Query Extract Classify File Aggregate Views Shape.
Import NumberFacts QueryFacts ExtractFacts ClassifyFacts AggregateFacts LineNumberFacts.

(** A width is never a number below one: it is an integer of one at
    least, the positive infinity, or NaN. *)
Lemma parsePackedDimensions_pos dimNode : below_one (parsePackedDimensions dimNode) = false.
Proof.
  unfold parsePackedDimensions. cbv zeta.
  destruct (List.filter _ _) as [|n0 [|n1 rest]]; try done.
  destruct (_ && _); [apply abs_succ_not_below | done].
Qed.

Lemma decl_width_pos decl : below_one (decl_width decl) = false.
Proof.
  unfold decl_width. destruct (findFirstNodeByTag _ _); [|done].
  apply parsePackedDimensions_pos.
Qed.

Lemma getLineNumber_pos content off : 1 ≤ getLineNumber content off.
Proof. unfold getLineNumber. destruct off as [|[]|]; lia. Qed.

Lemma find_some_elem {A} (f : A → bool) (l : list A) (x : A) :
  List.find f l = Some x → x ∈ l ∧ f x = true.
Proof.
  intros [Hin Hf]%List.find_some. split; [by apply list_elem_of_In | done].
Qed.

Lemma elem_of_list_filter_bool {A} (f : A → bool) (l : list A) (x : A) :
  x ∈ List.filter f l ↔ x ∈ l ∧ f x = true.
Proof. rewrite !list_elem_of_In. apply List.filter_In. Qed.

(** A candidate of a declaration: its width is the width of the
    declaration and its name is the text of an identifier leaf of the
    declaration. *)
Lemma parseDataDeclaration_candidates dataDecl content r :
  r ∈ parseDataDeclaration dataDecl content →
  ∃ leaf, leaf ∈ getAllLeaves dataDecl ∧ is_identifier leaf = true
          ∧ r = candidate content (decl_width dataDecl) leaf.
Proof.
  unfold parseDataDeclaration.
  destruct (_ && _); [by intros ?%elem_of_nil|].
  rewrite register_variables_omap.
  intros (leaf & -> & (regVar & Hreg & Hname)%list_elem_of_omap)%list_elem_of_fmap.
  exists leaf. apply find_some_elem in Hname as [Hin Hid].
  split; [|done].
  pose proof (findNodes_leaves _ _ _ Hreg) as Hsub.
  eapply elem_of_submseteq; [exact Hin | by apply sublist_submseteq].
Qed.

Lemma parsePortDeclaration_candidates portDecl content r :
  r ∈ parsePortDeclaration portDecl content →
  ∃ leaf, leaf ∈ getAllLeaves portDecl ∧ is_identifier leaf = true
          ∧ r = candidate content (decl_width portDecl) leaf.
Proof.
  unfold parsePortDeclaration. destruct (port_scan _ _ _) as [o t].
  destruct (_ || _); [by intros ?%elem_of_nil|].
  intros (leaf & -> & [Hin Hp]%elem_of_list_filter_bool)%list_elem_of_fmap.
  exists leaf. split; [done|]. split; [|done].
  unfold is_port_name in Hp. by apply andb_true_iff in Hp as [? _].
Qed.

Lemma sublist_elem {A} (l1 l2 : list A) (x : A) :
  l1 `sublist_of` l2 → x ∈ l1 → x ∈ l2.
Proof. intros Hsub Hin. eapply elem_of_submseteq; [exact Hin | by apply sublist_submseteq]. Qed.

Lemma findFirst_elem node tag found :
  findFirstNodeByTag node tag = Some found → found ∈ findNodesByTag node tag.
Proof.
  rewrite findFirst_head. destruct (findNodesByTag node tag) as [|n ns]; [done|].
  intros [= <-]. by left.
Qed.

(** The registers of a module: each is owned by the file and the module,
    is classified, has a width that is not below one and a line of one
    at least, and is named by an identifier leaf of the module, on whose
    line it is. *)
Lemma extractRegisters_inv moduleNode filepath moduleName content r :
  r ∈ extractRegistersFromModule moduleNode filepath moduleName content →
  file r = filepath ∧ module r = moduleName
  ∧ below_one (width r) = false ∧ 1 ≤ line r
  ∧ (type r = flip_flop ∨ type r = latch)
  ∧ ∃ leaf, leaf ∈ getAllLeaves moduleNode ∧ leaf_tag leaf = "SymbolIdentifier"
            ∧ name r = text leaf ∧ line r = getLineNumber content (start leaf).
Proof.
  unfold extractRegistersFromModule. rewrite refineRegisters_map.
  intros (r0 & -> & Hr0)%list_elem_of_fmap.
  set (C := clockedSignals _). set (L := latchSignals _).
  destruct (classify_frame C L r0) as (-> & -> & -> & -> & ->).
  rewrite classify_type.
  assert (Hcand : ∃ decl leaf, getAllLeaves decl `sublist_of` getAllLeaves moduleNode
                    ∧ leaf ∈ getAllLeaves decl ∧ is_identifier leaf = true
                    ∧ r0 = owned filepath moduleName
                             (candidate content (decl_width decl) leaf)).
  { apply elem_of_app in Hr0 as [Hr0|Hr0].
    - apply elem_of_flat_map in Hr0 as (decl & Hdecl & Hr0).
      apply list_elem_of_fmap in Hr0 as (r1 & -> & Hr1).
      apply parseDataDeclaration_candidates in Hr1 as (leaf & Hleaf & Hid & ->).
      exists decl, leaf. split; [by eapply findNodes_leaves | done].
    - destruct (findFirstNodeByTag moduleNode "kModuleHeader") as [header|] eqn:Eh;
        [|by apply elem_of_nil in Hr0].
      apply findFirst_elem in Eh.
      apply elem_of_flat_map in Hr0 as (decl & Hdecl & Hr0).
      apply list_elem_of_fmap in Hr0 as (r1 & -> & Hr1).
      apply parsePortDeclaration_candidates in Hr1 as (leaf & Hleaf & Hid & ->).
      exists decl, leaf. split; [|done].
      etrans; [by eapply findNodes_leaves | by eapply findNodes_leaves]. }
  destruct Hcand as (decl & leaf & Hsub & Hleaf & Hid & ->). simpl.
  split; [done|]. split; [done|].
  split; [apply decl_width_pos|]. split; [apply getLineNumber_pos|].
  split; [repeat case_decide; auto|].
  exists leaf. split; [by eapply sublist_elem|].
  unfold is_identifier in Hid. by apply bool_decide_eq_true in Hid.
Qed.

Lemma first_module_name_inv leaves m :
  first_module_name leaves = Some m →
  m ≠ "module" ∧ ∃ leaf, leaf ∈ leaves ∧ leaf_tag leaf = "SymbolIdentifier" ∧ text leaf = m.
Proof.
  induction leaves as [|leaf rest IH]; [done|]. simpl.
  destruct (is_identifier leaf && bool_decide (text leaf ≠ "module")) eqn:E.
  - intros [= <-]. apply andb_true_iff in E as [Hid Hne].
    apply bool_decide_eq_true in Hid, Hne. split; [done|]. exists leaf. by split; [left|].
  - intros [Hm (leaf' & ? & ? & ?)]%IH. split; [done|]. exists leaf'. by split; [right|].
Qed.

(** The result of the loop over the modules: one summary for each module
    with a name, and the registers as one block for each summary, in the
    same order; the block has [registerCount] registers, all of that
    module. *)
Lemma modules_loop_blocks moduleNodes filepath content :
  ∃ blocks,
    (modules_loop moduleNodes filepath content).1 = concat blocks
    ∧ Forall2 (fun m block =>
                 registerCount m = length block
                 ∧ m_name m ≠ "" ∧ m_name m ≠ "module" ∧ m_file m = filepath
                 ∧ 1 ≤ m_line m
                 ∧ Forall (fun r => module r = m_name m ∧ reg_ok filepath r) block)
              (modules_loop moduleNodes filepath content).2 blocks.
Proof.
  induction moduleNodes as [|moduleNode rest IH]; [by exists []|].
  destruct IH as (blocks & Hregs & Hmods). cbn [modules_loop].
  destruct (modules_loop rest filepath content) as [registers modules].
  simpl in Hregs, Hmods.
  destruct (getModuleName moduleNode) as [moduleName|] eqn:En; [|by exists blocks].
  case_decide as Hempty; [by exists blocks|].
  exists (extractRegistersFromModule moduleNode filepath moduleName content :: blocks).
  simpl. split; [by rewrite Hregs|]. constructor; [|done]. simpl.
  split; [done|]. split; [done|]. split.
  { unfold getModuleName in En. destruct (findFirstNodeByTag _ _); [|done].
    by apply first_module_name_inv in En as [? _]. }
  split; [done|]. split.
  { unfold getLineNumberFromNode. destruct (getAllLeaves moduleNode); [lia|].
    apply getLineNumber_pos. }
  apply Forall_forall. intros r Hr.
  apply extractRegisters_inv in Hr as (Hf & Hm & Hw & Hl & Ht & _).
  split; [done|]. split; try done. by rewrite Hm.
Qed.

Lemma blocks_count (mods : list ModuleInfo) (blocks : list (list RegisterInfo)) :
  Forall2 (fun m block => registerCount m = length block) mods blocks →
  count_sum mods = length (concat blocks).
Proof.
  induction 1 as [|m b ms bs Hm _ IH]; [done|].
  simpl. rewrite length_app, IH, Hm. done.
Qed.

Lemma elem_of_concat {A} (x : A) (ls : list (list A)) :
  x ∈ concat ls → ∃ l, x ∈ l ∧ l ∈ ls.
Proof.
  induction ls as [|l ls IH]; simpl; [by intros ?%elem_of_nil|].
  intros [?|(l' & ? & ?)%IH]%elem_of_app; [exists l | exists l']; split; try done;
    [by left | by right].
Qed.

Lemma modules_loop_named moduleNodes filepath content :
  (modules_loop moduleNodes filepath content).2 ≠ [] →
  ∃ n, n ∈ moduleNodes ∧ is_Some (getModuleName n).
Proof.
  induction moduleNodes as [|n rest IH]; [done|]. cbn [modules_loop].
  destruct (modules_loop rest filepath content) as [regs mods]. simpl in IH.
  assert (Hrest : mods ≠ [] → ∃ n0, n0 ∈ n :: rest ∧ is_Some (getModuleName n0)).
  { intros (n0 & ? & ?)%IH. exists n0. by split; [right|]. }
  destruct (getModuleName n) as [m|] eqn:En; [|done].
  intros _. exists n. split; [by left|]. by rewrite En.
Qed.

(** The registers and modules of one analysed file. *)
Lemma analyzeFile_inv w filepath :
  count_sum (analyzeFile w filepath).2 = length (analyzeFile w filepath).1
  ∧ Forall (reg_ok filepath) (analyzeFile w filepath).1
  ∧ (∀ r, r ∈ (analyzeFile w filepath).1 →
          ∃ m, m ∈ (analyzeFile w filepath).2 ∧ m_name m = module r)
  ∧ Forall (fun m => m_name m ≠ "" ∧ m_name m ≠ "module" ∧ m_file m = filepath)
           (analyzeFile w filepath).2.
Proof.
  assert (Hempty : count_sum [] = length (@nil RegisterInfo)
            ∧ Forall (reg_ok filepath) []
            ∧ (∀ r : RegisterInfo, r ∈ [] → ∃ m : ModuleInfo, m ∈ [] ∧ m_name m = module r)
            ∧ Forall (fun m => m_name m ≠ "" ∧ m_name m ≠ "module" ∧ m_file m = filepath) []).
  { repeat split; try constructor. by intros r ?%elem_of_nil. }
  unfold analyzeFile. destruct (executed w) as [res|]; [|exact Hempty].
  case_decide; [exact Hempty|].
  destruct (Parse.parseTreeStructure (stdout res)) as [[tree|]|]; try exact Hempty.
  destruct (contents w) as [content|]; [|exact Hempty].
  destruct (modules_loop_blocks (findNodesByTag tree "kModuleDeclaration") filepath content)
    as (blocks & Hregs & Hmods).
  destruct (modules_loop _ filepath content) as [regs mods]. simpl in *. subst regs.
  split; [|split; [|split]].
  - apply blocks_count. eapply Forall2_impl; [exact Hmods|]. by intros m b [? _].
  - apply Forall_concat. eapply Forall2_Forall_r; [exact Hmods|].
    apply Forall_forall. intros m _ b (_ & _ & _ & _ & _ & Hb).
    eapply Forall_impl; [exact Hb|]. by intros r [_ ?].
  - intros r (b & Hr & Hb)%elem_of_concat.
    apply list_elem_of_lookup in Hb as [i Hi].
    destruct (Forall2_lookup_r _ _ _ _ _ Hmods Hi) as (m & Hm & (_ & _ & _ & _ & _ & Hall)).
    exists m. split; [by eapply list_elem_of_lookup_2|].
    rewrite Forall_forall in Hall. by destruct (Hall r Hr) as [-> _].
  - eapply Forall2_Forall_l; [exact Hmods|].
    apply Forall_forall. intros b _ m (_ & ? & ? & ? & _). done.
Qed.

Lemma count_sum_app a b : count_sum (a ++ b) = count_sum a + count_sum b.
Proof. induction a as [|m a IH]; simpl; [done|]. rewrite IH. lia. Qed.

(** The registers and modules collected from a list of files. *)
Lemma collect_inv files :
  count_sum (collect files).2 = length (collect files).1
  ∧ Forall (fun r => ∃ filepath w, (filepath, w) ∈ files ∧ reg_ok filepath r)
           (collect files).1.
Proof.
  induction files as [|[filepath w] rest [IHc IHr]]; [by split; [|constructor]|].
  cbn [collect]. destruct (collect rest) as [regs mods]. simpl in *.
  destruct (analyzeFile_inv w filepath) as (Hc & Hr & _ & _).
  rewrite count_sum_app, length_app, Hc, IHc. split; [done|].
  apply Forall_app. split.
  - eapply Forall_impl; [exact Hr|]. intros r Hok. exists filepath, w. by split; [left|].
  - eapply Forall_impl; [exact IHr|]. intros r (fp & w' & Hin & Hok).
    exists fp, w'. by split; [right|].
Qed.

Lemma total_width_app a b : total_width (a ++ b) = (total_width a + total_width b)%Z.
Proof. induction a as [|r a IH]; simpl; [done|]. rewrite IH. lia. Qed.

Lemma total_width_ge regs :
  Forall (fun r => ∃ z, width_is r z) regs →
  (Z.of_nat (length regs) ≤ total_width regs)%Z.
Proof.
  induction 1 as [|r regs (z & Hw & Hz) _ IH]; simpl; [lia|].
  unfold bits. rewrite Hw. lia.
Qed.

Lemma sum_widths_app acc a b : sum_widths acc (a ++ b) = sum_widths (sum_widths acc a) b.
Proof. apply foldl_app. Qed.

(** Adding a width to a number that is big leaves it big. *)
Lemma big_add a w : big a → below_one w = false → big (add a w).
Proof.
  destruct a as [|s|x], w as [|s'|y]; simpl; try done.
  - by intros -> ->.
  - intros Hx Hy. apply round_big. destruct (Z.ltb_spec y 1); [done | lia].
Qed.

Lemma sum_widths_big regs : ∀ a,
  big a → Forall (fun r => below_one (width r) = false) regs → big (sum_widths a regs).
Proof.
  induction regs as [|r regs IH]; intros a Ha Hall; [done|].
  apply Forall_cons in Hall as [Hr Hrest]. simpl. apply IH; [by apply big_add | done].
Qed.

(** Widths that are integers, with a sum of 2^53 at most, are added up
    without rounding. *)
Lemma sum_widths_exact regs : ∀ acc,
  Forall (fun r => ∃ z, width_is r z) regs →
  (0 ≤ acc)%Z → (acc + total_width regs ≤ 2 ^ 53)%Z →
  sum_widths (Finite acc) regs = Finite (acc + total_width regs).
Proof.
  induction regs as [|r regs IH]; intros acc Hall Hacc Hsum.
  - simpl. f_equal. lia.
  - apply Forall_cons in Hall as [(z & Hw & Hz) Hrest].
    pose proof (total_width_ge regs Hrest) as Hge.
    cbn [total_width foldr] in Hsum. fold (total_width regs) in Hsum.
    cbn [sum_widths foldl total_width foldr]. fold (total_width regs).
    unfold bits in *. rewrite Hw in *. simpl.
    rewrite round_exact by lia.
    fold (sum_widths (Finite (acc + z)) regs).
    rewrite IH by (done || lia). f_equal. lia.
Qed.

(** A sum of widths that is an integer below 2^53 was added up without
    rounding: every width is an integer, and the sum is theirs. *)
Lemma sum_widths_small regs : ∀ acc total,
  Forall (fun r => below_one (width r) = false) regs → (0 ≤ acc)%Z →
  sum_widths (Finite acc) regs = Finite total → (total < 2 ^ 53)%Z →
  Forall (fun r => ∃ z, width_is r z) regs ∧ total = (acc + total_width regs)%Z.
Proof.
  induction regs as [|r regs IH]; intros acc total Hall Hacc Hsum Htotal.
  - simpl in Hsum. injection Hsum as <-. split; [constructor | simpl; lia].
  - apply Forall_cons in Hall as [Hr Hrest].
    cbn [sum_widths foldl] in Hsum.
    fold (sum_widths (add (Finite acc) (width r)) regs) in Hsum.
    assert (Hbig : big (add (Finite acc) (width r)) → False).
    { intros Hb. pose proof (sum_widths_big regs _ Hb Hrest) as Hb'.
      rewrite Hsum in Hb'. simpl in Hb'. lia. }
    destruct (width r) as [|s|z] eqn:Hw; simpl in Hr, Hsum, Hbig.
    + by destruct Hbig.
    + by destruct Hbig.
    + assert (1 ≤ z)%Z by (destruct (Z.ltb_spec z 1); [done | lia]).
      destruct (Z_lt_le_dec (acc + z) (2 ^ 53)) as [Hlt|Hge].
      * rewrite round_exact in Hsum by lia.
        destruct (IH (acc + z)%Z total Hrest ltac:(lia) Hsum Htotal) as [Hf ->].
        split; [constructor; [by exists z | done]|].
        cbn [total_width foldr]. fold (total_width regs). unfold bits. rewrite Hw. lia.
      * destruct Hbig. by apply round_big.
Qed.

Lemma count_type_split regs :
  count_type flip_flop regs + count_type latch regs + count_type potential_register regs
  = length regs.
Proof.
  unfold count_type. induction regs as [|r regs IH]; [done|].
  rewrite !filter_cons. destruct (type r); repeat case_decide; try done; simpl; lia.
Qed.

Lemma count_type_none t regs :
  Forall (fun r => type r ≠ t) regs → count_type t regs = 0.
Proof.
  unfold count_type. induction 1 as [|r regs Hr _ IH]; [done|].
  rewrite filter_cons. by case_decide.
Qed.

(** The views of a successful aggregation, by key. *)
Lemma aggregate_views_key regs mods data :
  aggregate regs mods = Success data →
  registers data = regs
  ∧ totalRegisters data = length regs
  ∧ totalBits data = sum_widths (Finite 0) regs
  ∧ modules data = Some mods
  ∧ (∀ t, default 0 (byType data !! type_name t) = count_type t regs)
  ∧ (∀ m, default [] (byModule data !! m) = of_module m regs)
  ∧ (∀ m, byModule data !! m = None ↔ of_module m regs = []).
Proof.
  intros Hok.
  assert (Hno : Forall (fun r => ¬ inherited (module r)) regs).
  { apply (not_Exists_Forall _). intros Hex%(aggregate_failure_iff regs mods). congruence. }
  destruct (aggregate_views regs mods Hno)
    as (data' & Hdata & Hr & Hn & Hb & Hm & HT & _ & HM).
  assert (data' = data) as -> by congruence.
  do 4 (split; [done|]). split; [|split].
  - intros t. rewrite HT. by case_decide.
  - intros m. rewrite HM. by case_decide as E; [rewrite E|].
  - intros m. rewrite HM. by case_decide.
Qed.

End PipelineFacts.

(** ** More on the classification *)

Module ClassifyMore.
Import Chars Query Extract Classify File Shape.
Import QueryFacts ClassifyFacts PipelineFacts.

(** The two sets depend on which blocks there are, not on their order
    or on how often a block occurs. *)
Lemma signal_sets_ext a a' :
  (∀ b, b ∈ a ↔ b ∈ a') →
  clockedSignals a = clockedSignals a' ∧ latchSignals a = latchSignals a'.
Proof.
  intros Hsame. split; apply set_eq; intros x.
  - rewrite !clockedSignals_spec. split; intros (b & Hb & ?); exists b;
      (split; [by apply Hsame | done]).
  - rewrite !latchSignals_spec. split; intros (b & Hb & ?); exists b;
      (split; [by apply Hsame | done]).
Qed.

Lemma refineRegisters_ext a a' registers :
  (∀ b, b ∈ a ↔ b ∈ a') → refineRegisters a registers = refineRegisters a' registers.
Proof.
  intros Hsame. rewrite !refineRegisters_map.
  by destruct (signal_sets_ext a a' Hsame) as [-> ->].
Qed.

Lemma classify_idem C L r : classify C L (classify C L r) = classify C L r.
Proof. unfold classify. simpl. repeat case_decide; simpl in *; done. Qed.

Lemma refineRegisters_idem a registers :
  refineRegisters a (refineRegisters a registers) = refineRegisters a registers.
Proof.
  rewrite !refineRegisters_map, <- list_fmap_compose.
  apply list_fmap_ext. intros i r _. apply classify_idem.
Qed.

Lemma first_identifier_inv leaves x :
  first_identifier leaves = Some x →
  ∃ leaf, leaf ∈ leaves ∧ leaf_tag leaf = "SymbolIdentifier" ∧ text leaf = x.
Proof.
  induction leaves as [|leaf rest IH]; [done|]. simpl.
  destruct (is_identifier leaf) eqn:E.
  - intros [= <-]. apply bool_decide_eq_true in E. exists leaf. by split; [left|].
  - intros (leaf' & ? & ?)%IH. exists leaf'. by split; [right|].
Qed.

Lemma assigned_of_inv nodes x :
  x ∈ assigned_of nodes →
  ∃ a leaf, a ∈ nodes ∧ leaf ∈ getAllLeaves a
            ∧ leaf_tag leaf = "SymbolIdentifier" ∧ text leaf = x.
Proof.
  induction nodes as [|a rest IH]; simpl; [by intros ?%elem_of_nil|].
  assert (Hrest : x ∈ assigned_of rest →
            ∃ a0 leaf, a0 ∈ a :: rest ∧ leaf ∈ getAllLeaves a0
                       ∧ leaf_tag leaf = "SymbolIdentifier" ∧ text leaf = x).
  { intros (a0 & leaf & ? & ?)%IH. exists a0, leaf. by split; [right|]. }
  destruct (findFirstNodeByTag a "kLPValue") as [lhs|] eqn:El; [|done].
  destruct (first_identifier (getAllLeaves lhs)) as [signal|] eqn:Es; [|done].
  intros [->|?]%elem_of_cons; [|by apply Hrest].
  apply first_identifier_inv in Es as (leaf & Hleaf & Htag & Htext).
  exists a, leaf. split; [by left|]. split; [|done].
  eapply sublist_elem; [|exact Hleaf].
  eapply findNodes_leaves. by apply findFirst_elem.
Qed.

(** A signal that a block assigns is the text of an identifier leaf of
    the block. *)
Lemma findAssignedSignals_leaf node x :
  x ∈ findAssignedSignals node →
  ∃ leaf, leaf ∈ getAllLeaves node ∧ leaf_tag leaf = "SymbolIdentifier" ∧ text leaf = x.
Proof.
  unfold findAssignedSignals.
  intros (a & leaf & Ha & Hleaf & Htag & Htext)%assigned_of_inv.
  exists leaf. split; [|done].
  eapply sublist_elem; [|exact Hleaf].
  rewrite !elem_of_app in Ha. destruct Ha as [Ha|[Ha|Ha]]; by eapply findNodes_leaves.
Qed.

(** A block counts as clocked only if one of its leaves reads [posedge]
    or [negedge]. *)
Lemma hasClockEdge_leaf a :
  hasClockEdge a = true →
  ∃ leaf, leaf ∈ getAllLeaves a ∧ (text leaf = "posedge" ∨ text leaf = "negedge").
Proof.
  unfold hasClockEdge. rewrite existsb_exists.
  intros (ev & Hev%list_elem_of_In & Hedge). unfold has_edge_leaf in Hedge.
  apply existsb_exists in Hedge as (leaf & Hleaf%list_elem_of_In & Ht).
  exists leaf. split.
  - eapply sublist_elem; [|exact Hleaf]. by eapply findNodes_leaves.
  - apply orb_true_iff in Ht as [Ht|Ht]; apply bool_decide_eq_true in Ht; auto.
Qed.

End ClassifyMore.

(** ** The nodes of the result *)

Module NodeFacts.
Import Chars Number Line Parse ParseInv Shape Query.
Import ParseFacts QueryFacts MatchFacts EventFacts.

(** The pops depend on the whole part of half the white space only: an
    odd number of spaces counts as the even number below it. *)
Lemma pop_to_half w w' s : w / 2 = w' / 2 → pop_to w s = pop_to w' s.
Proof.
  intros Hhalf.
  pose proof (Nat.div_mod_eq w 2). pose proof (Nat.mod_upper_bound w 2).
  pose proof (Nat.div_mod_eq w' 2). pose proof (Nat.mod_upper_bound w' 2).
  induction s as [|a s IH]; [done|]. cbn [pop_to]. rewrite IH.
  destruct (Nat.ltb_spec w (2 * length (a :: s))),
           (Nat.ltb_spec w' (2 * length (a :: s))); try done; lia.
Qed.

Lemma on_event_half st w w' :
  w / 2 = w' / 2 →
  (∀ tag, on_event st (ENode w tag) = on_event st (ENode w' tag))
  ∧ (∀ l, on_event st (ELeaf w l) = on_event st (ELeaf w' l)).
Proof.
  intros Hhalf. split; intros x; simpl; unfold node_at, leaf_at;
    by rewrite (pop_to_half w w' _ Hhalf).
Qed.

Lemma push_child_tags Q h p c h' :
  cells_tags Q h → push_child h p c = Ok h' → cells_tags Q h'.
Proof.
  intros Hh (cl & Hcl & ->)%push_child_inv i c' Hi.
  destruct (decide (i = p)) as [->|Hne].
  - rewrite list_lookup_insert_eq in Hi by (by eapply lookup_lt_Some).
    simplify_eq. simpl. by apply (Hh p cl).
  - rewrite list_lookup_insert_ne in Hi by done. by apply (Hh i c').
Qed.

Lemma cells_tags_alloc Q h tag :
  cells_tags Q h → Q tag → cells_tags Q (h ++ [mkCell tag []]).
Proof.
  intros Hh Htag i c Hi. apply lookup_app_Some in Hi as [Hi|[_ Hi]].
  - by apply (Hh i c).
  - destruct (i - length h); simpl in Hi; [|by rewrite lookup_nil in Hi].
    by simplify_eq.
Qed.

Lemma on_event_tags Q st ev st' :
  cells_tags Q (heap st) → (∀ w tag, ev = ENode w tag → Q tag) →
  on_event st ev = Ok st' → cells_tags Q (heap st').
Proof.
  intros Hh Hev. destruct ev as [w tag|w l]; simpl.
  - pose proof (Hev w tag eq_refl) as Htag.
    unfold node_at. destruct (pop_to w (stack st)) as [|p stk].
    + intros [= <-]. simpl. by apply cells_tags_alloc.
    + destruct (push_child _ p _) as [h'|] eqn:E; [|done]. intros [= <-]. simpl.
      eapply push_child_tags; [by apply cells_tags_alloc | exact E].
  - unfold leaf_at. destruct (pop_to w (stack st)) as [|p stk].
    + by intros [= <-].
    + destruct (push_child _ p _) as [h'|] eqn:E; [|done]. intros [= <-]. simpl.
      by eapply push_child_tags.
Qed.

Lemma run_events_tags Q evs : ∀ st st',
  cells_tags Q (heap st) → (∀ w tag, ENode w tag ∈ evs → Q tag) →
  run_events st evs = Ok st' → cells_tags Q (heap st').
Proof.
  induction evs as [|ev evs IH]; intros st st' Hh Hev; simpl.
  - by intros [= <-].
  - destruct (on_event st ev) as [st1|] eqn:E; [|done]. simpl.
    apply IH.
    + eapply on_event_tags; [done | | exact E].
      intros w tag ->. apply (Hev w). by left.
    + intros w tag Hin. apply (Hev w). by right.
Qed.

Lemma build_tags Q h : ∀ b i t tag,
  cells_tags Q h → build b h !! i = Some (Some t) →
  findNodesByTag t tag ≠ [] → Q tag.
Proof.
  induction h as [|c h IH]; intros b i t tag Hh Hi;
    [simpl in Hi; by rewrite lookup_nil in Hi|].
  assert (Hh' : cells_tags Q h).
  { intros j c' Hj. by apply (Hh (S j) c'). }
  destruct i as [|i]; [|by apply (IH (S b) i t tag Hh')].
  cbn [build lookup list_lookup] in Hi.
  destruct (mapM _ _) as [ks|] eqn:E; [|done]. simpl in Hi. simplify_eq.
  apply mapM_Some_1 in E. cbn [findNodesByTag].
  destruct (decide (cell_tag c = tag)) as [<-|Hne]; [intros _; by apply (Hh 0 c)|].
  rewrite app_nil_l. intros Hfound.
  destruct (flat_map _ ks) as [|n ns] eqn:En; [done|]. clear Hfound.
  assert (Hn : n ∈ flat_map (fun c => findNodesByTag c tag) ks) by (rewrite En; by left).
  apply elem_of_flat_map in Hn as (k & Hk & Hn). clear En.
  induction E as [|ch k' chs ks' Hres _ IHE]; [by apply elem_of_nil in Hk|].
  apply elem_of_cons in Hk as [->|Hk]; [|by apply IHE].
  destruct ch as [j|l']; simpl in Hres.
  - case_decide; [|done].
    destruct (build (S b) h !! (j - S b)) as [[t'|]|] eqn:Et; simplify_eq/=.
    apply (IH (S b) _ _ tag Hh' Et). intros Hnil. rewrite Hnil in Hn.
    by apply elem_of_nil in Hn.
  - simplify_eq. simpl in Hn. by apply elem_of_nil in Hn.
Qed.

(** A tag that is found in the result is the tag of a node line of the
    dump. *)
Lemma parseLines_tags lines t tag :
  parseLines lines = Ok (Some t) → findNodesByTag t tag ≠ [] →
  ∃ line ws, line ∈ lines ∧ nodeMatch line = Some (ws, tag).
Proof.
  unfold parseLines. rewrite run_read.
  destruct (run_events init (omap read lines)) as [st|] eqn:E; [|done]. simpl.
  set (Q := fun tag => ∃ line ws, line ∈ lines ∧ nodeMatch line = Some (ws, tag)).
  assert (Hcells : cells_tags Q (heap st)).
  { eapply run_events_tags; [| |exact E].
    - intros i c Hi. simpl in Hi. by rewrite lookup_nil in Hi.
    - intros w tag' (line & Hline & Hread)%list_elem_of_omap.
      unfold read in Hread. destruct (nodeMatch line) as [[ws tag'']|] eqn:En.
      + simplify_eq. by exists line, ws.
      + by destruct (leafMatch line). }
  unfold reify. destruct (root st) as [r|]; [|done].
  destruct (build 0 (heap st) !! r) as [[t'|]|] eqn:Et; simpl; try done.
  intros [= <-]. by apply (build_tags Q (heap st) 0 r).
Qed.

End NodeFacts.

(** * Further properties, by function *)

Module Extras.
Import Chars Number Line Parse Query Extract Classify File Listing Aggregate.
Import ParseInv Views Samples Shape Inputs.
Import NumberFacts ParseFacts ExtractFacts ClassifyFacts AggregateFacts ListingFacts.
Import QueryFacts LineNumberFacts MatchFacts EventFacts RoundTrip PipelineFacts.
Import ClassifyMore NodeFacts.

(** X1. [findFirstNodeByTag] returns the first node that [findNodesByTag]
    returns, and [null] exactly when that list is empty. *)
Theorem findFirstNodeByTag_is_head (node : Syntax) (tag : string) :
  findFirstNodeByTag node tag = head (findNodesByTag node tag)
  ∧ (findFirstNodeByTag node tag = None ↔ findNodesByTag node tag = []).
Proof.
  rewrite findFirst_head. split; [done|].
  by destruct (findNodesByTag node tag).
Qed.

(** X2. Every element that [findNodesByTag] returns is a node with the
    tag that was asked for; its leaves are leaves of the tree that was
    searched, in the same order; and what a search inside it finds, a
    search of the whole tree finds too. *)
Theorem findNodesByTag_sound (node : Syntax) (tag : string) (n : Syntax) :
  n ∈ findNodesByTag node tag →
  (∃ cs, n = Node tag cs)
  ∧ getAllLeaves n `sublist_of` getAllLeaves node
  ∧ (∀ tag' m, m ∈ findNodesByTag n tag' → m ∈ findNodesByTag node tag').
Proof.
  intros Hn. split; [by eapply findNodes_tagged|]. split; [by eapply findNodes_leaves|].
  intros tag' m Hm. by eapply findNodes_trans.
Qed.

Lemma findNodesByTag_sound_witness :
  getAllLeaves data_decl_q `sublist_of` getAllLeaves (module_tree "accumulator").
Proof.
  apply (findNodesByTag_sound (module_tree "accumulator") "kDataDeclaration" data_decl_q).
  vm_compute. by left.
Defined.

(** X3. [getLineNumber] is at least 1 and at most one more than the
    line feeds of the text; it does not decrease when the offset grows;
    an offset of zero or below, or NaN, gives line 1, and an offset at or
    past the end of the text gives the last line. The infinities are
    such offsets. *)
Theorem getLineNumber_bounds (content : string) :
  (∀ off, 1 ≤ getLineNumber content off ∧ getLineNumber content off ≤ 1 + line_feeds content)
  ∧ (∀ off off', (off ≤ off')%Z →
       getLineNumber content (Finite off) ≤ getLineNumber content (Finite off'))
  ∧ (∀ off, (off ≤ 0)%Z → getLineNumber content (Finite off) = 1)
  ∧ getLineNumber content NaN = 1
  ∧ (∀ off, (Z.of_nat (String.length content) ≤ off)%Z →
       getLineNumber content (Finite off) = 1 + line_feeds content)
  ∧ getLineNumber content (Infinity false) = 1 + line_feeds content
  ∧ getLineNumber content (Infinity true) = 1.
Proof.
  split; [|split; [|split; [|split; [|split; [|split]]]]].
  - intros [|[]|off]; simpl; try (unfold line_feeds; lia). split; [lia|].
    destruct (Nat.le_gt_cases (String.length content) (Z.to_nat off)) as [H|H].
    + by rewrite newlines_past_end.
    + rewrite <- (newlines_past_end content (String.length content)) by done.
      pose proof (newlines_mono content (Z.to_nat off) (String.length content)). lia.
  - intros off off' H. simpl.
    pose proof (newlines_mono content (Z.to_nat off) (Z.to_nat off')). lia.
  - intros off H. simpl. replace (Z.to_nat off) with 0 by lia.
    by destruct content.
  - done.
  - intros off H. simpl. rewrite newlines_past_end by lia. done.
  - done.
  - done.
Qed.

Lemma getLineNumber_bounds_witness :
  getLineNumber (module_source "accumulator") (Finite 7)
  ≤ getLineNumber (module_source "accumulator") (Finite 26).
Proof.
  apply (proj1 (proj2 (getLineNumber_bounds (module_source "accumulator"))) 7%Z 26%Z).
  lia.
Defined.

(** X4. The line of an offset that lies in the second of two joined
    texts is the line of the offset within the second text, plus the
    line feeds of the first. *)
Theorem getLineNumber_app (a b : string) (k : nat) :
  getLineNumber (a +:+ b) (Finite (Z.of_nat (String.length a + k)))
  = line_feeds a + getLineNumber b (Finite (Z.of_nat k)).
Proof.
  simpl. rewrite !Nat2Z.id, newlines_app. lia.
Qed.



(** X6. The tree that [parseTreeStructure] returns is a node, never a
    leaf, and every tag that a search finds in it is the tag of a line
    of the text that matches the node pattern. *)
Theorem parseTreeStructure_tags (output : string) (t : Syntax) :
  parseTreeStructure output = Ok (Some t) →
  (∃ tag cs, t = Node tag cs)
  ∧ (∀ tag, findNodesByTag t tag ≠ [] →
       ∃ line ws, line ∈ split_lines output ∧ nodeMatch line = Some (ws, tag)).
Proof.
  intros Ht. split; [|intros tag; by apply parseLines_tags].
  unfold parseTreeStructure, parseLines in Ht.
  destruct (run_ok (split_lines output) init wf_init) as (st & Hrun & Hwf).
  rewrite Hrun in Ht. simpl in Ht.
  destruct (reify_ok st Hwf) as [[_ Hnull]|(r & c & t' & _ & Hc & Hb & Hre)];
    [congruence|].
  assert (t' = t) as -> by congruence.
  destruct (build_tag _ _ _ _ _ Hc Hb) as [cs ->]. by eexists _, _.
Qed.

Lemma parseTreeStructure_tags_witness :
  ∃ tag cs, module_tree "accumulator" = Node tag cs.
Proof.
  apply (parseTreeStructure_tags (unlines (module_dump "accumulator"))
           (module_tree "accumulator")).
  vm_compute. reflexivity.
Defined.

(** X7. No line matches both patterns: a line that matches the node
    pattern does not match the leaf pattern, so the order of the two
    tests does not matter. A matched node line gives a non-empty tag of
    word characters after a run of white space. *)
Theorem nodeMatch_excludes_leafMatch (line ws tag : string) :
  nodeMatch line = Some (ws, tag) →
  leafMatch line = None
  ∧ all_chars is_space ws = true ∧ tag ≠ "" ∧ all_chars is_word tag = true.
Proof.
  intros Hm. split; [by eapply nodeMatch_not_leaf | by apply nodeMatch_groups in Hm].
Qed.

Lemma nodeMatch_excludes_leafMatch_witness :
  leafMatch (node_text 2 "kModuleHeader") = None.
Proof.
  apply (nodeMatch_excludes_leafMatch (node_text 2 "kModuleHeader") "    " "kModuleHeader").
  vm_compute. reflexivity.
Defined.

(** X8. The result depends on the lines that match one of the two
    patterns only, and on them only through the length of their white
    space, the tag and the fields of the leaf: two texts whose matched
    lines are read alike give the same result. Lines that match neither
    pattern can be dropped. *)
Theorem parseTreeStructure_matched_lines (output output' : string) :
  omap read (split_lines output) = omap read (split_lines output') →
  parseTreeStructure output = parseTreeStructure output'.
Proof.
  intros Hsame. unfold parseTreeStructure, parseLines. by rewrite !run_read, Hsame.
Qed.

Lemma parseTreeStructure_matched_lines_witness :
  parseTreeStructure (unlines (module_dump "accumulator"))
  = parseTreeStructure (unlines (module_dump_matched "accumulator")).
Proof.
  apply parseTreeStructure_matched_lines. vm_compute. reflexivity.
Defined.

(** X9. The indentation counts by whole levels: two runs of white space
    with the same whole part of half their length, such as three spaces
    and two, make the same step, for a node line and for a leaf line. *)
Theorem indentation_by_levels (st : state) (ws ws' : string) :
  String.length ws / 2 = String.length ws' / 2 →
  (∀ tag, node_line st ws tag = node_line st ws' tag)
  ∧ (∀ g g', g_ws g = ws → g_ws g' = ws' → g_tag g = g_tag g' →
       g_start g = g_start g' → g_end g = g_end g' → g_text g = g_text g' →
       leaf_line st g = leaf_line st g')
  ∧ length (pop_to (String.length ws) (stack st))
    = length (stack st) `min` (String.length ws / 2).
Proof.
  intros Hhalf. split; [|split].
  - intros tag. unfold node_line. by rewrite (pop_to_half _ _ _ Hhalf).
  - intros g g' <- <- Ht Hs He Hx. unfold leaf_line.
    by rewrite (pop_to_half _ _ _ Hhalf), Ht, Hs, He, Hx.
  - apply pop_to_length.
Qed.

Lemma indentation_by_levels_witness :
  node_line (mkState [mkCell "A" []] (Some 0) [0]) "   " "B"
  = node_line (mkState [mkCell "A" []] (Some 0) [0]) "  " "B".
Proof.
  apply (proj1 (indentation_by_levels (mkState [mkCell "A" []] (Some 0) [0]) "   " "  "
                  eq_refl)).
Defined.

(** X10. A tree printed in pre-order, one line for each node and leaf,
    indented by two spaces for each level of depth, is read back as that
    tree, whatever lines that match neither pattern stand between. *)
Theorem parseTreeStructure_preorder (output : string) (tag : string) (ts : list Syntax) :
  omap read (split_lines output) = preorder 0 (Node tag ts) →
  parseTreeStructure output = Ok (Some (Node tag ts)).
Proof. intros Hev. by apply parseLines_preorder. Qed.

Lemma parseTreeStructure_preorder_witness :
  parseTreeStructure (unlines (module_dump "accumulator"))
  = Ok (Some (module_tree "accumulator")).
Proof.
  apply (parseTreeStructure_preorder (unlines (module_dump "accumulator"))
           "kDescriptionList" [module_decl "accumulator"]).
  vm_compute. reflexivity.
Defined.

(** X11. Every register that [extractRegistersFromModule] returns is
    owned by the given file and module, is classified as a flip-flop or
    a latch, has a width that is not below one (an integer of one at
    least, the positive infinity, or NaN), and is named by an identifier
    leaf of the module, whose offset gives its line. *)
Theorem extractRegistersFromModule_registers
    (moduleNode : Syntax) (filepath moduleName content : string) (r : RegisterInfo) :
  r ∈ extractRegistersFromModule moduleNode filepath moduleName content →
  file r = filepath ∧ module r = moduleName
  ∧ below_one (width r) = false ∧ 1 ≤ line r
  ∧ (type r = flip_flop ∨ type r = latch)
  ∧ ∃ leaf, leaf ∈ getAllLeaves moduleNode ∧ leaf_tag leaf = "SymbolIdentifier"
            ∧ name r = text leaf ∧ line r = getLineNumber content (start leaf).
Proof. apply extractRegisters_inv. Qed.

Lemma extractRegistersFromModule_registers_witness :
  ∃ leaf, leaf ∈ getAllLeaves (module_decl "accumulator")
          ∧ leaf_tag leaf = "SymbolIdentifier" ∧ "q" = text leaf
          ∧ 2 = getLineNumber (module_source "accumulator") (start leaf).
Proof.
  apply (extractRegistersFromModule_registers (module_decl "accumulator") "top.v"
           "accumulator" (module_source "accumulator")
           (mkReg "q" (Finite 1) flip_flop "top.v" 2 "accumulator")).
  vm_compute. by left.
Defined.

(** X12. The name that [getModuleName] returns is the text of an
    identifier leaf of the module, and is not the word [module]. *)
Theorem getModuleName_identifier (moduleNode : Syntax) (m : string) :
  getModuleName moduleNode = Some m →
  m ≠ "module"
  ∧ ∃ leaf, leaf ∈ getAllLeaves moduleNode ∧ leaf_tag leaf = "SymbolIdentifier"
            ∧ text leaf = m.
Proof.
  unfold getModuleName.
  destruct (findFirstNodeByTag moduleNode "kModuleHeader") as [header|] eqn:Eh; [|done].
  intros (Hm & leaf & Hleaf & Htag & Htext)%first_module_name_inv.
  split; [done|]. exists leaf. split; [|done].
  eapply sublist_elem; [|exact Hleaf]. eapply findNodes_leaves. by apply findFirst_elem.
Qed.

Lemma getModuleName_identifier_witness : "accumulator" ≠ "module".
Proof.
  apply (getModuleName_identifier (module_decl "accumulator") "accumulator" eq_refl).
Defined.

(** X13. The registers that [analyzeFile] returns are one block for each
    module summary, in the order of the summaries; the block of a
    summary has [registerCount] registers, all of that module and of
    that file. The names of the summaries are not empty and not the
    word [module], and the counts add up to the number of registers. *)
Theorem analyzeFile_blocks (w : FileWorld) (filepath : string) :
  (∃ blocks,
     (analyzeFile w filepath).1 = concat blocks
     ∧ Forall2 (fun m block =>
                  registerCount m = length block
                  ∧ m_name m ≠ "" ∧ m_name m ≠ "module" ∧ m_file m = filepath
                  ∧ 1 ≤ m_line m
                  ∧ Forall (fun r => module r = m_name m ∧ reg_ok filepath r) block)
               (analyzeFile w filepath).2 blocks)
  ∧ count_sum (analyzeFile w filepath).2 = length (analyzeFile w filepath).1.
Proof.
  split; [|by destruct (analyzeFile_inv w filepath) as [? _]].
  unfold analyzeFile. destruct (executed w) as [res|]; [|by exists []].
  case_decide; [by exists []|].
  destruct (Parse.parseTreeStructure (stdout res)) as [[tree|]|]; try by exists [].
  destruct (contents w) as [content|]; [|by exists []].
  apply modules_loop_blocks.
Qed.

(** X14. [analyzeFile] reports a module only if the tool ran and exited
    with code 0, the file could be read, and the dump has a node line
    tagged [kModuleDeclaration] and one tagged [kModuleHeader]; and it
    reports a register only if it reports a module. *)
Theorem analyzeFile_needs_module_lines (w : FileWorld) (filepath : string) :
  ((analyzeFile w filepath).1 ≠ [] → (analyzeFile w filepath).2 ≠ [])
  ∧ ((analyzeFile w filepath).2 ≠ [] →
     ∃ res, executed w = Ok res ∧ exitCode res = 0%Z
       ∧ (∃ content, contents w = Ok content)
       ∧ (∃ line ws, line ∈ split_lines (stdout res)
                     ∧ nodeMatch line = Some (ws, "kModuleDeclaration"))
       ∧ (∃ line ws, line ∈ split_lines (stdout res)
                     ∧ nodeMatch line = Some (ws, "kModuleHeader"))).
Proof.
  split.
  - destruct (analyzeFile_inv w filepath) as (_ & _ & Hmem & _).
    destruct (analyzeFile w filepath).1 as [|r regs]; [done|]. intros _ Hnil.
    destruct (Hmem r) as (m & Hm & _); [by left|]. rewrite Hnil in Hm.
    by apply elem_of_nil in Hm.
  - unfold analyzeFile. destruct (executed w) as [res|]; [|done].
    case_decide as Hexit; [done|].
    destruct (Parse.parseTreeStructure (stdout res)) as [[tree|]|] eqn:Et; try done.
    destruct (contents w) as [content|]; [|done].
    intros (n & Hn & [m Hm])%modules_loop_named.
    exists res. split; [done|]. split; [by destruct (decide (exitCode res = 0%Z))|].
    split; [by eexists|]. split.
    + apply (parseLines_tags _ tree); [exact Et|].
      intros Hnil. rewrite Hnil in Hn. by apply elem_of_nil in Hn.
    + apply (parseLines_tags _ tree); [exact Et|].
      unfold getModuleName in Hm.
      destruct (findFirstNodeByTag n "kModuleHeader") as [header|] eqn:Eh; [|done].
      apply findFirst_elem in Eh.
      pose proof (findNodes_trans _ _ _ _ _ Hn Eh) as Hin.
      intros Hnil. rewrite Hnil in Hin. by apply elem_of_nil in Hin.
Qed.

Lemma analyzeFile_needs_module_lines_witness :
  ∃ line ws, line ∈ split_lines (unlines (module_dump "accumulator"))
             ∧ nodeMatch line = Some (ws, "kModuleHeader").
Proof.
  destruct (proj2 (analyzeFile_needs_module_lines (module_world "accumulator") "top.v"))
    as (res & Hres & _ & _ & _ & Hline).
  - vm_compute. discriminate.
  - injection Hres as <-. exact Hline.
Defined.

(** X15. When the files can be listed and no register belongs to a
    module named like a property that every object inherits,
    [processResult] succeeds for the analysis types [registers] and
    [all], and its result is made of the collected registers: their
    number; their widths, added up one after the other as doubles, which
    is the sum of the widths when these are integers and the sum is 2^53
    at most; for each type the count of the registers of that type, with
    no entry for a type without registers; for each module name its
    registers in order; and the collected module summaries. *)
Theorem processResult_views (env : World) (params : AnalyzeParams) (files : list string) :
  getFilesToAnalyze env params = Ok files →
  p_analysis_type params = at_registers ∨ p_analysis_type params = at_all →
  Forall (fun r => ¬ inherited (module r)) (collect (answered env files)).1 →
  ∃ data, processResult env params = Success data
    ∧ registers data = (collect (answered env files)).1
    ∧ totalRegisters data = length (registers data)
    ∧ totalBits data = sum_widths (Finite 0) (registers data)
    ∧ (Forall (fun r => ∃ z, width_is r z) (registers data) →
       (total_width (registers data) ≤ 2 ^ 53)%Z →
       totalBits data = Finite (total_width (registers data)))
    ∧ modules data = Some (collect (answered env files)).2
    ∧ (∀ ty, byType data !! type_name ty =
               if decide (count_type ty (registers data) = 0) then None
               else Some (count_type ty (registers data)))
    ∧ (∀ k, (∀ ty, k ≠ type_name ty) → byType data !! k = None)
    ∧ (∀ m, byModule data !! m =
              if decide (of_module m (registers data) = []) then None
              else Some (of_module m (registers data))).
Proof.
  intros Hfiles Ht Hno.
  rewrite (processResult_listed _ _ _ Hfiles), (processFiles_aggregate _ _ Ht).
  destruct (aggregate_views _ (collect (answered env files)).2 Hno)
    as (data & Hdata & Hr & Hn & Hb & Hm & HT & HK & HM).
  exists data. rewrite Hr. do 4 (split; [done|]). split; [|done].
  intros Hint Hsum. rewrite Hb.
  by rewrite (sum_widths_exact _ 0%Z Hint).
Qed.

Lemma processResult_views_witness :
  ∃ data, processResult (module_env "accumulator") top_v = Success data
          ∧ totalRegisters data = length (registers data).
Proof.
  destruct (processResult_views (module_env "accumulator") top_v ["top.v"] eq_refl
              (or_intror eq_refl))
    as (data & Hdata & _ & Hn & _).
  - unfold inherited. apply (bool_decide_unpack _). vm_compute. exact I.
  - exists data. split; [exact Hdata | exact Hn].
Defined.

(** X16. [processResult] fails exactly when the files cannot be listed,
    or the analysis type is [registers] or [all] and some collected
    register belongs to a module named like a property that every object
    inherits. When the files can be listed, the other analysis types
    return the empty result, whatever the files hold. *)
Theorem processResult_failure_iff (env : World) (params : AnalyzeParams) :
  (processResult env params = Failure
   ↔ getFilesToAnalyze env params = Thrown
     ∨ ∃ files, getFilesToAnalyze env params = Ok files
         ∧ (p_analysis_type params = at_registers ∨ p_analysis_type params = at_all)
         ∧ Exists (fun r => inherited (module r)) (collect (answered env files)).1)
  ∧ (p_analysis_type params ≠ at_registers → p_analysis_type params ≠ at_all →
     getFilesToAnalyze env params ≠ Thrown →
     processResult env params = Success (mkResult [] 0 ∅ ∅ (Finite 0) None)).
Proof.
  unfold processResult. destruct (getFilesToAnalyze env params) as [files|].
  - split.
    + unfold processFiles. destruct (collect (answered env files)) as [regs mods] eqn:Ec.
      simpl. split.
      * intros Hfail. right. exists files. rewrite Ec. simpl. split; [done|].
        destruct (p_analysis_type params); try done;
          (split; [auto | by apply (aggregate_failure_iff regs mods)]).
      * intros [?|(files' & [= <-] & Ht & Hex)]; [done|]. rewrite Ec in Hex. simpl in Hex.
        destruct Ht as [-> | ->]; by apply aggregate_failure_iff.
    + intros Hr Ha _. unfold processFiles. by destruct (p_analysis_type params).
  - split; [split; [by left | done] | by intros _ _ ?].
Qed.

Lemma processResult_failure_iff_witness :
  processResult (module_env "constructor") top_v = Failure.
Proof.
  apply (proj1 (processResult_failure_iff (module_env "constructor") top_v)).
  right. exists ["top.v"]. split; [reflexivity|]. split; [by right|]. unfold inherited.
  apply (bool_decide_unpack _). vm_compute. exact I.
Defined.

(** X17. In every result that [processResult] returns, no register is
    counted as [potential_register], the counts of flip-flops and
    latches add up to the number of registers, the register counts of
    the module summaries add up to it too, and no register is grouped
    under the empty module name. Every register comes from a listed
    file. When the total of the bits is an integer below 2^53, no
    addition was rounded: every width is an integer of one at least, the
    total is their sum, and it is at least the number of registers. *)
Theorem processResult_totals
    (env : World) (params : AnalyzeParams) (data : AnalysisResult) :
  processResult env params = Success data →
  totalRegisters data = length (registers data)
  ∧ (∀ total, totalBits data = Finite total → (total < 2 ^ 53)%Z →
       Forall (fun r => ∃ z, width_is r z) (registers data)
       ∧ total = total_width (registers data)
       ∧ (Z.of_nat (totalRegisters data) ≤ total)%Z)
  ∧ byType data !! "potential_register" = None
  ∧ default 0 (byType data !! "flip_flop") + default 0 (byType data !! "latch")
    = totalRegisters data
  ∧ (∀ mods, modules data = Some mods → count_sum mods = totalRegisters data)
  ∧ byModule data !! "" = None
  ∧ ∃ files, getFilesToAnalyze env params = Ok files
      ∧ Forall (fun r => ∃ filepath, filepath ∈ files ∧ reg_ok filepath r) (registers data).
Proof.
  intros Hok. unfold processResult in Hok.
  destruct (getFilesToAnalyze env params) as [listed|] eqn:Hlisted; [|done].
  set (files := answered env listed) in *.
  assert (Hcases : data = mkResult [] 0 ∅ ∅ (Finite 0) None
                   ∨ aggregate (collect files).1 (collect files).2 = Success data).
  { unfold processFiles in Hok. destruct (collect files).
    destruct (p_analysis_type params); simpl; try (left; congruence); by right. }
  destruct Hcases as [->|Hagg].
  { simpl. split; [done|]. split.
    { intros total [= <-] _. split; [constructor | done]. }
    do 4 (split; [done|]). exists listed. split; [done | constructor]. }
  destruct (collect_inv files) as [Hsum Hregs].
  destruct (aggregate_views_key _ _ _ Hagg) as (Hr & Hn & Hb & Hm & HT & HM & HMn).
  rewrite Hr, Hn, Hb.
  set (regs := (collect files).1) in *.
  assert (Hpot : count_type potential_register regs = 0).
  { apply count_type_none. eapply Forall_impl; [exact Hregs|].
    intros r (fp & w & _ & Hokr). destruct (ok_type _ _ Hokr) as [-> | ->]; done. }
  split; [done|]. split.
  { intros total Htotal Hsmall.
    destruct (sum_widths_small regs 0%Z total) as [Hint ->]; try done.
    - eapply Forall_impl; [exact Hregs|].
      intros r (fp & w & _ & Hokr). apply (ok_width _ _ Hokr).
    - split; [done|]. split; [done|]. simpl. by apply total_width_ge. }
  split.
  { assert (Hno : Forall (fun r => ¬ inherited (module r)) regs).
    { apply (not_Exists_Forall _).
      intros Hex%(aggregate_failure_iff regs (collect files).2). congruence. }
    destruct (aggregate_views regs (collect files).2 Hno)
      as (data' & Hdata & _ & _ & _ & _ & HTx & _).
    assert (data' = data) as -> by congruence.
    pose proof (HTx potential_register) as Hx. simpl in Hx.
    rewrite Hx. by rewrite decide_True. }
  split.
  { pose proof (HT flip_flop) as Hff. pose proof (HT latch) as Hla.
    simpl in Hff, Hla. rewrite Hff, Hla.
    pose proof (count_type_split regs). lia. }
  split; [intros mods Hmods; congruence|]. split.
  { apply HMn. unfold of_module.
    destruct (filter _ regs) as [|r rest] eqn:E; [done|].
    assert (Hin : r ∈ filter (fun r => module r = "") regs) by (rewrite E; by left).
    apply list_elem_of_filter in Hin as [Hmod Hin].
    rewrite Forall_forall in Hregs. destruct (Hregs r Hin) as (fp & w & _ & Hokr).
    by destruct (ok_module _ _ Hokr). }
  exists listed. split; [done|].
  eapply Forall_impl; [exact Hregs|].
  intros r (fp & w & [Hin _]%elem_of_answered & Hokr). by exists fp.
Qed.

Lemma processResult_totals_witness :
  ∃ data, processResult (module_env "accumulator") top_v = Success data
          ∧ default 0 (byType data !! "flip_flop") + default 0 (byType data !! "latch")
            = totalRegisters data.
Proof.
  assert (H1 : ∃ d, processResult (module_env "accumulator") top_v = Success d)
    by (eexists; vm_compute; reflexivity).
  destruct H1 as [d Hd]. exists d. split; [exact Hd|].
  exact (proj1 (proj2 (proj2 (proj2
           (processResult_totals (module_env "accumulator") top_v d Hd))))).
Defined.

(** X18. Two lists of files that are both aggregated can be merged: the
    files of the first followed by the files of the second are
    aggregated too, and the result has the registers and the module
    summaries of the first followed by those of the second, the sums of
    their numbers of registers, for each type the sum of the two counts,
    and for each module name the registers of the first followed by
    those of the second. The total of the bits is the total of the first
    with the widths of the second added to it one after the other; when
    it is an integer below 2^53, it is the sum of the two totals. *)
Theorem processFiles_merge
    (t : AnalysisType) (files1 files2 : list (string * FileWorld))
    (data1 data2 : AnalysisResult) :
  t = at_registers ∨ t = at_all →
  processFiles t files1 = Success data1 →
  processFiles t files2 = Success data2 →
  ∃ data, processFiles t (files1 ++ files2) = Success data
    ∧ registers data = registers data1 ++ registers data2
    ∧ totalRegisters data = totalRegisters data1 + totalRegisters data2
    ∧ totalBits data = sum_widths (totalBits data1) (registers data2)
    ∧ (∀ total, totalBits data = Finite total → (total < 2 ^ 53)%Z →
         ∃ b1 b2, totalBits data1 = Finite b1 ∧ totalBits data2 = Finite b2
                  ∧ total = (b1 + b2)%Z)
    ∧ (∃ m1 m2, modules data1 = Some m1 ∧ modules data2 = Some m2
                ∧ modules data = Some (m1 ++ m2))
    ∧ (∀ ty, default 0 (byType data !! type_name ty)
             = default 0 (byType data1 !! type_name ty)
               + default 0 (byType data2 !! type_name ty))
    ∧ (∀ m, default [] (byModule data !! m)
            = default [] (byModule data1 !! m) ++ default [] (byModule data2 !! m)).
Proof.
  intros Ht H1 H2.
  rewrite (processFiles_aggregate t files1 Ht) in H1.
  rewrite (processFiles_aggregate t files2 Ht) in H2.
  rewrite (processFiles_aggregate t (files1 ++ files2) Ht), collect_app. simpl.
  assert (Hw : ∀ files, Forall (fun r => below_one (width r) = false) (collect files).1).
  { intros files. destruct (collect_inv files) as [_ Hregs].
    eapply Forall_impl; [exact Hregs|].
    intros r (fp & w & _ & Hokr). apply (ok_width _ _ Hokr). }
  pose proof (Hw files1) as Hw1. pose proof (Hw files2) as Hw2. clear Hw.
  set (r1 := (collect files1).1) in *. set (r2 := (collect files2).1) in *.
  set (m1 := (collect files1).2) in *. set (m2 := (collect files2).2) in *.
  assert (Hno : ∀ regs mods d, aggregate regs mods = Success d →
                  Forall (fun r => ¬ inherited (module r)) regs).
  { intros regs mods d Hd. apply (not_Exists_Forall _).
    intros Hex%(aggregate_failure_iff regs mods). congruence. }
  destruct (aggregate_views (r1 ++ r2) (m1 ++ m2)) as (data & Hdata & _).
  { apply Forall_app. split; [by eapply Hno | by eapply Hno]. }
  destruct (aggregate_views_key _ _ _ H1) as (Hr1 & Hn1 & Hb1 & Hm1 & HT1 & HM1 & _).
  destruct (aggregate_views_key _ _ _ H2) as (Hr2 & Hn2 & Hb2 & Hm2 & HT2 & HM2 & _).
  destruct (aggregate_views_key _ _ _ Hdata) as (Hr & Hn & Hb & Hm & HT & HM & _).
  exists data. split; [done|]. split; [by rewrite Hr, Hr1, Hr2|].
  split; [by rewrite Hn, Hn1, Hn2, length_app|].
  split; [by rewrite Hb, Hb1, Hr2, sum_widths_app|].
  split.
  { intros total Htotal Hsmall. rewrite Hb in Htotal.
    destruct (sum_widths_small (r1 ++ r2) 0%Z total) as [Hint Heq]; try done.
    { by apply Forall_app. }
    apply Forall_app in Hint as [Hint1 Hint2].
    rewrite total_width_app in Heq.
    pose proof (total_width_ge r1 Hint1). pose proof (total_width_ge r2 Hint2).
    exists (total_width r1), (total_width r2).
    rewrite Hb1, Hb2.
    rewrite (sum_widths_exact r1 0%Z Hint1), (sum_widths_exact r2 0%Z Hint2) by lia.
    split; [done|]. split; [done | lia]. }
  split; [by exists m1, m2|]. split.
  - intros ty. rewrite HT, HT1, HT2. unfold count_type. by rewrite filter_app, length_app.
  - intros m. rewrite HM, HM1, HM2. unfold of_module. by rewrite filter_app.
Qed.

Lemma processFiles_merge_witness :
  ∃ d data, processFiles at_all one_file = Success d
            ∧ processFiles at_all (one_file ++ one_file) = Success data
            ∧ totalRegisters data = totalRegisters d + totalRegisters d.
Proof.
  assert (H1 : ∃ d, processFiles at_all one_file = Success d)
    by (eexists; vm_compute; reflexivity).
  destruct H1 as [d Hd].
  destruct (processFiles_merge at_all one_file one_file d d (or_intror eq_refl) Hd Hd)
    as (data & Hdata & _ & Hn & _).
  exists d, data. split; [exact Hd|]. split; [exact Hdata | exact Hn].
Defined.

(** X19. The classification depends on which always blocks there are,
    not on their order and not on how often one occurs: two lists with
    the same blocks give the same two sets and classify every register
    alike. *)
Theorem refineRegisters_block_order
    (alwaysNodes alwaysNodes' : list Syntax) (registers : list RegisterInfo) :
  (∀ b, b ∈ alwaysNodes ↔ b ∈ alwaysNodes') →
  clockedSignals alwaysNodes = clockedSignals alwaysNodes'
  ∧ latchSignals alwaysNodes = latchSignals alwaysNodes'
  ∧ refineRegisters alwaysNodes registers = refineRegisters alwaysNodes' registers.
Proof.
  intros Hsame. destruct (signal_sets_ext _ _ Hsame) as [Hc Hl].
  split; [done|]. split; [done|]. by apply refineRegisters_ext.
Qed.

Lemma refineRegisters_block_order_witness :
  refineRegisters [always_star; always_ff] [reg_named "q"]
  = refineRegisters [always_ff; always_star; always_ff] [reg_named "q"].
Proof.
  apply (refineRegisters_block_order [always_star; always_ff]
           [always_ff; always_star; always_ff] [reg_named "q"]).
  intros b. rewrite !elem_of_cons, !elem_of_nil. tauto.
Defined.

(** X20. Classifying twice gives what classifying once gives. *)
Theorem refineRegisters_idempotent
    (alwaysNodes : list Syntax) (registers : list RegisterInfo) :
  refineRegisters alwaysNodes (refineRegisters alwaysNodes registers)
  = refineRegisters alwaysNodes registers.
Proof. apply refineRegisters_idem. Qed.

(** X21. Where a classification comes from. A signal that
    [findAssignedSignals] returns for a block is the text of an
    identifier leaf of that block, and a block counts as clocked only if
    one of its leaves reads [posedge] or [negedge]. So a register is
    classified as a latch only if a block that does not count as clocked
    has an identifier leaf with the name of the register. *)
Theorem classification_provenance
    (alwaysNodes : list Syntax) (registers : list RegisterInfo)
    (i : nat) (register : RegisterInfo) :
  registers !! i = Some register →
  (type <$> refineRegisters alwaysNodes registers !! i = Some latch →
     ∃ a leaf, a ∈ alwaysNodes ∧ hasClockEdge a = false
               ∧ leaf ∈ getAllLeaves a ∧ leaf_tag leaf = "SymbolIdentifier"
               ∧ text leaf = name register)
  ∧ (name register ∈ clockedSignals alwaysNodes →
     ∃ a leaf edge, a ∈ alwaysNodes
               ∧ leaf ∈ getAllLeaves a ∧ leaf_tag leaf = "SymbolIdentifier"
               ∧ text leaf = name register
               ∧ edge ∈ getAllLeaves a
               ∧ (text edge = "posedge" ∨ text edge = "negedge")).
Proof.
  intros Hi. split.
  - rewrite refineRegisters_lookup, Hi. simpl. rewrite classify_type.
    case_decide as Hc; [done|]. case_decide as Hl; [|done]. intros _.
    apply latchSignals_spec in Hl as (a & Ha & He & Hx).
    apply findAssignedSignals_leaf in Hx as (leaf & ? & ? & ?).
    by exists a, leaf.
  - intros (a & Ha & He & Hx)%clockedSignals_spec.
    apply findAssignedSignals_leaf in Hx as (leaf & ? & ? & ?).
    apply hasClockEdge_leaf in He as (edge & ? & ?).
    by exists a, leaf, edge.
Qed.

Lemma classification_provenance_witness :
  ∃ a leaf, a ∈ [always_latch; always_ff] ∧ hasClockEdge a = false
            ∧ leaf ∈ getAllLeaves a ∧ leaf_tag leaf = "SymbolIdentifier"
            ∧ text leaf = "l".
Proof.
  apply (proj1 (classification_provenance [always_latch; always_ff]
                  [reg_named "q"; reg_named "l"] 1 (reg_named "l") eq_refl)).
  reflexivity.
Defined.

Lemma last_cons_default {A} (x d : A) (l : list A) :
  default d (last (x :: l)) = default x (last l).
Proof.
  destruct l as [|a l]; [done|]. change (last (x :: a :: l)) with (last (a :: l)).
  revert a. induction l as [|b l IH]; intros a; [done|]. apply (IH b).
Qed.

Lemma port_scan_spec leaves : ∀ o t,
  port_scan leaves o t
  = (o || has_output leaves,
     default t (last (List.filter is_type_keyword (text <$> leaves)))).
Proof.
  unfold has_output.
  induction leaves as [|leaf rest IH]; intros o t; [by rewrite orb_false_r|].
  cbn [port_scan existsb fmap list_fmap List.filter].
  destruct (bool_decide (text leaf = "output")) eqn:Eo.
  - rewrite IH. apply bool_decide_eq_true in Eo. rewrite Eo.
    by rewrite orb_true_r.
  - destruct (is_type_keyword (text leaf)) eqn:Ek; rewrite IH; simpl.
    + by rewrite last_cons_default.
    + done.
Qed.

(** X22. A port declaration gives candidates exactly when one of its
    leaves reads [output], the last of its leaves that reads [wire],
    [reg] or [logic] reads [reg] or [logic], and it has an identifier
    leaf that is not a direction or type keyword. It is the last type
    keyword that counts, where a data declaration takes the first. *)
Theorem parsePortDeclaration_nonempty_iff (portDecl : Syntax) (content : string) :
  parsePortDeclaration portDecl content ≠ []
  ↔ has_output (getAllLeaves portDecl) = true
    ∧ (last_type (getAllLeaves portDecl) = "reg"
       ∨ last_type (getAllLeaves portDecl) = "logic")
    ∧ ∃ leaf, leaf ∈ getAllLeaves portDecl ∧ is_port_name leaf = true.
Proof.
  unfold parsePortDeclaration, last_type. rewrite port_scan_spec.
  rewrite (filter_bool_prop _ kind_word) by apply is_type_keyword_spec. simpl.
  set (ty := default "wire" _).
  assert (Hty : bool_decide (ty ≠ "reg") && bool_decide (ty ≠ "logic") = false
                ↔ ty = "reg" ∨ ty = "logic").
  { rewrite andb_false_iff, !bool_decide_eq_false.
    split.
    - intros [H|H].
      + left. destruct (decide (ty = "reg")) as [|Hn]; [done | by destruct (H Hn)].
      + right. destruct (decide (ty = "logic")) as [|Hn]; [done | by destruct (H Hn)].
    - intros [H|H]; [left | right]; by intros Hn. }
  assert (Hnames : candidate content (decl_width portDecl)
                     <$> List.filter is_port_name (getAllLeaves portDecl) ≠ []
                   ↔ ∃ leaf, leaf ∈ getAllLeaves portDecl ∧ is_port_name leaf = true).
  { split.
    - destruct (List.filter is_port_name _) as [|leaf rest] eqn:E; [done|]. intros _.
      exists leaf. apply elem_of_list_filter_bool. rewrite E. by left.
    - intros (leaf & Hin%elem_of_list_filter_bool). 
      destruct (List.filter is_port_name _); [by apply elem_of_nil in Hin | done]. }
  destruct (has_output (getAllLeaves portDecl)); simpl.
  - destruct (bool_decide (ty ≠ "reg") && bool_decide (ty ≠ "logic")) eqn:E.
    + split; [done|]. intros (_ & Hrl & _). apply Hty in Hrl. congruence.
    + rewrite Hnames. split; [intros ?; by split; [|split; [apply Hty|]] | by intros (_ & _ & ?)].
  - split; [done | by intros [? _]].
Qed.

Lemma parsePortDeclaration_nonempty_iff_witness :
  parsePortDeclaration port_decl "" ≠ [].
Proof.
  apply (parsePortDeclaration_nonempty_iff port_decl "").
  split; [reflexivity|]. split; [left; reflexivity|].
  exists (mkLeaf "SymbolIdentifier" (Finite 0) (Finite 1) "q").
  split; [|reflexivity]. vm_compute. repeat constructor.
Defined.

(** X23. Without [recursive], [getFilesToAnalyze] returns the given
    path alone and asks the file system nothing; with it, a path that is
    no directory is returned alone as well. It throws exactly when
    [recursive] is set and there is nothing under the path, or a
    directory under it, at any depth, cannot be read. [processResult]
    then fails, for every analysis type: where a file that cannot be
    parsed is skipped, a directory that cannot be read fails the run. *)
Theorem getFilesToAnalyze_throws_iff (env : World) (params : AnalyzeParams) :
  (p_recursive params = false → getFilesToAnalyze env params = Ok [p_filepath params])
  ∧ (stat env (p_filepath params) = Ok RegularFile
     ∨ stat env (p_filepath params) = Ok Special →
     getFilesToAnalyze env params = Ok [p_filepath params])
  ∧ (getFilesToAnalyze env params = Thrown
     ↔ p_recursive params = true
       ∧ (stat env (p_filepath params) = Thrown
          ∨ ∃ d, stat env (p_filepath params) = Ok d ∧ unreadable d))
  ∧ (getFilesToAnalyze env params = Thrown → processResult env params = Failure).
Proof.
  split; [|split; [|split]].
  - intros Hr. unfold getFilesToAnalyze. by rewrite Hr.
  - intros Hs. unfold getFilesToAnalyze. destruct (p_recursive params); [|done].
    by destruct Hs as [-> | ->].
  - apply getFilesToAnalyze_Thrown.
  - intros Hthrown. unfold processResult. by rewrite Hthrown.
Qed.

Lemma getFilesToAnalyze_throws_iff_witness :
  getFilesToAnalyze (locked_env "accumulator") (rtl_dir false) = Ok ["rtl"]
  ∧ processResult (locked_env "accumulator") (rtl_dir true) = Failure.
Proof.
  destruct (getFilesToAnalyze_throws_iff (locked_env "accumulator") (rtl_dir false))
    as (Hflat & _).
  destruct (getFilesToAnalyze_throws_iff (locked_env "accumulator") (rtl_dir true))
    as (_ & _ & Hiff & Hfail).
  split; [by apply Hflat|]. apply Hfail, Hiff. split; [done|]. right.
  eexists. split; [reflexivity|]. simpl. tauto.
Defined.

(** X24. What stands before the first node line has no effect: leaf
    lines there are skipped, as there is no node to take them. *)
Theorem parseTreeStructure_before_first_node (pre rest : list string) :
  Forall (fun l => nodeMatch l = None) pre →
  parseLines (pre ++ rest) = parseLines rest.
Proof.
  intros Hpre. unfold parseLines. rewrite run_app.
  cut (run init pre = Ok init); [by intros ->|].
  induction Hpre as [|line pre Hline _ IH]; [done|].
  cbn [run]. unfold step. rewrite Hline.
  destruct (leafMatch line) as [g|]; [|exact IH].
  unfold leaf_line. simpl. exact IH.
Qed.

Lemma parseTreeStructure_before_first_node_witness :
  parseLines (leaf_text 0 "SymbolIdentifier" "0" "1" "x" :: two_roots)
  = parseLines two_roots.
Proof.
  apply (parseTreeStructure_before_first_node
           [leaf_text 0 "SymbolIdentifier" "0" "1" "x"] two_roots).
  constructor; [vm_compute; reflexivity | constructor].
Defined.



(** X26. The total of the bits depends on the order of the registers
    once it passes 2^53: a register of 2^53 bits followed by two of one
    bit gives 2^53, as each addition of one is rounded away, and the
    same registers with the wide one last give 2^53 + 2. The number of
    registers is three in both. *)
Theorem totalBits_order :
  (∃ data, aggregate [wide "m" (2 ^ 53); wide "a" 1; wide "b" 1] [] = Success data
           ∧ totalBits data = Finite (2 ^ 53) ∧ totalRegisters data = 3)
  ∧ (∃ data, aggregate [wide "a" 1; wide "b" 1; wide "m" (2 ^ 53)] [] = Success data
             ∧ totalBits data = Finite (2 ^ 53 + 2) ∧ totalRegisters data = 3)
  ∧ parsePackedDimensions (range "9007199254740991" "0") = Finite (2 ^ 53).
Proof.
  split; [|split; [|by vm_compute]].
  - destruct (aggregate_views [wide "m" (2 ^ 53); wide "a" 1; wide "b" 1] [])
      as (data & Hdata & _ & Hn & Hb & _).
    { repeat constructor; unfold inherited; apply (bool_decide_unpack _); vm_compute; exact I. }
    exists data. split; [done|]. split; [|done]. rewrite Hb. by vm_compute.
  - destruct (aggregate_views [wide "a" 1; wide "b" 1; wide "m" (2 ^ 53)] [])
      as (data & Hdata & _ & Hn & Hb & _).
    { repeat constructor; unfold inherited; apply (bool_decide_unpack _); vm_compute; exact I. }
    exists data. split; [done|]. split; [|done]. rewrite Hb. by vm_compute.
Qed.

(** X27. With [recursive], on a directory that can be read down to the
    last level, [getFilesToAnalyze] returns the regular files whose name
    ends with [.v] or [.sv], in the directory and in the directories
    below it, and nothing else: no file with another name, and nothing
    that is neither a file nor a directory, whatever its name. *)
Theorem getFilesToAnalyze_listed
    (env : World) (params : AnalyzeParams)
    (entries : result (list (string * Dirent))) (files : list string) (f : string) :
  p_recursive params = true →
  stat env (p_filepath params) = Ok (Directory entries) →
  getFilesToAnalyze env params = Ok files →
  f ∈ files ↔ listed (path_join env) (p_filepath params) (Directory entries) f.
Proof.
  intros Hrec Hstat. unfold getFilesToAnalyze. rewrite Hrec, Hstat.
  cbn [negb mbind result_bind].
  apply (walk_listed (path_join env) (Directory entries)).
Qed.

Lemma getFilesToAnalyze_listed_witness :
  getFilesToAnalyze (open_env "accumulator") (rtl_dir true)
  = Ok ["rtl/top.v"; "rtl/private/alu.sv"]
  ∧ listed (path_join (open_env "accumulator")) "rtl" (Directory rtl_entries)
           "rtl/private/alu.sv".
Proof.
  assert (Hfiles : getFilesToAnalyze (open_env "accumulator") (rtl_dir true)
                   = Ok ["rtl/top.v"; "rtl/private/alu.sv"]) by (by vm_compute).
  split; [exact Hfiles|].
  apply (getFilesToAnalyze_listed (open_env "accumulator") (rtl_dir true) rtl_entries
           ["rtl/top.v"; "rtl/private/alu.sv"] "rtl/private/alu.sv" eq_refl eq_refl Hfiles).
  apply (bool_decide_unpack _). by vm_compute.
Defined.

End Extras.
